(** * Thumbnail composition engine of [app.py]

    A shallow embedding of the functions [get_emoji_image],
    [create_gradient_background], [create_emoji_background], [wrap_text],
    [add_text_overlay] and [create_thumbnail], followed by the properties
    of the composition engine.

    Conventions.
    - Python [int] is [Z]; [//] is [Z.div] (floor division).
    - Python [float] is IEEE 754 binary64, computed with the executable
      operations of [SpecFloat] at precision 53 and exponent bound 1024.
    - Python [str] is a list of Unicode code points.
    - Exceptions are explicit: a computation returns [Ok v] or [Raise e],
      and the state it has reached survives a raised exception, as it does
      in Python.
    - Everything the program obtains from outside (random draws, HTTP
      answers, image decoding, installed fonts, font metrics) is read from
      an environment record [Env].
    - Console and Streamlit notices ([print], [st.info], [st.warning]) have
      no influence on the image and are left out. *)

From Stdlib Require Import ZArith NArith List String Lia Bool HexadecimalString.
From Stdlib Require Import Sorted Permutation.
From Stdlib Require Import Floats.SpecFloat.
From stdpp Require Import base list gmap strings.

Local Open Scope Z_scope.

(** ** Exceptions *)

Inductive exn : Set :=
| TypeError
| ValueError
| OverflowError
| ZeroDivisionError
| IndexError
| OSError
| RequestException
| UnidentifiedImageError.

Inductive result (A : Type) : Type :=
| Ok (a : A)
| Raise (e : exn).
Arguments Ok {A} a.
Arguments Raise {A} e.

Definition is_ok {A} (r : result A) : bool :=
  match r with Ok _ => true | Raise _ => false end.

Definition rbind {A B} (r : result A) (k : A -> result B) : result B :=
  match r with
  | Ok a => k a
  | Raise e => Raise e
  end.

Declare Scope result_scope.
Delimit Scope result_scope with res.
Notation "'let?' x ':=' c 'in' k" :=
  (rbind c (fun x => k))
  (at level 10, x pattern, c at level 100, k at level 200) : result_scope.

(** [[f(x) for x in l]] where [f] may raise. *)
Fixpoint rmap {A B} (f : A -> result B) (l : list A) : result (list B) :=
  match l with
  | [] => Ok []
  | a :: l' =>
      match f a with
      | Ok b =>
          match rmap f l' with
          | Ok bs => Ok (b :: bs)
          | Raise e => Raise e
          end
      | Raise e => Raise e
      end
  end.

(** [range(n)] *)
Definition range (n : Z) : list Z := map Z.of_nat (seq 0 (Z.to_nat n)).

(** [range(a, b)] *)
Definition range2 (a b : Z) : list Z := map (fun k => a + k) (range (b - a)).

(** ** Python floats *)

Module PyFloat.

Definition prec : Z := 53.
Definition emax : Z := 1024.

Definition float : Set := spec_float.

(** An integer as an unrounded operand (mantissa [|n|], exponent 0). *)
Definition exact_of_Z (n : Z) : float :=
  match n with
  | Z0 => S754_zero false
  | Zpos p => S754_finite false p 0
  | Zneg p => S754_finite true p 0
  end.

(** [float(n)]: nearest double, [OverflowError] beyond the range. *)
Definition of_int (n : Z) : result float :=
  match binary_normalize prec emax n 0 false with
  | S754_infinity _ => Raise OverflowError
  | f => Ok f
  end.

(** [a / b] on two ints: the correctly rounded quotient. *)
Definition truediv (a b : Z) : result float :=
  if b =? 0 then Raise ZeroDivisionError
  else
    match SFdiv prec emax (exact_of_Z a) (exact_of_Z b) with
    | S754_infinity _ => Raise OverflowError
    | f => Ok f
    end.

Definition mul : float -> float -> float := SFmul prec emax.
Definition add : float -> float -> float := SFadd prec emax.
Definition sub : float -> float -> float := SFsub prec emax.

(** [int(x)]: truncation toward zero. *)
Definition to_int (x : float) : result Z :=
  match x with
  | S754_zero _ => Ok 0
  | S754_finite s m e =>
      let a := match e with
               | Zneg k => Z.shiftr (Zpos m) (Zpos k)
               | _ => Z.shiftl (Zpos m) e
               end in
      Ok (if s then - a else a)
  | S754_infinity _ => Raise OverflowError
  | S754_nan => Raise ValueError
  end.

(** [n * x], [n - x] with an int on the left: the int is converted first. *)
Definition int_mul (n : Z) (x : float) : result float :=
  (let? f := of_int n in Ok (mul f x))%res.

Definition int_sub (n : Z) (x : float) : result float :=
  (let? f := of_int n in Ok (sub f x))%res.

(** The decimal literals of the source, each the double nearest to the
    written fraction. *)
Definition lit_0_3 : float := S754_finite false 5404319552844595 (-54).
Definition lit_0_6 : float := S754_finite false 5404319552844595 (-53).
Definition one : float := S754_finite false 4503599627370496 (-52).

End PyFloat.

(** ** Python strings *)

Definition char : Set := N.
Definition str : Set := list char.

(** [ord(s)]: defined on strings of length one only. *)
Definition ord (s : str) : result N :=
  match s with
  | [c] => Ok c
  | _ => Raise TypeError
  end.

(** [format(n, 'x')] *)
Definition format_x (n : N) : string :=
  HexadecimalString.NilZero.string_of_uint (N.to_hex_uint n).

(** [c.isspace()]: the code points [str.split()] treats as separators. *)
Definition isspace (c : char) : bool :=
  let c := Z.of_N c in
  ((9 <=? c) && (c <=? 13)) || ((28 <=? c) && (c <=? 32))
  || (c =? 133) || (c =? 160) || (c =? 5760)
  || ((8192 <=? c) && (c <=? 8202))
  || (c =? 8232) || (c =? 8233) || (c =? 8239) || (c =? 8287) || (c =? 12288).

Definition SPACE : char := 32%N.

(** [text.split()], scanning left to right; [cur] is the word being read,
    most recent character first. *)
Fixpoint split_from (cur : list char) (s : str) : list str :=
  match s with
  | [] => match cur with [] => [] | _ => [rev cur] end
  | c :: s' =>
      if isspace c then
        match cur with
        | [] => split_from [] s'
        | _ => rev cur :: split_from [] s'
        end
      else split_from (c :: cur) s'
  end.

Definition split (s : str) : list str := split_from [] s.

(** [' '.join(ws)] *)
Fixpoint join (ws : list str) : str :=
  match ws with
  | [] => []
  | [w] => w
  | w :: ws' => w ++ SPACE :: join ws'
  end.

(** ** Pillow images *)

Inductive mode : Set := RGB | RGBA | OtherMode.

Definition mode_eqb (a b : mode) : bool :=
  match a, b with
  | RGB, RGB | RGBA, RGBA | OtherMode, OtherMode => true
  | _, _ => false
  end.

Definition rgb : Set := Z * Z * Z.
Definition rgba : Set := Z * Z * Z * Z.

(** A font object: [ImageFont.truetype(path, size)] or
    [ImageFont.load_default()]. *)
Inductive font : Set :=
| FreeTypeFont (path : string) (size : Z)
| DefaultFont.

Inductive ink : Set := White | Black.

(** What an image was created from. *)
Inductive origin : Set :=
| Blank (fill : rgba)            (* [Image.new] *)
| Decoded (content : list Z).    (* [Image.open] on downloaded bytes *)

(** An image is its mode, its dimensions, its origin and the operations
    applied to it since, oldest first. *)
Inductive image : Type :=
| Image (m : mode) (width height : Z) (o : origin) (ops : list op)
with op : Type :=
| PutData (pixels : list rgb)
| Resize (width height : Z)
| Convert (m : mode)
| PutAlpha (table : list Z)
| Ellipse (x0 y0 x1 y1 : Z) (fill : rgba)
| Text (x y : Z) (line : str) (f : font) (fill : ink)
| Paste (im : image) (x y : Z).

Definition im_mode (im : image) : mode := let 'Image m _ _ _ _ := im in m.
Definition im_size (im : image) : Z * Z := let 'Image _ w h _ _ := im in (w, h).
Definition im_origin (im : image) : origin := let 'Image _ _ _ o _ := im in o.
Definition im_ops (im : image) : list op := let 'Image _ _ _ _ ops := im in ops.

(** Apply one more operation to an image. *)
Definition apply_op (o : op) (im : image) : image :=
  let 'Image m w h og ops := im in
  match o with
  | Resize w' h' => Image m w' h' og (ops ++ [o])
  | Convert m' => Image m' w h og (ops ++ [o])
  | _ => Image m w h og (ops ++ [o])
  end.

(** Apply a sequence of operations, in order. *)
Definition add_ops (ops : list op) (im : image) : image :=
  fold_left (fun im o => apply_op o im) ops im.

(** [Image.new(mode, (w, h), fill)] *)
Definition Image_new (m : mode) (w h : Z) (fill : rgba) : result image :=
  if (w <? 0) || (h <? 0) then Raise ValueError
  else Ok (Image m w h (Blank fill) []).

(** [im.resize((w, h), Image.Resampling.LANCZOS)] *)
Definition resize (im : image) (w h : Z) : result image :=
  if (w <=? 0) || (h <=? 0) then Raise ValueError
  else Ok (apply_op (Resize w h) im).

(** ** Program data *)

Record quote : Set := { text : str; importance : Z }.
Record emoji_data : Set := { emoji : str; weight : Z }.

(** A reference to a mutable object of the store. *)
Definition ref : Set := nat.

(** The dictionary [data]: ['quotes'] is a list object that
    [add_text_overlay] sorts in place, ['emojis'] is only read. *)
Record data : Set := { quotes : ref; emojis : list emoji_data }.

Record response : Set := { status_code : Z; content : list Z }.

(** ** Environment and state *)

Record Env : Type := {
  (** the [k]-th raw draw of the random generator *)
  random_source : nat -> Z;
  (** outcome of the [k]-th [requests.get], for the given URL *)
  http_get : nat -> string -> result response;
  (** [Image.open]: mode and size of the decoded picture, if any *)
  image_open : list Z -> option (mode * Z * Z);
  (** whether [ImageFont.truetype(path, size)] succeeds *)
  truetype_ok : string -> Z -> bool;
  (** [textbbox((0, 0), s, font=f)]: left, top, right, bottom *)
  textbbox : font -> str -> Z * Z * Z * Z
}.

Record world : Type := {
  (** number of random draws consumed *)
  w_draws : nat;
  (** URLs requested so far, most recent first *)
  w_requests : list string;
  (** entries of [st.cache_data] for [get_emoji_image] *)
  w_cache : gmap (str * Z) image;
  (** the image objects shared between the pipeline stages *)
  w_images : list image;
  (** the list objects holding quotes *)
  w_lists : list (list quote)
}.

Definition set_draws (n : nat) (w : world) : world :=
  {| w_draws := n; w_requests := w_requests w; w_cache := w_cache w;
     w_images := w_images w; w_lists := w_lists w |}.
Definition set_requests (r : list string) (w : world) : world :=
  {| w_draws := w_draws w; w_requests := r; w_cache := w_cache w;
     w_images := w_images w; w_lists := w_lists w |}.
Definition set_cache (c : gmap (str * Z) image) (w : world) : world :=
  {| w_draws := w_draws w; w_requests := w_requests w; w_cache := c;
     w_images := w_images w; w_lists := w_lists w |}.
Definition set_images (i : list image) (w : world) : world :=
  {| w_draws := w_draws w; w_requests := w_requests w; w_cache := w_cache w;
     w_images := i; w_lists := w_lists w |}.
Definition set_lists (l : list (list quote)) (w : world) : world :=
  {| w_draws := w_draws w; w_requests := w_requests w; w_cache := w_cache w;
     w_images := w_images w; w_lists := l |}.

(** ** Computations with state and exceptions *)

Definition M (A : Type) : Type := world -> result A * world.

Definition ret {A} (a : A) : M A := fun w => (Ok a, w).
Definition raise {A} (e : exn) : M A := fun w => (Raise e, w).
Definition lift {A} (r : result A) : M A := fun w => (r, w).

Definition bind {A B} (c : M A) (k : A -> M B) : M B :=
  fun w =>
    match c w with
    | (Ok a, w') => k a w'
    | (Raise e, w') => (Raise e, w')
    end.

(** [try: c  except: h] *)
Definition try_except {A} (c : M A) (h : exn -> M A) : M A :=
  fun w =>
    match c w with
    | (Ok a, w') => (Ok a, w')
    | (Raise e, w') => h e w'
    end.

Declare Scope M_scope.
Delimit Scope M_scope with M.
Notation "'let!' x ':=' c 'in' k" :=
  (bind c (fun x => k))
  (at level 10, x pattern, c at level 100, k at level 200) : M_scope.

(** [for a in l: body(a)] *)
Fixpoint for_each {A} (l : list A) (body : A -> M unit) : M unit :=
  match l with
  | [] => ret tt
  | a :: l' => (let! _ := body a in for_each l' body)%M
  end.

(** A loop that carries a value from one iteration to the next. *)
Fixpoint for_fold {A S} (l : list A) (body : S -> A -> M S) (s : S) : M S :=
  match l with
  | [] => ret s
  | a :: l' => (let! s' := body s a in for_fold l' body s')%M
  end.

(** ** Library calls that touch the state *)

Section Program.

Context (E : Env).

(** [random._randbelow(n)], for [n > 0] *)
Definition randbelow (n : Z) : M Z :=
  fun w =>
    (Ok (random_source E (w_draws w) mod n), set_draws (S (w_draws w)) w).

(** [random.choice(seq)] *)
Definition random_choice {A} (seq : list A) : M A :=
  match seq with
  | [] => raise IndexError
  | _ =>
      (let! k := randbelow (Z.of_nat (length seq)) in
       match seq !! Z.to_nat k with
       | Some a => ret a
       | None => raise IndexError
       end)%M
  end.

(** [random.randint(a, b)] *)
Definition random_randint (a b : Z) : M Z :=
  let width := b + 1 - a in
  if 0 <? width then (let! k := randbelow width in ret (a + k))%M
  else raise ValueError.

(** [x[i], x[j] = x[j], x[i]] *)
Definition swap {A} (x : list A) (i j : nat) : result (list A) :=
  match x !! i, x !! j with
  | Some a, Some b => Ok (<[j:=a]> (<[i:=b]> x))
  | _, _ => Raise IndexError
  end.

(** The loop of [random.shuffle(x)]:
    [for i in reversed(range(1, len(x))): j = randbelow(i + 1); swap]. *)
Fixpoint shuffle_from {A} (i : nat) (x : list A) : M (list A) :=
  match i with
  | O => ret x
  | S i' =>
      (let! j := randbelow (Z.of_nat i + 1) in
       let! x' := lift (swap x i (Z.to_nat j)) in
       shuffle_from i' x')%M
  end.

Definition random_shuffle {A} (x : list A) : M (list A) :=
  shuffle_from (length x - 1)%nat x.

(** [requests.get(url, timeout=5)] *)
Definition requests_get (url : string) : M response :=
  fun w =>
    (http_get E (length (w_requests w)) url,
     set_requests (url :: w_requests w) w).

(** [Image.open(io.BytesIO(content))] *)
Definition Image_open (content : list Z) : result image :=
  match image_open E content with
  | Some (m, w, h) => Ok (Image m w h (Decoded content) [])
  | None => Raise UnidentifiedImageError
  end.

(** A new image object enters the store. *)
Definition new_image (im : image) : M ref :=
  fun w => (Ok (length (w_images w)), set_images (w_images w ++ [im]) w).

(** An operation that changes the image object [img] in place. *)
Definition draw (img : ref) (o : op) : M unit :=
  fun w => (Ok tt, set_images (alter (apply_op o) img (w_images w)) w).

(** [textbbox] measurements *)
Definition text_width (f : font) (s : str) : Z :=
  let '(x0, _, x1, _) := textbbox E f s in x1 - x0.

Definition text_height (f : font) (s : str) : Z :=
  let '(_, y0, _, y1) := textbbox E f s in y1 - y0.

(** ** [get_emoji_image] *)

Definition placeholder_colors : list rgb :=
  [(255, 100, 100); (100, 255, 100); (100, 100, 255);
   (255, 255, 100); (255, 100, 255); (100, 255, 255)].

(** One pass of the shading loop: the ring drawn for index [i]. *)
Definition placeholder_ring (size : Z) (color : rgb) (i : Z) : result op :=
  (let? t := PyFloat.truediv i (size / 4) in
   let? v := PyFloat.int_sub 1 (PyFloat.mul t PyFloat.lit_0_3) in
   let? s := PyFloat.int_mul 255 v in
   let? shade := PyFloat.to_int s in
   let channel (c : Z) : result Z :=
     (let? q := PyFloat.truediv (c * shade) 255 in
      let? k := PyFloat.to_int q in
      Ok (Z.min 255 k)) in
   let '(cr, cg, cb) := color in
   let? r := channel cr in
   let? g := channel cg in
   let? b := channel cb in
   Ok (Ellipse i i (size - i - 1) (size - i - 1) (r, g, b, 180)))%res.

(** Lines 46-57: the coloured circle. *)
Definition placeholder (size : Z) : M image :=
  (let! img := lift (Image_new RGBA size size (0, 0, 0, 0)) in
   let! color := random_choice placeholder_colors in
   let! rings := lift (rmap (placeholder_ring size color) (range (size / 4))) in
   ret (add_ops rings img))%M.

Definition twemoji_svg (codepoint : string) : string :=
  String.append "https://twemoji.maxcdn.com/v/latest/svg/"
    (String.append codepoint ".svg").

Definition twemoji_png (codepoint : string) : string :=
  String.append "https://twemoji.maxcdn.com/v/latest/72x72/"
    (String.append codepoint ".png").

(** The body of [get_emoji_image], lines 17-57. *)
Definition get_emoji_image_wrapped (emoji : str) (size : Z) : M image :=
  (let! _ :=
     try_except
       (let! c := lift (ord emoji) in
        let! response := requests_get (twemoji_svg (format_x c)) in
        ret tt)
       (fun _ => ret tt) in
   let! fetched :=
     try_except
       (let! c := lift (ord emoji) in
        let! response := requests_get (twemoji_png (format_x c)) in
        if status_code response =? 200 then
          let! emoji_img := lift (Image_open (content response)) in
          let! emoji_img := lift (resize emoji_img size size) in
          ret (Some emoji_img)
        else ret None)
       (fun _ => ret None) in
   match fetched with
   | Some emoji_img => ret emoji_img
   | None => placeholder size
   end)%M.

(** [@st.cache_data]: a result is stored under its arguments and handed
    out again, as a copy, on every later call with the same arguments. *)
Definition st_cache_data (f : str -> Z -> M image) (emoji : str) (size : Z)
  : M image :=
  fun w =>
    match w_cache w !! (emoji, size) with
    | Some im => (Ok im, w)
    | None =>
        match f emoji size w with
        | (Ok im, w') =>
            (Ok im, set_cache (<[(emoji, size) := im]> (w_cache w')) w')
        | (Raise e, w') => (Raise e, w')
        end
    end.

Definition get_emoji_image : str -> Z -> M image :=
  st_cache_data get_emoji_image_wrapped.

(** ** [create_gradient_background] *)

Definition palettes : list (rgb * rgb) :=
  [((240, 248, 255), (176, 196, 222));
   ((255, 248, 240), (255, 218, 185));
   ((248, 255, 248), (200, 255, 200));
   ((255, 240, 245), (255, 182, 193));
   ((248, 248, 255), (221, 160, 221))].

(** [int(a * (1 - ratio) + b * ratio)] *)
Definition gradient_channel (a b : Z) (ratio : PyFloat.float) : result Z :=
  (let? u := PyFloat.int_sub 1 ratio in
   let? p := PyFloat.int_mul a u in
   let? q := PyFloat.int_mul b ratio in
   PyFloat.to_int (PyFloat.add p q))%res.

(** The colour computed for row [y]. *)
Definition gradient_color (colors : rgb * rgb) (size y : Z) : result rgb :=
  let '((r0, g0, b0), (r1, g1, b1)) := colors in
  (let? ratio := PyFloat.truediv y size in
   let? r := gradient_channel r0 r1 ratio in
   let? g := gradient_channel g0 g1 ratio in
   let? b := gradient_channel b0 b1 ratio in
   Ok (r, g, b))%res.

(** One pass of the outer loop: [size] copies of the row colour. *)
Definition gradient_row (colors : rgb * rgb) (size y : Z)
  : result (list rgb) :=
  (let? c := gradient_color colors size y in
   Ok (repeat c (Z.to_nat size)))%res.

Definition gradient_pixels (colors : rgb * rgb) (size : Z)
  : result (list rgb) :=
  (let? rows := rmap (gradient_row colors size) (range size) in
   Ok (concat rows))%res.

Definition create_gradient_background (size : Z) : M ref :=
  (let! img := lift (Image_new RGB size size (0, 0, 0, 0)) in
   let! colors := random_choice palettes in
   let! pixels := lift (gradient_pixels colors size) in
   new_image (apply_op (PutData pixels) img))%M.

(** ** [create_emoji_background] *)

Definition emoji_size : Z := 64.

Definition fallback_colors : list rgba :=
  [(255, 200, 200, 150); (200, 255, 200, 150); (200, 200, 255, 150);
   (255, 255, 200, 150); (255, 200, 255, 150); (200, 255, 255, 150)].

(** Lines 366-370: every glyph repeated [max(2, weight)] times. *)
Definition emoji_instances (emojis : list emoji_data) : list str :=
  flat_map
    (fun emoji_data =>
       let count := Z.max 2 (weight emoji_data) in
       map (fun _ => emoji emoji_data) (range count))
    emojis.

(** [alpha.point(lambda p: int(p * 0.6))]: the lookup table. *)
Definition alpha_table : result (list Z) :=
  rmap (fun p => let? a := PyFloat.int_mul p PyFloat.lit_0_6 in
                 PyFloat.to_int a)%res
       (range 256).

(** Lines 380-397: one glyph instance. *)
Definition place_emoji (img : ref) (size : Z) (emoji : str) : M unit :=
  (let! x := random_randint 0 (size - emoji_size) in
   let! y := random_randint 0 (size - emoji_size) in
   let! emoji_img := get_emoji_image emoji emoji_size in
   let emoji_img :=
     if mode_eqb (im_mode emoji_img) RGBA then emoji_img
     else apply_op (Convert RGBA) emoji_img in
   let! table := lift alpha_table in
   let emoji_img := apply_op (PutAlpha table) emoji_img in
   draw img (Paste emoji_img x y))%M.

(** Lines 405-410: one fallback shape. *)
Definition fallback_shape (img : ref) (size : Z) : M unit :=
  (let! x := random_randint 0 (size - 60) in
   let! y := random_randint 0 (size - 60) in
   let! color := random_choice fallback_colors in
   let! shape_size := random_randint 30 80 in
   draw img (Ellipse x y (x + shape_size) (y + shape_size) color))%M.

Definition create_emoji_background (img : ref) (size : Z)
  (emojis : list emoji_data) : M unit :=
  try_except
    (let! emoji_positions := random_shuffle (emoji_instances emojis) in
     for_each emoji_positions (place_emoji img size))%M
    (fun _ => for_each (range 80) (fun _ => fallback_shape img size)).

(** ** [wrap_text] *)

(** The loop over the words, carrying [lines] and [current_line]. *)
Fixpoint wrap_loop (f : font) (max_width : Z) (words : list str)
  (lines current_line : list str) : list str * list str :=
  match words with
  | [] => (lines, current_line)
  | word :: words' =>
      let test_line := join (current_line ++ [word]) in
      let test_width := text_width f test_line in
      if test_width <=? max_width then
        wrap_loop f max_width words' lines (current_line ++ [word])
      else
        match current_line with
        | _ :: _ =>
            wrap_loop f max_width words' (lines ++ [join current_line]) [word]
        | [] =>
            wrap_loop f max_width words' (lines ++ [word]) current_line
        end
  end.

Definition wrap_text (txt : str) (f : font) (max_width : Z) : list str :=
  let '(lines, current_line) := wrap_loop f max_width (split txt) [] [] in
  match current_line with
  | _ :: _ => lines ++ [join current_line]
  | [] => lines
  end.

(** ** [add_text_overlay] *)

(** [quotes.sort(key=lambda k: k['importance'], reverse=True)]: a stable
    sort, greatest importance first.  [sort_insert q l] puts [q], which
    stood before all of [l], into the sorted [l]. *)
Fixpoint sort_insert (q : quote) (l : list quote) : list quote :=
  match l with
  | [] => [q]
  | h :: t =>
      if importance h <=? importance q then q :: l
      else h :: sort_insert q t
  end.

Definition sorted_by_importance (l : list quote) : list quote :=
  fold_right sort_insert [] l.

(** The in-place sort of the list object [quotes]; the sorted content is
    returned for the loop that follows. *)
Definition list_sort (quotes : ref) : M (list quote) :=
  fun w =>
    let l := sorted_by_importance (default [] (w_lists w !! quotes)) in
    (Ok l, set_lists (<[quotes := l]> (w_lists w)) w).

Definition font_paths : list string :=
  ["/System/Library/Fonts/Arial Bold.ttc";
   "/System/Library/Fonts/Helvetica-Bold.ttc";
   "/System/Library/Fonts/Arial.ttc";
   "/usr/share/fonts/truetype/dejavu/DejaVuSans-Bold.ttf";
   "/Windows/Fonts/arialbd.ttf";
   "/Windows/Fonts/arial.ttf"]%string.

Definition system_fonts : list string :=
  ["/System/Library/Fonts/Arial.ttc";
   "/System/Library/Fonts/Helvetica.ttc"]%string.

(** Lines 453-460: the first path that loads at the test size 20. *)
Definition base_font : option string :=
  List.find (fun font_path => truetype_ok E font_path 20) font_paths.

(** Lines 469-471. *)
Definition quote_font_size (size : Z) (q : quote)
  (text_size_multiplier : PyFloat.float) : result Z :=
  let base_size := size / 4 in
  (let? tenth := PyFloat.truediv (importance q) 10 in
   let? scaled := PyFloat.int_mul base_size tenth in
   let? font_size := PyFloat.to_int (PyFloat.mul scaled text_size_multiplier) in
   let? low := PyFloat.int_mul 150 text_size_multiplier in
   let? low := PyFloat.to_int low in
   let? high := PyFloat.int_mul (size / 2) text_size_multiplier in
   let? high := PyFloat.to_int high in
   Ok (Z.max low (Z.min font_size high)))%res.

(** Lines 476-501: the font object for one quote. *)
Definition load_font (font_size : Z) : font :=
  let loaded :=
    match base_font with
    | Some p =>
        if truetype_ok E p font_size then Some (FreeTypeFont p font_size)
        else None
    | None => None
    end in
  match loaded with
  | Some f => f
  | None =>
      match List.find (fun font_path => truetype_ok E font_path font_size)
              system_fonts with
      | Some p => FreeTypeFont p font_size
      | None => DefaultFont
      end
  end.

(** The offsets of the outline, in drawing order. *)
Definition outline_offsets : list (Z * Z) :=
  let outline_width := 4 in
  flat_map
    (fun dx =>
       flat_map
         (fun dy =>
            if negb (dx =? 0) || negb (dy =? 0) then [(dx, dy)] else [])
         (range2 (- outline_width) (outline_width + 1)))
    (range2 (- outline_width) (outline_width + 1)).

(** Lines 525-544: one line of a block, drawn at [current_y]. *)
Definition draw_line (img : ref) (size : Z) (f : font) (line_spacing : Z)
  (current_y : Z) (line_and_height : str * Z) : M Z :=
  let '(line, line_height) := line_and_height in
  let line_width := text_width f line in
  let x := (size - line_width) / 2 in
  (let! _ :=
     for_each outline_offsets
       (fun d => draw img (Text (x + fst d) (current_y + snd d) line f White)) in
   let! _ := draw img (Text x current_y line f Black) in
   ret (current_y + line_height + line_spacing))%M.

(** Lines 509-519: height of a block from the heights of its lines. *)
Definition block_height (line_heights : list Z) (line_spacing : Z) : Z :=
  fold_left Z.add line_heights 0
  + line_spacing * (Z.of_nat (length line_heights) - 1).

(** What lines 468-519 compute for one quote before anything is drawn. *)
Record block : Set := {
  font_size : Z;
  block_font : font;
  lines : list str;
  line_heights : list Z;
  line_spacing : Z;
  total_height : Z
}.

Definition quote_block (size : Z) (text_size_multiplier : PyFloat.float)
  (q : quote) : result block :=
  let max_text_width := size - 120 in
  (let? font_size := quote_font_size size q text_size_multiplier in
   let f := load_font font_size in
   let lines := wrap_text (text q) f max_text_width in
   let line_heights := map (text_height f) lines in
   let line_spacing := font_size / 4 in
   Ok {| font_size := font_size;
         block_font := f;
         lines := lines;
         line_heights := line_heights;
         line_spacing := line_spacing;
         total_height := block_height line_heights line_spacing |})%res.

(** Lines 468-546: one pass of the loop over the quotes; the result is
    the value of [y_offset] for the next pass. *)
Definition overlay_quote (img : ref) (size : Z)
  (text_size_multiplier : PyFloat.float) (y_offset : Z) (q : quote) : M Z :=
  (let! b := lift (quote_block size text_size_multiplier q) in
   if y_offset + total_height b <? size - 100 then
     let! current_y :=
       for_fold (combine (lines b) (line_heights b))
         (draw_line img size (block_font b) (line_spacing b)) y_offset in
     ret (current_y + 40)
   else ret y_offset)%M.

Definition add_text_overlay (img : ref) (size : Z) (quotes : ref)
  (text_size_multiplier : PyFloat.float) : M unit :=
  (let! sorted := list_sort quotes in
   let y_offset := size / 12 in
   let! _ :=
     for_fold sorted (overlay_quote img size text_size_multiplier) y_offset in
   ret tt)%M.

(** ** [create_thumbnail] *)

Definition create_thumbnail (d : data)
  (text_size_multiplier : PyFloat.float) : M ref :=
  let size := 1024 in
  (let! img := create_gradient_background size in
   let! _ := create_emoji_background img size (emojis d) in
   let! _ := add_text_overlay img size (quotes d) text_size_multiplier in
   ret img)%M.

End Program.

(** * Vocabulary of the properties *)

(** A float of magnitude below [2^k]: a zero, or a finite number whose
    mantissa and exponent satisfy [digits m + e <= k]. *)
Definition below (k : Z) (x : PyFloat.float) : Prop :=
  match x with
  | S754_zero _ => True
  | S754_finite _ m e => Zdigits2 (Zpos m) + e <= k
  | _ => False
  end.

(** A word as [split] returns it: not empty, no separator inside. *)
Definition word_ok (w : str) : Prop :=
  w <> [] /\ Forall (fun c => isspace c = false) w.

(** A group of words fits when it is a single word or its joined width
    is within the limit. *)
Definition fits (E : Env) (f : font) (max_width : Z) (g : list str) : Prop :=
  (length g <= 1)%nat \/ text_width E f (join g) <= max_width.

Definition is_ellipse (o : op) : Prop :=
  match o with Ellipse _ _ _ _ _ => True | _ => False end.

(** The coloured circle of lines 46-57, for some colour of the list. *)
Definition is_placeholder (size : Z) (im : image) : Prop :=
  exists color rings,
    In color placeholder_colors
    /\ rmap (placeholder_ring size color) (range (size / 4)) = Ok rings
    /\ im = add_ops rings (Image RGBA size size (Blank (0, 0, 0, 0)) []).

(** The download of the PNG succeeds: the glyph is one code point, the
    request after the [n]-th (the SVG probe) is answered with status 200 and
    its content decodes; [im] is the decoded picture resized. *)
Definition fetch_succeeds (E : Env) (emoji : str) (n : nat) (size : Z)
  (im : image) : Prop :=
  exists c r md w h,
    ord emoji = Ok c
    /\ http_get E (S n) (twemoji_png (format_x c)) = Ok r
    /\ status_code r = 200
    /\ image_open E (content r) = Some (md, w, h)
    /\ im = Image md size size (Decoded (content r)) [Resize size size].

(** Every cache entry is the result of an earlier run of the function on
    the arguments it is stored under. *)
Definition cache_sound (E : Env) (w : world) : Prop :=
  forall e s im,
    w_cache w !! (e, s) = Some im ->
    exists w0 w1, get_emoji_image_wrapped E e s w0 = (Ok im, w1).

(** The lines drawn in black on an image, in drawing order. *)
Definition black_lines (ops : list op) : list str :=
  flat_map (fun o => match o with Text _ _ line _ Black => [line] | _ => [] end)
           ops.

Definition black_texts (im : image) : list str := black_lines (im_ops im).

(** The images pasted onto an image, in pasting order. *)
Definition pasted (im : image) : list image :=
  flat_map (fun o => match o with Paste g _ _ => [g] | _ => [] end) (im_ops im).

(** Two colours that differ by at most 1 in every channel. *)
Definition near (c d : rgb) : Prop :=
  let '(r, g, b) := c in
  let '(r', g', b') := d in
  Z.abs (r - r') <= 1 /\ Z.abs (g - g') <= 1 /\ Z.abs (b - b') <= 1.

(** The claim that the last row of the gradient has the end colour, within
    1 per channel. *)
Definition last_row_near_end (colors : rgb * rgb) (size : Z) : Prop :=
  exists c, gradient_color colors size (size - 1) = Ok c /\ near c (snd colors).

(** The interpolation [start*(1 - y/size) + end*(y/size)] in exact
    arithmetic, rounded down. *)
Definition exact_channel (a b size y : Z) : Z := (a * (size - y) + b * y) / size.

Definition exact_color (colors : rgb * rgb) (size y : Z) : rgb :=
  let '((r0, g0, b0), (r1, g1, b1)) := colors in
  (exact_channel r0 r1 size y, exact_channel g0 g1 size y,
   exact_channel b0 b1 size y).

Definition rgb_eqb (c d : rgb) : bool :=
  let '(r, g, b) := c in
  let '(r', g', b') := d in
  (r =? r') && (g =? g') && (b =? b').

(** Operations that leave mode and size of an image as they are. *)
Definition keeps_shape (o : op) : Prop :=
  match o with Resize _ _ | Convert _ => False | _ => True end.

(** Clamping into [1, 10]. *)
Definition clamp10 (v : Z) : Z := Z.max 1 (Z.min 10 v).

(** The claim that a weight or importance [v] is used as [clamp10 v]. *)
Definition clamps_to_ten (v : Z) (m : PyFloat.float) : Prop :=
  emoji_instances [{| emoji := [128512%N]; weight := v |}]
  = emoji_instances [{| emoji := [128512%N]; weight := clamp10 v |}]
  /\ quote_font_size 1024 {| text := []; importance := v |} m
     = quote_font_size 1024 {| text := []; importance := clamp10 v |} m.

(** [sum(max(2, weight))] over a list of emoji records. *)
Definition instance_count (emojis : list emoji_data) : Z :=
  fold_right (fun d n => Z.max 2 (weight d) + n) 0 emojis.

(** A glyph instance as it is placed: the emoji string, its image and its
    position. *)
Definition placement : Type := str * image * (Z * Z).

Definition placed_emoji (p : placement) : str := fst (fst p).

Definition paste_of (p : placement) : op :=
  Paste (snd (fst p)) (fst (snd p)) (snd (snd p)).

(** The image object behind a reference. *)
Definition canvas (img : ref) (w : world) : image :=
  default (Image RGB 0 0 (Blank (0, 0, 0, 0)) []) (w_images w !! img).

(** The drawing operations of one outlined line placed at [current_y]. *)
Definition line_ops (E : Env) (size : Z) (f : font) (current_y : Z)
  (line : str) : list op :=
  let x := (size - text_width E f line) / 2 in
  map (fun d => Text (x + fst d) (current_y + snd d) line f White)
      outline_offsets
  ++ [Text x current_y line f Black].

(** The drawing operations of a whole block whose first line is placed at
    [current_y]. *)
Fixpoint block_ops (E : Env) (size : Z) (f : font) (line_spacing : Z)
  (current_y : Z) (ls : list (str * Z)) : list op :=
  match ls with
  | [] => []
  | (line, line_height) :: ls' =>
      line_ops E size f current_y line
      ++ block_ops E size f line_spacing
           (current_y + line_height + line_spacing) ls'
  end.

Definition draws_of (E : Env) (size : Z) (y_offset : Z) (b : block) : list op :=
  block_ops E size (block_font b) (line_spacing b) y_offset
    (combine (lines b) (line_heights b)).

(** Greatest importance first. *)
Definition descending (l : list quote) : Prop :=
  Sorted (fun a b => importance b <= importance a) l.

(** The wrapped lines of a quote. *)
Definition quote_lines (E : Env) (size : Z) (m : PyFloat.float) (q : quote)
  : list str :=
  match quote_block E size m q with Ok b => lines b | Raise _ => [] end.

(** The claim that the quotes drawn are those of a prefix of the sorted
    list: the black lines added to the canvas are the lines of the first
    [k] quotes, for some [k]. *)
Definition rendered_prefix (E : Env) (img : ref) (size : Z) (quotes : ref)
  (m : PyFloat.float) (w : world) : Prop :=
  let w' := snd (add_text_overlay E img size quotes m w) in
  exists k : nat,
    black_texts (canvas img w')
    = black_texts (canvas img w)
      ++ concat (map (quote_lines E size m)
                   (firstn k (sorted_by_importance
                                (default [] (w_lists w !! quotes))))).

(** The claim that a drawn block moves the cursor by its height and the
    40 pixel gap only. *)
Definition advance_without_trailing_gap (E : Env) (img : ref) (size : Z)
  (m : PyFloat.float) (y_offset : Z) (q : quote) (w : world) : Prop :=
  forall b,
    quote_block E size m q = Ok b ->
    y_offset + total_height b < size - 100 ->
    fst (overlay_quote E img size m y_offset q w)
    = Ok (y_offset + total_height b + 40).

(** The claim that the caller's list of quotes is as it was. *)
Definition quotes_unchanged (E : Env) (img : ref) (size : Z) (quotes : ref)
  (m : PyFloat.float) (w : world) : Prop :=
  w_lists (snd (add_text_overlay E img size quotes m w)) !! quotes
  = w_lists w !! quotes.

(** ** A concrete setting *)

Module Scenario.

(** A fixed-pitch metric: every character is as wide as the font size, a
    line is as high as the font size. *)
Definition mono_bbox (f : font) (s : str) : Z * Z * Z * Z :=
  let n := match f with FreeTypeFont _ n => n | DefaultFont => 10 end in
  (0, 0, n * Z.of_nat (length s), n).

(** No network, every font path loads at a positive size, all random
    draws are 0. *)
Definition env : Env :=
  {| random_source := fun _ => 0;
     http_get := fun _ _ => Raise RequestException;
     image_open := fun _ => None;
     truetype_ok := fun _ n => 0 <? n;
     textbbox := mono_bbox |}.

Definition a : char := 97%N.
Definition b : char := 98%N.

Definition long_quote : quote :=
  {| text := [a; SPACE; a; SPACE; a; SPACE; a; SPACE; a]; importance := 10 |}.
Definition short_quote : quote := {| text := [b]; importance := 1 |}.
Definition big_quote : quote := {| text := [b]; importance := 10 |}.

Definition blank_canvas : image := Image RGB 1024 1024 (Blank (0, 0, 0, 0)) [].

(** A state with one canvas, behind [img0], and one list of quotes, behind
    [quotes0]. *)
Definition img0 : ref := 0%nat.
Definition quotes0 : ref := 0%nat.

Definition start (qs : list quote) : world :=
  {| w_draws := 0; w_requests := []; w_cache := ∅;
     w_images := [blank_canvas]; w_lists := [qs] |}.

End Scenario.

(** * Further vocabulary *)

(** The environment [E] with another answer function for [requests.get]. *)
Definition with_http (h : nat -> string -> result response) (E : Env) : Env :=
  {| random_source := random_source E;
     http_get := h;
     image_open := image_open E;
     truetype_ok := truetype_ok E;
     textbbox := textbbox E |}.

(** The image pasted by a paste operation. *)
Definition glyph_of (p : placement) : image := snd (fst p).

(** A fallback shape of lines 405-410 on a canvas of side [size]. *)
Definition is_fallback_shape (size : Z) (o : op) : Prop :=
  exists x y d c,
    o = Ellipse x y (x + d) (y + d) c
    /\ 0 <= x <= size - 60 /\ 0 <= y <= size - 60
    /\ 30 <= d <= 80 /\ In c fallback_colors.

(** A setting in which the glyph service answers every request with
    status 200 and a picture of 72 by 72. *)
Module Online.

Definition png : response := {| status_code := 200; content := [137; 80; 78; 71] |}.

Definition env : Env :=
  {| random_source := fun _ => 0;
     http_get := fun _ _ => Ok png;
     image_open := fun _ => Some (OtherMode, 72, 72);
     truetype_ok := fun _ n => 0 <? n;
     textbbox := Scenario.mono_bbox |}.

End Online.

(** The vertical extent, top and bottom, of every line drawn in black. *)
Definition black_boxes (E : Env) (ops : list op) : list (Z * Z) :=
  flat_map
    (fun o =>
       match o with
       | Text _ y line f Black => [(y, y + text_height E f line)]
       | _ => []
       end)
    ops.

(** Boxes that follow one another from [lo] downwards without overlap and
    end at or above [hi]. *)
Fixpoint stacked (lo : Z) (boxes : list (Z * Z)) (hi : Z) : Prop :=
  match boxes with
  | [] => lo <= hi
  | box :: rest => lo <= fst box /\ fst box <= snd box /\ stacked (snd box) rest hi
  end.

(** A float that is zero or positive and finite. *)
Definition nonneg_float (x : PyFloat.float) : Prop :=
  match x with
  | S754_zero _ => True
  | S754_finite false _ _ => True
  | _ => False
  end.

(** The break after the group of words [g] is forced: [g] is one word wider
    than the limit, or [g] with the word that follows it is wider than the
    limit. *)
Definition forced (E : Env) (f : font) (max_width : Z) (g : list str)
  (next : option str) : Prop :=
  (exists w, g = [w] /\ max_width < text_width E f w)
  \/ (exists w', next = Some w' /\ max_width < text_width E f (join (g ++ [w']))).

(** Every break between two consecutive groups is forced. *)
Fixpoint forced_chain (E : Env) (f : font) (max_width : Z)
  (G : list (list str)) : Prop :=
  match G with
  | g :: rest =>
      match rest with
      | g' :: _ => forced E f max_width g (head g')
      | [] => True
      end
      /\ forced_chain E f max_width rest
  | [] => True
  end.

(** A drawing operation that writes text. *)
Definition is_text (o : op) : Prop :=
  match o with Text _ _ _ _ _ => True | _ => False end.

(** * The reply of the language model *)

(** ** Python strings, continued *)

(** A literal of ASCII characters. *)
Definition lit (s : string) : str :=
  map Ascii.N_of_ascii (String.list_ascii_of_string s).

Definition nl : char := 10%N.
Definition dq : char := 34%N.
Definition backtick : char := 96%N.

(** [s.startswith(sep)] *)
Fixpoint starts_with (sep s : str) : bool :=
  match sep, s with
  | [], _ => true
  | _ :: _, [] => false
  | a :: sep', c :: s' => (a =? c)%N && starts_with sep' s'
  end.

(** [sep in s] *)
Fixpoint contains (sep s : str) : bool :=
  starts_with sep s
  || match s with
     | [] => false
     | _ :: s' => contains sep s'
     end.

(** [s.split(sep)] for a separator that is not empty, scanning left to
    right; [cur] is the piece being read, most recent character first, and
    [skip] the number of characters of a separator still to pass. *)
Fixpoint split_sep_from (sep : str) (skip : nat) (cur : list char) (s : str)
  : list str :=
  match s with
  | [] => [rev cur]
  | c :: s' =>
      match skip with
      | S k => split_sep_from sep k cur s'
      | O =>
          if starts_with sep s
          then rev cur :: split_sep_from sep (length sep - 1) [] s'
          else split_sep_from sep 0 (c :: cur) s'
      end
  end.

Definition split_sep (sep s : str) : list str := split_sep_from sep 0 [] s.

(** [l[i]] *)
Definition index {A} (l : list A) (i : nat) : result A :=
  match l !! i with
  | Some x => Ok x
  | None => Raise IndexError
  end.

(** [s.lstrip()] and [s.strip()] *)
Fixpoint lstrip (s : str) : str :=
  match s with
  | c :: s' => if isspace c then lstrip s' else s
  | [] => []
  end.

Definition strip (s : str) : str := rev (lstrip (rev (lstrip s))).

Definition fence : str := [backtick; backtick; backtick].
Definition fence_json : str := fence ++ lit "json".

(** Lines 257-260, and again lines 297-300: the reply without its code
    fence. *)
Definition fenced_json_text (json_text : str) : result str :=
  if contains fence_json json_text then
    (let? rest := index (split_sep fence_json json_text) 1 in
     index (split_sep fence rest) 0)%res
  else if contains fence json_text then
    (let? rest := index (split_sep fence json_text) 1 in
     index (split_sep fence rest) 0)%res
  else Ok json_text.

(** ** Decoded JSON *)

(** The values [json.loads] returns; the members of an object once each,
    in the order of the text. *)
#[warnings="-register-all"] Inductive json : Type :=
| JNull
| JBool (b : bool)
| JInt (n : Z)
| JFloat (x : PyFloat.float)
| JStr (s : str)
| JList (items : list json)
| JDict (members : list (str * json)).

(** The exceptions of this part of the program: those of the imaging part,
    [KeyError], and any other class by its name. *)
Inductive exc : Type :=
| Builtin (e : exn)
| KeyError (key : str)
| Other (name : string).

Definition attempt (A : Type) : Type := (exc + A)%type.

Definition tbind {A B} (r : attempt A) (k : A -> attempt B) : attempt B :=
  match r with
  | inr a => k a
  | inl e => inl e
  end.

Declare Scope attempt_scope.
Delimit Scope attempt_scope with try.
Notation "'try!' x ':=' c 'in' k" :=
  (tbind c (fun x => k))
  (at level 10, x pattern, c at level 100, k at level 200) : attempt_scope.

Definition of_result {A} (r : result A) : attempt A :=
  match r with
  | Ok a => inr a
  | Raise e => inl (Builtin e)
  end.

(** [[f(x) for x in l]] where [f] may raise. *)
Fixpoint tmap {A B} (f : A -> attempt B) (l : list A) : attempt (list B) :=
  match l with
  | [] => inr []
  | a :: l' =>
      (try! b := f a in
       try! bs := tmap f l' in
       inr (b :: bs))%try
  end.

Fixpoint assoc (key : str) (members : list (str * json)) : option json :=
  match members with
  | [] => None
  | (k, v) :: rest => if decide (k = key) then Some v else assoc key rest
  end.

(** [v[key]] for a string [key]. *)
Definition getitem (v : json) (key : str) : attempt json :=
  match v with
  | JDict members =>
      match assoc key members with
      | Some x => inr x
      | None => inl (KeyError key)
      end
  | _ => inl (Builtin TypeError)
  end.

(** [for k in v]: the values the loop goes through. *)
Definition iterate (v : json) : attempt (list json) :=
  match v with
  | JList items => inr items
  | JDict members => inr (map (fun kv => JStr (fst kv)) members)
  | JStr s => inr (map (fun c => JStr [c]) s)
  | _ => inl (Builtin TypeError)
  end.

(** The comprehensions of lines 264-265 and 304-305: the two fields of
    every record that are put into the text shown.  Looking them up can
    raise; formatting them cannot. *)
Definition shown (v : json) (first second : str) : attempt (list (json * json)) :=
  (try! items := iterate v in
   tmap (fun k =>
           try! a := getitem k first in
           try! b := getitem k second in
           inr (a, b))
        items)%try.

(** ** The extraction functions *)

(** What the functions call: the completion service, as the text of the
    first choice of the reply to a prompt or the exception raised on the
    way to it, [json.loads] and [str.format(transcript=...)]. *)
Record Services : Type := {
  completion : str -> attempt str;
  json_loads : str -> attempt json;
  str_format : str -> str -> attempt str
}.

(** Lines 216-242. *)
Definition prompt (transcript : str) : str :=
  concat
    [[nl];
     lit "    Based on this transcript: "; [dq]; transcript; [dq]; [nl];
     lit "    "; [nl];
     lit "    Please provide a JSON response with:"; [nl];
     lit "    1. "; [dq]; lit "quotes"; [dq]; lit ": 5 most impactful quotes/sentences/questions from the transcript with importance scores 1-10"; [nl];
     lit "    - Extract actual sentences, questions, key phrases, or action points from the transcript"; [nl];
     lit "    - Choose the most memorable, important, or striking parts"; [nl];
     lit "    - You can remove audio sounds 'like', 'hmmm', 'huu', for clarity but keep the sentence close to the transcript, like a how a quote can be edited in a newspaper but still really needs to stay faithful to what the person says"; [nl];
     lit "    - Keep the quote short, but this can be a full sentence (< 30 words)"; [nl];
     lit "    - For the first quote, add a sort of title for the whole voice note"; [nl];
     lit "    2. "; [dq]; lit "emojis"; [dq]; lit ": 10 most relevant emojis with weights 1-10 (higher weight = more frequent)"; [nl];
     lit "    "; [nl];
     lit "    Format:"; [nl];
     lit "    {"; [nl];
     lit "        "; [dq]; lit "quotes"; [dq]; lit ": ["; [nl];
     lit "            {"; [dq]; lit "text"; [dq]; lit ": "; [dq]; lit "actual quote from transcript"; [dq]; lit ", "; [dq]; lit "importance"; [dq]; lit ": 9},"; [nl];
     lit "            {"; [dq]; lit "text"; [dq]; lit ": "; [dq]; lit "key question asked"; [dq]; lit ", "; [dq]; lit "importance"; [dq]; lit ": 8},"; [nl];
     lit "            ..."; [nl];
     lit "        ],"; [nl];
     lit "        "; [dq]; lit "emojis"; [dq]; lit ": ["; [nl];
     lit "            {"; [dq]; lit "emoji"; [dq]; lit ": "; [dq]; [127925%N]; [dq]; lit ", "; [dq]; lit "weight"; [dq]; lit ": 9},"; [nl];
     lit "            ..."; [nl];
     lit "        ]"; [nl];
     lit "    }"; [nl];
     lit "    "; [nl];
     lit "    Only respond with valid JSON, no other text."; [nl];
     lit "    "].

(** The data of lines 272-275 and 312-315. *)
Definition fallback_data : json :=
  JDict
    [(lit "quotes",
      JList [JDict [(lit "text", JStr (lit "voice note"));
                    (lit "importance", JInt 5)]]);
     (lit "emojis",
      JList [JDict [(lit "emoji", JStr [127908%N]);
                    (lit "weight", JInt 5)]])].

(** The body of the [try] of lines 245-267, which lines 285-307 repeat.
    The Streamlit calls only display and are left out. *)
Definition checked_reply (S : Services) (prompt : str) : attempt json :=
  (try! json_text := completion S prompt in
   try! json_text := of_result (fenced_json_text json_text) in
   try! data := json_loads S (strip json_text) in
   try! quotes := getitem data (lit "quotes") in
   try! _ := shown quotes (lit "text") (lit "importance") in
   try! emojis := getitem data (lit "emojis") in
   try! _ := shown emojis (lit "emoji") (lit "weight") in
   inr data)%try.

Definition extract_quotes_and_emojis (S : Services) (transcript : str) : json :=
  match checked_reply S (prompt transcript) with
  | inr data => data
  | inl _ => fallback_data
  end.

(** [session_quotes_data] is [st.session_state.quotes_data], when the
    session has one. *)
Definition extract_quotes_with_custom_prompt (S : Services)
  (session_quotes_data : option json) (transcript custom_prompt : str)
  : attempt json :=
  (try! formatted_prompt := str_format S custom_prompt transcript in
   inr (match checked_reply S formatted_prompt with
        | inr data => data
        | inl _ => default fallback_data session_quotes_data
        end))%try.

(** ** What is said about them *)

(** A text without a backtick. *)
Definition no_backtick (s : str) : Prop := Forall (fun c => c <> backtick) s.

Definition has_key (key : str) (v : json) : bool :=
  match v with
  | JDict members => bool_decide (is_Some (assoc key members))
  | _ => false
  end.

(** A list of records that have the two keys, or an empty object or
    string. *)
Definition records_with (first second : str) (v : json) : bool :=
  match v with
  | JList items => forallb (fun k => has_key first k && has_key second k) items
  | JDict [] => true
  | JStr [] => true
  | _ => false
  end.

(** Data with quotes and emojis of that form. *)
Definition well_keyed (data : json) : bool :=
  match data with
  | JDict members =>
      match assoc (lit "quotes") members, assoc (lit "emojis") members with
      | Some quotes, Some emojis =>
          records_with (lit "text") (lit "importance") quotes
          && records_with (lit "emoji") (lit "weight") emojis
      | _, _ => false
      end
  | _ => false
  end.

(** A service that answers every prompt with one reply and that decodes
    nothing. *)
Definition answering (reply : str) : Services :=
  {| completion := fun _ => inr reply;
     json_loads := fun _ => inl (Other "JSONDecodeError");
     str_format := fun template _ => inr template |}.

(** ** Floats that stay finite *)

(** *** Number of binary digits *)

Lemma pow2_succ (k : Z) : 0 <= k -> 2 ^ (k + 1) = 2 * 2 ^ k.
Proof. intros Hk. rewrite Z.pow_add_r, Z.pow_1_r by lia. lia. Qed.

Lemma digits2_pos_size (p : positive) : digits2_pos p = Pos.size p.
Proof. induction p as [p IH|p IH|]; simpl; congruence. Qed.

Lemma Zdigits2_nonneg (n : Z) : 0 <= Zdigits2 n.
Proof. destruct n; simpl; lia. Qed.

Lemma Zdigits2_pos_bounds (p : positive) :
  2 ^ (Zdigits2 (Zpos p) - 1) <= Zpos p < 2 ^ Zdigits2 (Zpos p).
Proof.
  simpl. rewrite digits2_pos_size.
  pose proof (Pos.size_gt p) as Hgt. pose proof (Pos.size_le p) as Hle.
  assert (Hpow : Zpos (2 ^ Pos.size p) = 2 ^ Zpos (Pos.size p)) by (rewrite Pos2Z.inj_pow; reflexivity).
  split.
  - assert (H2 : 2 ^ Zpos (Pos.size p) = 2 * 2 ^ (Zpos (Pos.size p) - 1)).
    { rewrite <- Z.pow_succ_r by lia. f_equal. lia. }
    lia.
  - lia.
Qed.

(** For a natural number, having at most [k] digits is being below [2^k]. *)
Lemma Zdigits2_le_iff (n k : Z) :
  0 <= n -> 0 <= k -> (Zdigits2 n <= k <-> n < 2 ^ k).
Proof.
  intros Hn Hk. destruct n as [|p|p]; [|clear Hn|lia].
  - simpl. split; [intros _; apply Z.pow_pos_nonneg; lia|lia].
  - pose proof (Zdigits2_pos_bounds p) as [Hlo Hhi]. split.
    + intros Hd. eapply Z.lt_le_trans; [exact Hhi|].
      apply Z.pow_le_mono_r; lia.
    + intros Hlt. destruct (Z.le_gt_cases (Zdigits2 (Zpos p)) k) as [|Hgt]; [assumption|].
      exfalso. assert (2 ^ k <= 2 ^ (Zdigits2 (Zpos p) - 1)) by (apply Z.pow_le_mono_r; lia).
      lia.
Qed.

Lemma Zdigits2_lt_pow (n : Z) : 0 <= n -> n < 2 ^ Zdigits2 n.
Proof.
  intros Hn. apply Zdigits2_le_iff; [assumption|apply Zdigits2_nonneg|lia].
Qed.

Lemma Zdigits2_mono (a b : Z) : 0 <= a <= b -> Zdigits2 a <= Zdigits2 b.
Proof.
  intros [Ha Hab]. apply Zdigits2_le_iff; [assumption|apply Zdigits2_nonneg|].
  pose proof (Zdigits2_lt_pow b). lia.
Qed.

Lemma Zdigits2_succ (a : Z) : 0 <= a -> Zdigits2 (a + 1) <= Zdigits2 a + 1.
Proof.
  intros Ha. pose proof (Zdigits2_nonneg a).
  apply Zdigits2_le_iff; [lia|lia|].
  rewrite pow2_succ by assumption. pose proof (Zdigits2_lt_pow a Ha). lia.
Qed.

Lemma Zdigits2_mul (a b : Z) :
  0 <= a -> 0 <= b -> Zdigits2 (a * b) <= Zdigits2 a + Zdigits2 b.
Proof.
  intros Ha Hb. pose proof (Zdigits2_nonneg a). pose proof (Zdigits2_nonneg b).
  apply Zdigits2_le_iff; [nia|lia|].
  rewrite Z.pow_add_r by assumption.
  pose proof (Zdigits2_lt_pow a Ha). pose proof (Zdigits2_lt_pow b Hb). nia.
Qed.

Lemma Zdigits2_add (a b k : Z) :
  0 <= a -> 0 <= b -> Zdigits2 a <= k -> Zdigits2 b <= k -> Zdigits2 (a + b) <= k + 1.
Proof.
  intros Ha Hb Hka Hkb. pose proof (Zdigits2_nonneg a).
  assert (Hk : 0 <= k) by lia.
  apply Zdigits2_le_iff; [lia|lia|].
  rewrite pow2_succ by lia.
  apply Zdigits2_le_iff in Hka; [|assumption..].
  apply Zdigits2_le_iff in Hkb; [|assumption..]. lia.
Qed.

Lemma Zdigits2_shiftl (a n : Z) :
  0 < a -> 0 <= n -> Zdigits2 (a * 2 ^ n) = Zdigits2 a + n.
Proof.
  intros Ha Hn. destruct a as [|p|p]; try lia.
  pose proof (Zdigits2_pos_bounds p) as [Hlo Hhi].
  pose proof (Zdigits2_nonneg (Zpos p)).
  assert (Hd : 1 <= Zdigits2 (Zpos p)) by (simpl; lia).
  assert (Hpos : 0 < 2 ^ n) by (apply Z.pow_pos_nonneg; lia).
  apply Z.le_antisymm.
  - apply Zdigits2_le_iff; [nia|lia|]. rewrite Z.pow_add_r by lia. nia.
  - destruct (Z.le_gt_cases (Zdigits2 (Zpos p) + n) (Zdigits2 (Zpos p * 2 ^ n))) as [|Hgt];
      [assumption|exfalso].
    assert (Hle : Zdigits2 (Zpos p * 2 ^ n) <= Zdigits2 (Zpos p) + n - 1) by lia.
    apply Zdigits2_le_iff in Hle; [|nia|lia].
    replace (Zdigits2 (Zpos p) + n - 1) with ((Zdigits2 (Zpos p) - 1) + n) in Hle by lia.
    rewrite Z.pow_add_r in Hle by lia. nia.
Qed.

Lemma Zdigits2_div_pow (a n : Z) :
  0 <= a -> 0 <= n -> Zdigits2 (a / 2 ^ n) <= Z.max 0 (Zdigits2 a - n).
Proof.
  intros Ha Hn. assert (Hpos : 0 < 2 ^ n) by (apply Z.pow_pos_nonneg; lia).
  assert (Hq : 0 <= a / 2 ^ n) by (apply Z.div_pos; lia).
  apply Zdigits2_le_iff; [assumption|lia|].
  pose proof (Zdigits2_lt_pow a Ha) as Hlt.
  apply Z.div_lt_upper_bound; [assumption|].
  rewrite <- Z.pow_add_r by lia.
  eapply Z.lt_le_trans; [exact Hlt|]. apply Z.pow_le_mono_r; lia.
Qed.

Lemma Zdigits2_div (a b : Z) :
  0 <= a -> 0 < b -> Zdigits2 (a / b) <= Z.max 0 (Zdigits2 a - Zdigits2 b + 1).
Proof.
  intros Ha Hb. assert (Hq : 0 <= a / b) by (apply Z.div_pos; lia).
  apply Zdigits2_le_iff; [assumption|lia|].
  destruct b as [|p|p]; try lia.
  pose proof (Zdigits2_pos_bounds p) as [Hlo _].
  pose proof (Zdigits2_lt_pow a Ha) as Hlt.
  assert (Hd : 1 <= Zdigits2 (Zpos p)) by (simpl; lia).
  pose proof (Zdigits2_nonneg a).
  apply Z.div_lt_upper_bound; [lia|].
  set (da := Zdigits2 a) in *. set (db := Zdigits2 (Zpos p)) in *.
  assert (Hp : 0 < 2 ^ (db - 1)) by (apply Z.pow_pos_nonneg; lia).
  assert (Hm : 0 < 2 ^ Z.max 0 (da - db + 1)) by (apply Z.pow_pos_nonneg; lia).
  assert (Hge : 2 ^ da <= 2 ^ (db - 1) * 2 ^ Z.max 0 (da - db + 1)).
  { rewrite <- Z.pow_add_r by lia. apply Z.pow_le_mono_r; lia. }
  nia.
Qed.

(** *** Rounding *)

Section FloatBounds.

Import PyFloat.

Lemma fexp_eq (x : Z) : fexp prec emax x = Z.max (x - 53) (-1074).
Proof. reflexivity. Qed.

Lemma shr_1_m (r : shr_record) : 0 <= shr_m r -> shr_m (shr_1 r) = shr_m r / 2.
Proof.
  destruct r as [m r s]. simpl. intros Hm.
  destruct m as [|[p|p|]|p]; try lia; simpl shr_m.
  - reflexivity.
  - rewrite Pos2Z.inj_xI. apply Z.div_unique with 1; lia.
  - rewrite Pos2Z.inj_xO. apply Z.div_unique with 0; lia.
  - reflexivity.
Qed.

Lemma shr_iter_m (p : positive) :
  forall r, 0 <= shr_m r ->
            shr_m (SpecFloat.iter_pos shr_1 p r) = shr_m r / 2 ^ Zpos p.
Proof.
  assert (Hpos : forall q, 0 < 2 ^ Zpos q) by (intros q; apply Z.pow_pos_nonneg; lia).
  induction p as [p IH|p IH|]; intros r Hr; cbn [SpecFloat.iter_pos].
  - assert (H1 : 0 <= shr_m (shr_1 r)) by (rewrite shr_1_m by assumption; apply Z.div_pos; lia).
    assert (H2 : 0 <= shr_m (SpecFloat.iter_pos shr_1 p (shr_1 r))).
    { rewrite IH by assumption. apply Z.div_pos; [assumption|apply Hpos]. }
    rewrite IH, IH, shr_1_m by assumption.
    pose proof (Hpos p).
    rewrite !Z.div_div by lia.
    f_equal. replace (Zpos p~1) with (Zpos p + Zpos p + 1) by lia.
    rewrite pow2_succ, Z.pow_add_r by lia. lia.
  - assert (H2 : 0 <= shr_m (SpecFloat.iter_pos shr_1 p r)).
    { rewrite IH by assumption. apply Z.div_pos; [assumption|apply Hpos]. }
    rewrite IH, IH by assumption.
    pose proof (Hpos p).
    rewrite !Z.div_div by lia.
    f_equal. replace (Zpos p~0) with (Zpos p + Zpos p) by lia.
    rewrite Z.pow_add_r by lia. lia.
  - rewrite shr_1_m by assumption. reflexivity.
Qed.

Lemma shr_m_of_loc (m : Z) (l : location) : shr_m (shr_record_of_loc m l) = m.
Proof. destruct l as [|[]]; reflexivity. Qed.

Lemma shr_fexp_spec (m e : Z) (l : location) :
  0 <= m ->
  exists r,
    shr_fexp prec emax m e l = (r, Z.max e (fexp prec emax (Zdigits2 m + e)))
    /\ shr_m r = m / 2 ^ (Z.max e (fexp prec emax (Zdigits2 m + e)) - e).
Proof.
  intros Hm. unfold shr_fexp, shr.
  set (f := fexp prec emax (Zdigits2 m + e)).
  destruct (f - e) as [|p|p] eqn:Hn.
  - exists (shr_record_of_loc m l). replace (Z.max e f) with e by lia.
    rewrite shr_m_of_loc, Z.sub_diag, Z.pow_0_r, Z.div_1_r. auto.
  - exists (SpecFloat.iter_pos shr_1 p (shr_record_of_loc m l)).
    replace (Z.max e f) with (e + Zpos p) by lia.
    rewrite shr_iter_m by (rewrite shr_m_of_loc; assumption).
    rewrite shr_m_of_loc. split; [reflexivity|]. do 2 f_equal. lia.
  - exists (shr_record_of_loc m l). replace (Z.max e f) with e by lia.
    rewrite shr_m_of_loc, Z.sub_diag, Z.pow_0_r, Z.div_1_r. auto.
Qed.

Lemma round_nearest_even_bounds (m : Z) (l : location) :
  m <= round_nearest_even m l <= m + 1.
Proof. destruct l as [|[]]; simpl; try destruct (Z.even m); lia. Qed.

(** Rounding a mantissa below [2^k] gives a finite float below [2^(k+1)]. *)
Lemma binary_round_aux_below (s : bool) (mx ex : Z) (lx : location) (k : Z) :
  0 <= mx -> Zdigits2 mx + ex <= k -> -1074 <= k <= 971 ->
  below (k + 1) (binary_round_aux prec emax s mx ex lx).
Proof.
  intros Hmx Hd Hk. unfold binary_round_aux.
  destruct (shr_fexp_spec mx ex lx Hmx) as (r1 & -> & Hm1).
  set (e1 := Z.max ex (fexp prec emax (Zdigits2 mx + ex))) in *.
  set (m2 := round_nearest_even (shr_m r1) (loc_of_shr_record r1)).
  pose proof (Zdigits2_nonneg mx) as Hdn.
  assert (He1 : ex <= e1 <= k) by (subst e1; rewrite fexp_eq; lia).
  assert (Hp1 : 0 < 2 ^ (e1 - ex)) by (apply Z.pow_pos_nonneg; lia).
  assert (Hm1n : 0 <= shr_m r1) by (rewrite Hm1; apply Z.div_pos; lia).
  assert (Hd1 : Zdigits2 (shr_m r1) + e1 <= k).
  { rewrite Hm1. pose proof (Zdigits2_div_pow mx (e1 - ex) Hmx). lia. }
  pose proof (round_nearest_even_bounds (shr_m r1) (loc_of_shr_record r1)) as Hr.
  fold m2 in Hr.
  assert (Hm2 : 0 <= m2) by lia.
  assert (Hd2 : Zdigits2 m2 + e1 <= k + 1).
  { pose proof (Zdigits2_mono m2 (shr_m r1 + 1)).
    pose proof (Zdigits2_succ (shr_m r1) Hm1n). lia. }
  destruct (shr_fexp_spec m2 e1 loc_Exact Hm2) as (r3 & -> & Hm3).
  set (e3 := Z.max e1 (fexp prec emax (Zdigits2 m2 + e1))) in *.
  pose proof (Zdigits2_nonneg m2) as Hdn2.
  assert (He3 : e1 <= e3 <= k) by (subst e3; rewrite fexp_eq; lia).
  assert (Hp3 : 0 < 2 ^ (e3 - e1)) by (apply Z.pow_pos_nonneg; lia).
  assert (Hd3 : Zdigits2 (shr_m r3) + e3 <= k + 1).
  { rewrite Hm3. pose proof (Zdigits2_div_pow m2 (e3 - e1) Hm2). lia. }
  assert (Hm3n : 0 <= shr_m r3) by (rewrite Hm3; apply Z.div_pos; lia).
  destruct (shr_m r3) as [|m3|m3]; [exact I| |lia].
  destruct (Z.leb_spec e3 (emax - prec)) as [_|Hgt].
  - exact Hd3.
  - unfold emax, prec in Hgt. lia.
Qed.

(** *** The operations *)

Lemma below_mono (k k' : Z) (x : float) : k <= k' -> below k x -> below k' x.
Proof. destruct x; simpl; intros; try assumption; lia. Qed.

Lemma Zdigits2_abs (z : Z) : Zdigits2 (Z.abs z) = Zdigits2 z.
Proof. destruct z; reflexivity. Qed.

Lemma mul_below (k1 k2 : Z) (x y : float) :
  below k1 x -> below k2 y -> -1074 <= k1 + k2 <= 971 ->
  below (k1 + k2 + 1) (mul x y).
Proof.
  intros Hx Hy Hk.
  destruct x as [sx|sx| |sx mx ex], y as [sy|sy| |sy my ey];
    unfold below in Hx, Hy; try contradiction; try exact I.
  unfold mul, SFmul. apply binary_round_aux_below; [lia| |assumption].
  rewrite Pos2Z.inj_mul.
  pose proof (Zdigits2_mul (Zpos mx) (Zpos my)). lia.
Qed.

Lemma pos_iter_xO (m d : positive) : Zpos (Pos.iter xO m d) = Zpos m * 2 ^ Zpos d.
Proof.
  induction d as [|d IH] using Pos.peano_ind.
  - simpl. lia.
  - rewrite Pos.iter_succ, Pos2Z.inj_xO, IH, Pos2Z.inj_succ.
    unfold Z.succ. rewrite pow2_succ by lia. lia.
Qed.

Lemma shl_align_spec (m : positive) (e e0 : Z) :
  Zdigits2 (Zpos (fst (shl_align m e e0))) + snd (shl_align m e e0)
  = Zdigits2 (Zpos m) + e
  /\ snd (shl_align m e e0) = Z.min e e0
  /\ Zpos (fst (shl_align m e e0)) = Zpos m * 2 ^ (e - Z.min e e0).
Proof.
  unfold shl_align. destruct (e0 - e) as [|d|d] eqn:Hd; cbn [fst snd].
  - replace (Z.min e e0) with e by lia. rewrite Z.sub_diag. simpl. lia.
  - replace (Z.min e e0) with e by lia. rewrite Z.sub_diag. simpl. lia.
  - replace (Z.min e e0) with e0 by lia. replace (e - e0) with (Zpos d) by lia.
    rewrite pos_iter_xO. rewrite Zdigits2_shiftl by lia. lia.
Qed.

Lemma binary_round_below (s : bool) (m : positive) (e k : Z) :
  Zdigits2 (Zpos m) + e <= k -> -1074 <= k <= 971 ->
  below (k + 1) (binary_round prec emax s m e).
Proof.
  intros Hd Hk. unfold binary_round.
  pose proof (shl_align_spec m e (fexp prec emax (Zpos (digits2_pos m) + e))) as (H1 & _ & _).
  destruct (shl_align m e _) as [mz ez]. cbn [fst snd] in H1.
  apply binary_round_aux_below; [lia| |assumption].
  cbn [Zdigits2] in *. lia.
Qed.

Lemma binary_normalize_below (z e k : Z) (sz : bool) :
  Zdigits2 z + e <= k -> -1074 <= k <= 971 ->
  below (k + 1) (binary_normalize prec emax z e sz).
Proof.
  intros Hd Hk. destruct z as [|p|p]; simpl binary_normalize.
  - exact I.
  - apply binary_round_below; assumption.
  - apply binary_round_below; assumption.
Qed.

(** [float(n)] succeeds for every int of at most 971 bits. *)
Lemma of_int_below (n k : Z) :
  Zdigits2 n <= k -> k <= 971 ->
  exists f, of_int n = Ok f /\ below (k + 1) f.
Proof.
  intros Hd Hk. pose proof (Zdigits2_nonneg n).
  pose proof (binary_normalize_below n 0 k false) as Hb.
  unfold of_int. destruct (binary_normalize prec emax n 0 false) as [s|s| |s m e];
    simpl in Hb.
  - eexists; split; [reflexivity|exact I].
  - exfalso. apply Hb; lia.
  - exfalso. apply Hb; lia.
  - eexists; split; [reflexivity|]. simpl. apply Hb; lia.
Qed.

Lemma aligned_sum_below (sx sy : bool) (mx my : positive) (ex ey k : Z)
  (op : Z -> Z -> Z) :
  (forall a b, Z.abs (op a b) <= Z.abs a + Z.abs b) ->
  Zdigits2 (Zpos mx) + ex <= k -> Zdigits2 (Zpos my) + ey <= k ->
  -1074 <= k -> k + 1 <= 971 ->
  below (k + 2)
    (binary_normalize prec emax
       (op (cond_Zopp sx (Zpos (fst (shl_align mx ex (Z.min ex ey)))))
           (cond_Zopp sy (Zpos (fst (shl_align my ey (Z.min ex ey))))))
       (Z.min ex ey) false).
Proof.
  intros Hop Hx Hy Hk1 Hk2.
  pose proof (shl_align_spec mx ex (Z.min ex ey)) as (Hdx & Hsx & _).
  pose proof (shl_align_spec my ey (Z.min ex ey)) as (Hdy & Hsy & _).
  set (a := Zpos (fst (shl_align mx ex (Z.min ex ey)))) in *.
  set (b := Zpos (fst (shl_align my ey (Z.min ex ey)))) in *.
  set (ez := Z.min ex ey) in *.
  replace (k + 2) with (k + 1 + 1) by lia.
  apply binary_normalize_below; [|lia].
  rewrite <- Zdigits2_abs.
  specialize (Hop (cond_Zopp sx a) (cond_Zopp sy b)).
  assert (Ha : Z.abs (cond_Zopp sx a) = a) by (destruct sx; simpl; subst a; lia).
  assert (Hb : Z.abs (cond_Zopp sy b) = b) by (destruct sy; simpl; subst b; lia).
  rewrite Ha, Hb in Hop.
  pose proof (Zdigits2_mono (Z.abs (op (cond_Zopp sx a) (cond_Zopp sy b))) (a + b)) as Hm.
  pose proof (Zdigits2_add a b (k - ez)) as Hadd.
  assert (0 <= a) by (subst a; lia). assert (0 <= b) by (subst b; lia).
  lia.
Qed.

Lemma sub_below (k : Z) (x y : float) :
  below k x -> below k y -> -1074 <= k -> k + 1 <= 971 ->
  below (k + 2) (sub x y).
Proof.
  intros Hx Hy Hk1 Hk2.
  destruct x as [sx|sx| |sx mx ex], y as [sy|sy| |sy my ey];
    unfold below in Hx, Hy; try contradiction.
  - simpl. destruct sx, sy; exact I.
  - unfold sub, SFsub, below. lia.
  - unfold sub, SFsub, below. lia.
  - unfold sub, SFsub. apply aligned_sum_below; try assumption. intros; lia.
Qed.

Lemma add_below (k : Z) (x y : float) :
  below k x -> below k y -> -1074 <= k -> k + 1 <= 971 ->
  below (k + 2) (add x y).
Proof.
  intros Hx Hy Hk1 Hk2.
  destruct x as [sx|sx| |sx mx ex], y as [sy|sy| |sy my ey];
    unfold below in Hx, Hy; try contradiction.
  - simpl. destruct sx, sy; exact I.
  - unfold add, SFadd, below. lia.
  - unfold add, SFadd, below. lia.
  - unfold add, SFadd. apply aligned_sum_below; try assumption. intros; lia.
Qed.

(** [a / b] succeeds whenever the quotient is below [2^971]. *)
Lemma truediv_below (a b k : Z) :
  b <> 0 -> Zdigits2 a - Zdigits2 b + 1 <= k -> 0 <= k <= 971 ->
  exists f, truediv a b = Ok f /\ below (k + 1) f.
Proof.
  intros Hb Hd Hk. unfold truediv.
  destruct (Z.eqb_spec b 0) as [|_]; [contradiction|].
  assert (Hgoal : below (k + 1) (SFdiv prec emax (exact_of_Z a) (exact_of_Z b))).
  { destruct a as [|pa|pa], b as [|pb|pb]; try congruence; try exact I.
    all: unfold exact_of_Z, SFdiv, SFdiv_core_binary.
    all: set (d1 := Zdigits2 (Zpos pa)) in *; set (d2 := Zdigits2 (Zpos pb)) in *.
    all: change (Zdigits2 (Zneg pa)) with d1 in *; change (Zdigits2 (Zneg pb)) with d2 in *.
    all: set (e' := Z.min (fexp prec emax (d1 + 0 - (d2 + 0))) (0 - 0)).
    all: set (m' := match 0 - 0 - e' with
                    | 0 => Zpos pa
                    | Zpos _ => Z.shiftl (Zpos pa) (0 - 0 - e')
                    | Zneg _ => 0
                    end).
    all: assert (He' : e' <= 0) by (subst e'; lia).
    all: assert (Hm' : m' = Zpos pa * 2 ^ (- e')).
    1,3,5,7: subst m'; destruct (0 - 0 - e') as [|s|s] eqn:Hs;
      [replace (- e') with 0 by lia; lia
      |rewrite Z.shiftl_mul_pow2 by lia; do 2 f_equal; lia
      |lia].
    all: assert (Hdm : Zdigits2 m' = d1 - e') by
      (rewrite Hm', Zdigits2_shiftl by lia; subst d1; lia).
    all: assert (Hq : fst (Z.div_eucl m' (Zpos pb)) = m' / Zpos pb) by reflexivity.
    all: destruct (Z.div_eucl m' (Zpos pb)) as [q r]; cbn [fst] in Hq; subst q.
    all: assert (Hm'n : 0 <= m') by (rewrite Hm'; apply Z.mul_nonneg_nonneg; [lia|apply Z.pow_nonneg; lia]).
    all: apply binary_round_aux_below; [apply Z.div_pos; lia| |lia].
    all: pose proof (Zdigits2_div m' (Zpos pb) Hm'n); fold d2 in H; lia. }
  destruct (SFdiv prec emax (exact_of_Z a) (exact_of_Z b)) as [s|s| |s m e];
    simpl in Hgoal; try contradiction.
  - eexists; split; [reflexivity|exact I].
  - eexists; split; [reflexivity|exact Hgoal].
Qed.

(** [int(x)] succeeds on every finite float. *)
Lemma to_int_below (k : Z) (x : float) :
  below k x -> 0 <= k -> exists z, to_int x = Ok z /\ Zdigits2 z <= k.
Proof.
  intros Hx Hk. destruct x as [s|s| |s m e]; unfold below in Hx; try contradiction.
  - exists 0. split; [reflexivity|simpl; lia].
  - unfold to_int. eexists. split; [reflexivity|].
    assert (H : forall v, Zdigits2 v <= k -> Zdigits2 (if s then - v else v) <= k).
    { intros v Hv. destruct s; [|assumption]. rewrite <- Zdigits2_abs, Z.abs_opp, Zdigits2_abs. assumption. }
    apply H. destruct e as [|p|p].
    + rewrite Z.shiftl_0_r. lia.
    + rewrite Z.shiftl_mul_pow2, Zdigits2_shiftl by lia. lia.
    + rewrite Z.shiftr_div_pow2 by lia.
      pose proof (Zdigits2_div_pow (Zpos m) (Zpos p)). lia.
Qed.

End FloatBounds.

(** *** The float expressions of the program *)

Lemma int_mul_below (n kn kx : Z) (x : PyFloat.float) :
  Zdigits2 n <= kn -> below kx x -> kn <= 971 -> -1074 <= kn + 1 + kx <= 971 ->
  exists f, PyFloat.int_mul n x = Ok f /\ below (kn + kx + 2) f.
Proof.
  intros Hn Hx Hk1 Hk2. unfold PyFloat.int_mul.
  destruct (of_int_below n kn Hn Hk1) as (f & -> & Hf). simpl.
  eexists. split; [reflexivity|].
  replace (kn + kx + 2) with (kn + 1 + kx + 1) by lia.
  apply mul_below; assumption.
Qed.

Lemma int_sub_below (n k : Z) (x : PyFloat.float) :
  Zdigits2 n <= k - 1 -> below k x -> -1074 <= k -> k + 1 <= 971 ->
  exists f, PyFloat.int_sub n x = Ok f /\ below (k + 2) f.
Proof.
  intros Hn Hx Hk1 Hk2. unfold PyFloat.int_sub.
  destruct (of_int_below n (k - 1) Hn ltac:(lia)) as (f & -> & Hf). simpl.
  eexists. split; [reflexivity|].
  apply sub_below; try assumption. replace k with (k - 1 + 1) by lia. assumption.
Qed.

Lemma Zdigits2_byte (c : Z) : 0 <= c < 256 -> Zdigits2 c <= 8.
Proof. intros H. apply Zdigits2_le_iff; [lia|lia|]. change (2 ^ 8) with 256. lia. Qed.

Lemma gradient_channel_ok (a b : Z) (ratio : PyFloat.float) :
  0 <= a < 256 -> 0 <= b < 256 -> below 2 ratio ->
  exists z, gradient_channel a b ratio = Ok z.
Proof.
  intros Ha Hb Hr. unfold gradient_channel.
  destruct (int_sub_below 1 2 ratio) as (u & -> & Hu); [simpl; lia|assumption|lia|lia|].
  cbn [rbind].
  destruct (int_mul_below a 8 4 u) as (p & -> & Hp);
    [apply Zdigits2_byte; assumption|assumption|lia|lia|].
  cbn [rbind].
  destruct (int_mul_below b 8 2 ratio) as (q & -> & Hq);
    [apply Zdigits2_byte; assumption|assumption|lia|lia|].
  cbn [rbind].
  destruct (to_int_below 16 (PyFloat.add p q)) as (z & Hz & _); [|lia|eauto].
  apply (add_below 14); [assumption|apply (below_mono 12); [lia|assumption]|lia|lia].
Qed.

Lemma palettes_bytes (colors : rgb * rgb) :
  In colors palettes ->
  let '((r0, g0, b0), (r1, g1, b1)) := colors in
  (0 <= r0 < 256 /\ 0 <= g0 < 256 /\ 0 <= b0 < 256)
  /\ (0 <= r1 < 256 /\ 0 <= g1 < 256 /\ 0 <= b1 < 256).
Proof.
  unfold palettes. simpl.
  intros [<-|[<-|[<-|[<-|[<-|[]]]]]]; lia.
Qed.

Lemma truediv_ratio (y size : Z) :
  0 <= y < size -> exists r, PyFloat.truediv y size = Ok r /\ below 2 r.
Proof.
  intros H. apply (truediv_below y size 1); [lia| |lia].
  pose proof (Zdigits2_mono y size). lia.
Qed.

(** Every row of the gradient gets a colour. *)
Lemma gradient_color_ok (colors : rgb * rgb) (size y : Z) :
  In colors palettes -> 0 <= y < size ->
  exists c, gradient_color colors size y = Ok c.
Proof.
  intros Hc Hy. pose proof (palettes_bytes colors Hc) as Hb.
  destruct colors as [[[r0 g0] b0] [[r1 g1] b1]].
  destruct Hb as ((? & ? & ?) & (? & ? & ?)).
  unfold gradient_color.
  destruct (truediv_ratio y size Hy) as (ratio & -> & Hr). cbn [rbind].
  destruct (gradient_channel_ok r0 r1 ratio) as (r & ->); try assumption. cbn [rbind].
  destruct (gradient_channel_ok g0 g1 ratio) as (g & ->); try assumption. cbn [rbind].
  destruct (gradient_channel_ok b0 b1 ratio) as (b & ->); try assumption. cbn [rbind].
  eauto.
Qed.

Lemma rmap_ok {A B} (f : A -> result B) (l : list A) :
  (forall a, In a l -> exists b, f a = Ok b) ->
  exists bs, rmap f l = Ok bs /\ Forall2 (fun a b => f a = Ok b) l bs.
Proof.
  induction l as [|a l IH]; intros H.
  - exists []. split; [reflexivity|constructor].
  - destruct (H a) as (b & Hb); [left; reflexivity|].
    destruct IH as (bs & Hbs & Hall); [intros; apply H; right; assumption|].
    exists (b :: bs). simpl. rewrite Hb, Hbs. split; [reflexivity|].
    constructor; assumption.
Qed.

Lemma in_range (n k : Z) : In k (range n) <-> 0 <= k < n.
Proof.
  unfold range. rewrite in_map_iff. split.
  - intros (i & <- & Hi). apply in_seq in Hi. lia.
  - intros H. exists (Z.to_nat k). split; [lia|]. apply in_seq. lia.
Qed.

Lemma length_range (n : Z) : length (range n) = Z.to_nat n.
Proof. unfold range. rewrite length_map, length_seq. reflexivity. Qed.

(** The pixel data of a gradient: one colour per row, repeated along the
    row. *)
Lemma gradient_pixels_ok (colors : rgb * rgb) (size : Z) :
  In colors palettes ->
  exists cs,
    Forall2 (fun y c => gradient_color colors size y = Ok c) (range size) cs
    /\ gradient_pixels colors size
       = Ok (concat (map (fun c => repeat c (Z.to_nat size)) cs)).
Proof.
  intros Hc. unfold gradient_pixels.
  destruct (rmap_ok (gradient_color colors size) (range size)) as (cs & Hcs & Hall).
  { intros y Hy. apply in_range in Hy. apply gradient_color_ok; assumption. }
  exists cs. split; [assumption|].
  assert (Hrows : rmap (gradient_row colors size) (range size)
                  = Ok (map (fun c => repeat c (Z.to_nat size)) cs)).
  { clear Hcs. induction Hall as [|y c ys cs Hy _ IH]; [reflexivity|].
    simpl. unfold gradient_row at 1. rewrite Hy. simpl. rewrite IH. reflexivity. }
  rewrite Hrows. reflexivity.
Qed.

(** The shading loop of the placeholder. *)
Lemma placeholder_ring_ok (size : Z) (color : rgb) (i : Z) :
  In color placeholder_colors -> 0 <= i < size / 4 ->
  exists r g b,
    placeholder_ring size color i
    = Ok (Ellipse i i (size - i - 1) (size - i - 1) (r, g, b, 180)).
Proof.
  intros Hc Hi.
  assert (Hbytes : let '(cr, cg, cb) := color in
                   0 <= cr < 256 /\ 0 <= cg < 256 /\ 0 <= cb < 256).
  { unfold placeholder_colors in Hc. simpl in Hc.
    destruct Hc as [<-|[<-|[<-|[<-|[<-|[<-|[]]]]]]]; lia. }
  destruct color as [[cr cg] cb]. destruct Hbytes as (Hr & Hg & Hb).
  unfold placeholder_ring.
  destruct (truediv_ratio i (size / 4) Hi) as (t & -> & Ht). cbn [rbind].
  assert (H03 : below (-1) PyFloat.lit_0_3) by (unfold below, PyFloat.lit_0_3; simpl; lia).
  pose proof (mul_below 2 (-1) t PyFloat.lit_0_3 Ht H03 ltac:(lia)) as Hm.
  destruct (int_sub_below 1 2 (PyFloat.mul t PyFloat.lit_0_3)) as (v & -> & Hv);
    [simpl; lia|assumption|lia|lia|].
  cbn [rbind].
  destruct (int_mul_below 255 8 4 v) as (s & -> & Hs); [simpl; lia|assumption|lia|lia|].
  cbn [rbind].
  destruct (to_int_below 14 s Hs ltac:(lia)) as (shade & -> & Hshade). cbn [rbind].
  assert (Hch : forall c, 0 <= c < 256 ->
                          exists k, (let? q := PyFloat.truediv (c * shade) 255 in
                                     let? k := PyFloat.to_int q in
                                     Ok (Z.min 255 k))%res = Ok k).
  { intros c Hc256.
    destruct (truediv_below (c * shade) 255 22) as (q & -> & Hq); [lia| |lia|].
    - rewrite <- Zdigits2_abs, Z.abs_mul.
      pose proof (Zdigits2_mul (Z.abs c) (Z.abs shade)).
      rewrite !Zdigits2_abs in *. pose proof (Zdigits2_byte c Hc256).
      change (Zdigits2 255) with 8. lia.
    - cbn [rbind]. destruct (to_int_below 23 q Hq ltac:(lia)) as (k & -> & _).
      cbn [rbind]. eauto. }
  destruct (Hch cr Hr) as (r & ->). cbn [rbind].
  destruct (Hch cg Hg) as (g & ->). cbn [rbind].
  destruct (Hch cb Hb) as (b & ->). cbn [rbind].
  eauto.
Qed.

Lemma alpha_table_ok : exists table, alpha_table = Ok table /\ length table = 256%nat.
Proof. eexists. split; [vm_compute; reflexivity|reflexivity]. Qed.

(** The font size of a quote is computed without error for every
    importance below [2^800] in magnitude and every finite multiplier below
    [2^60] in magnitude, on canvases of less than [2^60] pixels a side. *)
Lemma quote_font_size_ok (size : Z) (q : quote) (m : PyFloat.float) :
  Zdigits2 size <= 60 -> Zdigits2 (importance q) <= 800 -> below 60 m ->
  exists fs, quote_font_size size q m = Ok fs.
Proof.
  intros Hsize Hi Hm. unfold quote_font_size.
  assert (Hs4 : Zdigits2 (size / 4) <= 60).
  { rewrite <- Zdigits2_abs. rewrite <- Zdigits2_abs in Hsize.
    pose proof (Zdigits2_mono (Z.abs (size / 4)) (Z.abs size)).
    assert (Z.abs (size / 4) <= Z.abs size); [|lia].
    pose proof (Z.div_mod size 4 ltac:(lia)). pose proof (Z.mod_pos_bound size 4 ltac:(lia)). lia. }
  assert (Hs2 : Zdigits2 (size / 2) <= 60).
  { rewrite <- Zdigits2_abs. rewrite <- Zdigits2_abs in Hsize.
    pose proof (Zdigits2_mono (Z.abs (size / 2)) (Z.abs size)).
    assert (Z.abs (size / 2) <= Z.abs size); [|lia].
    pose proof (Z.div_mod size 2 ltac:(lia)). pose proof (Z.mod_pos_bound size 2 ltac:(lia)). lia. }
  destruct (truediv_below (importance q) 10 800) as (tenth & -> & Ht); [lia| |lia|].
  { change (Zdigits2 10) with 4. lia. }
  cbn [rbind].
  destruct (int_mul_below (size / 4) 60 801 tenth) as (scaled & -> & Hsc);
    [assumption|assumption|lia|lia|].
  cbn [rbind].
  pose proof (mul_below _ _ scaled m Hsc Hm ltac:(lia)) as Hfs.
  destruct (to_int_below _ _ Hfs ltac:(lia)) as (fs & -> & _). cbn [rbind].
  destruct (int_mul_below 150 8 60 m) as (low & -> & Hlow); [simpl; lia|assumption|lia|lia|].
  cbn [rbind].
  destruct (to_int_below _ _ Hlow ltac:(lia)) as (lo & -> & _). cbn [rbind].
  destruct (int_mul_below (size / 2) 60 60 m) as (high & -> & Hhigh);
    [assumption|assumption|lia|lia|].
  cbn [rbind].
  destruct (to_int_below _ _ Hhigh ltac:(lia)) as (hi & -> & _). cbn [rbind].
  eauto.
Qed.

(** Beyond the range of doubles the division [importance / 10] itself
    raises, as it does in Python. *)
Lemma huge_importance_raises :
  quote_font_size 1024 {| text := []; importance := 2 ^ 1100 |} PyFloat.one
  = Raise OverflowError.
Proof. vm_compute. reflexivity. Qed.

(** ** Words and lines *)

Lemma isspace_SPACE : isspace SPACE = true.
Proof. reflexivity. Qed.

Lemma split_from_word (w : str) :
  Forall (fun c => isspace c = false) w ->
  forall cur s, split_from cur (w ++ s) = split_from (rev w ++ cur) s.
Proof.
  induction 1 as [|c w Hc Hw IH]; intros cur s; simpl.
  - reflexivity.
  - rewrite Hc, IH, <- app_assoc. reflexivity.
Qed.

Lemma split_join (ws : list str) :
  Forall word_ok ws -> split (join ws) = ws.
Proof.
  unfold split.
  induction 1 as [|w ws [Hne Hw] Hws IH]; [reflexivity|].
  assert (Hrev : rev w <> []) by (destruct w; [congruence|]; simpl; destruct (rev w); discriminate).
  destruct ws as [|w' ws].
  - simpl. rewrite <- (app_nil_r w) at 1.
    rewrite split_from_word by assumption. simpl. rewrite app_nil_r.
    destruct (rev w) eqn:Er; [congruence|]. rewrite <- Er, rev_involutive. reflexivity.
  - change (join (w :: w' :: ws)) with (w ++ SPACE :: join (w' :: ws)).
    rewrite split_from_word by assumption. rewrite app_nil_r.
    cbn [split_from]. rewrite isspace_SPACE.
    destruct (rev w) eqn:Er; [congruence|]. rewrite <- Er, rev_involutive.
    rewrite IH. reflexivity.
Qed.

Lemma split_from_words (s : str) :
  forall cur, Forall (fun c => isspace c = false) cur ->
              Forall word_ok (split_from cur s).
Proof.
  assert (Hw : forall c cur, Forall (fun c => isspace c = false) (c :: cur) ->
                             word_ok (rev (c :: cur))).
  { intros c cur H. split.
    - simpl. destruct (rev cur); discriminate.
    - apply Forall_rev. exact H. }
  induction s as [|c s IH]; intros cur Hcur; simpl.
  - destruct cur; [constructor|]. constructor; [auto|constructor].
  - destruct (isspace c) eqn:Ec.
    + destruct cur; [apply IH; constructor|].
      constructor; [auto|apply IH; constructor].
    + apply IH. constructor; assumption.
Qed.

Lemma split_words (s : str) : Forall word_ok (split s).
Proof. apply split_from_words. constructor. Qed.

Lemma join_app (a b : list str) :
  a <> [] -> b <> [] -> join (a ++ b) = join a ++ SPACE :: join b.
Proof.
  intros Ha Hb. induction a as [|w a IH]; [congruence|].
  destruct a as [|w' a].
  - simpl. destruct b; [congruence|reflexivity].
  - change (join ((w :: w' :: a) ++ b)) with (w ++ SPACE :: join ((w' :: a) ++ b)).
    rewrite IH by discriminate.
    change (join (w :: w' :: a)) with (w ++ SPACE :: join (w' :: a)).
    rewrite <- app_assoc. reflexivity.
Qed.

Lemma concat_nonempty {A} (G : list (list A)) :
  G <> [] -> Forall (fun g => g <> []) G -> concat G <> [].
Proof.
  intros HG H. destruct H as [|g G Hg _]; [congruence|].
  simpl. destruct g; [congruence|discriminate].
Qed.

Lemma join_groups (G : list (list str)) :
  Forall (fun g => g <> []) G -> join (map join G) = join (concat G).
Proof.
  induction 1 as [|g G Hg HG IH]; [reflexivity|].
  destruct G as [|g' G].
  - simpl. rewrite app_nil_r. reflexivity.
  - change (join (map join (g :: g' :: G)))
      with (join g ++ SPACE :: join (map join (g' :: G))).
    rewrite IH.
    change (concat (g :: g' :: G)) with (g ++ concat (g' :: G)).
    rewrite join_app; [reflexivity|assumption|].
    apply (concat_nonempty (g' :: G)); [discriminate|assumption].
Qed.

Lemma split_groups (G : list (list str)) :
  Forall word_ok (concat G) -> concat (map split (map join G)) = concat G.
Proof.
  induction G as [|g G IH]; intros H; [reflexivity|].
  simpl in *. apply Forall_app in H as [Hg HG].
  rewrite split_join, IH by assumption. reflexivity.
Qed.

Section Wrap.

Context (E : Env) (f : font) (max_width : Z).

Lemma wrap_loop_groups (words : list str) :
  forall lines cur,
    fits E f max_width cur ->
    exists G cur',
      wrap_loop E f max_width words lines cur = (lines ++ map join G, cur')
      /\ Forall (fun g => g <> []) G
      /\ Forall (fits E f max_width) G
      /\ fits E f max_width cur'
      /\ concat G ++ cur' = cur ++ words.
Proof.
  induction words as [|word words IH]; intros lines cur Hcur.
  - exists [], cur. simpl. rewrite !app_nil_r. auto.
  - simpl. destruct (Z.leb_spec (text_width E f (join (cur ++ [word]))) max_width) as [Hle|Hgt].
    + destruct (IH lines (cur ++ [word])) as (G & cur' & Heq & Hne & Hfit & Hcur' & Hcat).
      { right. assumption. }
      exists G, cur'. rewrite <- app_assoc in Hcat. auto.
    + destruct cur as [|c cur].
      * destruct (IH (lines ++ [word]) []) as (G & cur' & Heq & Hne & Hfit & Hcur' & Hcat).
        { left. simpl. lia. }
        exists ([word] :: G), cur'. rewrite Heq, <- app_assoc.
        repeat split; [constructor; [discriminate|assumption]
                      |constructor; [left; simpl; lia|assumption]
                      |assumption|].
        simpl in *. rewrite Hcat. reflexivity.
      * destruct (IH (lines ++ [join (c :: cur)]) [word])
          as (G & cur' & Heq & Hne & Hfit & Hcur' & Hcat).
        { left. simpl. lia. }
        exists ((c :: cur) :: G), cur'. rewrite Heq, <- app_assoc.
        repeat split; [constructor; [discriminate|assumption]
                      |constructor; assumption|assumption|].
        simpl in *. rewrite <- app_assoc, Hcat. reflexivity.
Qed.

Lemma wrap_text_groups (txt : str) :
  exists G,
    wrap_text E txt f max_width = map join G
    /\ Forall (fun g => g <> []) G
    /\ Forall (fits E f max_width) G
    /\ concat G = split txt.
Proof.
  unfold wrap_text.
  destruct (wrap_loop_groups (split txt) [] []) as (G & cur' & Heq & Hne & Hfit & Hcur' & Hcat).
  { left. simpl. lia. }
  rewrite Heq. simpl in *. destruct cur' as [|c cur'].
  - exists G. rewrite app_nil_r in Hcat. auto.
  - exists (G ++ [c :: cur']). rewrite map_app. simpl.
    repeat split.
    + apply Forall_app. split; [assumption|]. constructor; [discriminate|constructor].
    + apply Forall_app. split; [assumption|]. constructor; [assumption|constructor].
    + rewrite concat_app. simpl. rewrite app_nil_r. assumption.
Qed.

End Wrap.

(** C4: the lines returned by [wrap_text], joined with single spaces, give
    back the words of the text in their order, line by line and as a whole,
    and every line is within [max_width] unless it is one single word of the
    text that is itself wider than [max_width]. *)
Theorem wrap_text_roundtrip (E : Env) (txt : str) (f : font) (max_width : Z) :
  let lines := wrap_text E txt f max_width in
  join lines = join (split txt)
  /\ split (join lines) = split txt
  /\ concat (map split lines) = split txt
  /\ Forall (fun line =>
               text_width E f line <= max_width
               \/ (In line (split txt) /\ split line = [line]
                   /\ max_width < text_width E f line))
            lines.
Proof.
  intros lines. subst lines.
  destruct (wrap_text_groups E f max_width txt) as (G & -> & Hne & Hfit & Hcat).
unfold fits in Hfit.
  pose proof (split_words txt) as Hw. rewrite <- Hcat in Hw.
  assert (Hj : join (map join G) = join (concat G)) by (apply join_groups; assumption).
  repeat split.
  - rewrite Hj, Hcat. reflexivity.
  - rewrite Hj. rewrite split_join by assumption. assumption.
  - rewrite split_groups by assumption. assumption.
  - rewrite Forall_map. rewrite Forall_forall. intros g Hg.
    rewrite Forall_forall in Hne, Hfit.
    destruct (Hfit g Hg) as [Hone|Hle]; [|left; assumption].
    destruct g as [|w [|w' g]]; [exfalso; apply (Hne [] Hg); reflexivity| |simpl in Hone; lia].
    simpl. destruct (Z.le_gt_cases (text_width E f w) max_width) as [Hle|Hgt]; [left; assumption|].
    right. assert (Hin : In w (concat G)).
    { apply in_concat. exists [w]. split; [apply list_elem_of_In; assumption|left; reflexivity]. }
    repeat split; [rewrite <- Hcat; assumption| |lia].
    rewrite Forall_forall in Hw. change w with (join [w]) at 1.
    apply split_join. constructor; [apply Hw; apply list_elem_of_In; assumption|constructor].
Qed.

(** ** The state *)

Lemma set_images_same (w : world) : set_images (w_images w) w = w.
Proof. destruct w; reflexivity. Qed.

Lemma set_images_twice (i j : list image) (w : world) :
  set_images i (set_images j w) = set_images i w.
Proof. reflexivity. Qed.

Lemma im_ops_apply_op (o : op) (im : image) :
  im_ops (apply_op o im) = im_ops im ++ [o].
Proof. destruct im, o; reflexivity. Qed.

Lemma im_ops_add_ops (ops : list op) :
  forall im, im_ops (add_ops ops im) = im_ops im ++ ops.
Proof.
  induction ops as [|o ops IH]; intros im; simpl.
  - rewrite app_nil_r. reflexivity.
  - unfold add_ops in IH. rewrite IH, im_ops_apply_op, <- app_assoc. reflexivity.
Qed.

Lemma add_ops_app (a b : list op) (im : image) :
  add_ops (a ++ b) im = add_ops b (add_ops a im).
Proof. unfold add_ops. apply fold_left_app. Qed.

Lemma alter_add_ops_nil (img : ref) (l : list image) :
  alter (add_ops []) img l = l.
Proof. apply list_alter_id. reflexivity. Qed.

Lemma alter_add_ops_app (a b : list op) (img : ref) (l : list image) :
  alter (add_ops b) img (alter (add_ops a) img l) = alter (add_ops (a ++ b)) img l.
Proof.
  rewrite list_alter_alter_eq. apply list_alter_ext; [|reflexivity].
  intros im _. simpl. rewrite add_ops_app. reflexivity.
Qed.

(** A loop of drawing operations on one image object. *)
Lemma for_each_draw {A} (img : ref) (g : A -> op) (l : list A) :
  forall w,
    for_each l (fun a => draw img (g a)) w
    = (Ok tt, set_images (alter (add_ops (map g l)) img (w_images w)) w).
Proof.
  induction l as [|a l IH]; intros w.
  - simpl. unfold ret. rewrite alter_add_ops_nil, set_images_same. reflexivity.
  - simpl. unfold bind, draw at 1. rewrite IH. simpl.
    rewrite (alter_add_ops_app [g a] (map g l)). reflexivity.
Qed.

Lemma fold_left_add_from (l : list Z) (a : Z) :
  fold_left Z.add l a = a + fold_left Z.add l 0.
Proof.
  revert a. induction l as [|x l IH]; intros a; cbn [fold_left]; [lia|].
  rewrite (IH (a + x)), (IH (0 + x)). lia.
Qed.

Lemma map_snd_combine_map {A B} (g : A -> B) (l : list A) :
  map snd (combine l (map g l)) = map g l.
Proof. induction l as [|a l IH]; simpl; [reflexivity|f_equal; exact IH]. Qed.

Lemma map_fst_combine_map {A B} (g : A -> B) (l : list A) :
  map fst (combine l (map g l)) = l.
Proof. induction l as [|a l IH]; simpl; [reflexivity|f_equal; exact IH]. Qed.

Section TextOverlay.

Context (E : Env) (img : ref) (size : Z) (m : PyFloat.float).

Lemma draw_line_spec (f : font) (sp y : Z) (line : str) (h : Z) (w : world) :
  draw_line E img size f sp y (line, h) w
  = (Ok (y + h + sp),
     set_images (alter (add_ops (line_ops E size f y line)) img (w_images w)) w).
Proof.
  unfold draw_line, bind. rewrite for_each_draw. unfold draw, ret, line_ops.
  cbn [w_images set_images].
  set (x := (size - text_width E f line) / 2).
  rewrite <- (alter_add_ops_app _ [Text x y line f Black]). reflexivity.
Qed.

Lemma for_fold_draw_line (f : font) (sp : Z) (ls : list (str * Z)) :
  forall y w,
    for_fold ls (draw_line E img size f sp) y w
    = (Ok (y + fold_left Z.add (map snd ls) 0 + sp * Z.of_nat (length ls)),
       set_images (alter (add_ops (block_ops E size f sp y ls)) img (w_images w)) w).
Proof.
  induction ls as [|[line h] ls IH]; intros y w.
  - simpl. unfold ret. rewrite alter_add_ops_nil, set_images_same.
    f_equal. f_equal. lia.
  - cbn [for_fold]. unfold bind. rewrite draw_line_spec, IH.
    cbn [w_images set_images block_ops map snd fold_left length].
    rewrite alter_add_ops_app, (fold_left_add_from _ (0 + h)).
    f_equal. f_equal. lia.
Qed.

Lemma quote_block_inv (q : quote) (b : block) :
  quote_block E size m q = Ok b ->
  quote_font_size size q m = Ok (font_size b)
  /\ block_font b = load_font E (font_size b)
  /\ lines b = wrap_text E (text q) (block_font b) (size - 120)
  /\ line_heights b = map (text_height E (block_font b)) (lines b)
  /\ line_spacing b = font_size b / 4
  /\ total_height b = block_height (line_heights b) (line_spacing b).
Proof.
  unfold quote_block. destruct (quote_font_size size q m) as [fs|e]; simpl; [|discriminate].
  intros [= <-]. simpl. auto 10.
Qed.

Lemma overlay_quote_raise (y : Z) (q : quote) (w : world) (e : exn) :
  quote_block E size m q = Raise e ->
  overlay_quote E img size m y q w = (Raise e, w).
Proof. intros H. unfold overlay_quote, bind, lift. rewrite H. reflexivity. Qed.

Lemma overlay_quote_skip (y : Z) (q : quote) (w : world) (b : block) :
  quote_block E size m q = Ok b ->
  size - 100 <= y + total_height b ->
  overlay_quote E img size m y q w = (Ok y, w).
Proof.
  intros H Hge. unfold overlay_quote, bind, lift. rewrite H.
  destruct (Z.ltb_spec (y + total_height b) (size - 100)); [lia|reflexivity].
Qed.

Lemma overlay_quote_draw (y : Z) (q : quote) (w : world) (b : block) :
  quote_block E size m q = Ok b ->
  y + total_height b < size - 100 ->
  overlay_quote E img size m y q w
  = (Ok (y + total_height b + line_spacing b + 40),
     set_images (alter (add_ops (draws_of E size y b)) img (w_images w)) w).
Proof.
  intros H Hlt. unfold overlay_quote, bind, lift. rewrite H.
  destruct (Z.ltb_spec (y + total_height b) (size - 100)); [|lia].
  rewrite for_fold_draw_line. unfold ret, draws_of.
  destruct (quote_block_inv q b H) as (_ & _ & _ & Hh & _ & Ht).
  rewrite Ht. unfold block_height.
  assert (Hlen : length (combine (lines b) (line_heights b)) = length (line_heights b)).
  { rewrite Hh, length_combine, length_map. lia. }
  assert (Hsnd : map snd (combine (lines b) (line_heights b)) = line_heights b).
  { rewrite Hh. apply map_snd_combine_map. }
  rewrite Hlen, Hsnd. f_equal. f_equal. lia.
Qed.

End TextOverlay.

Lemma black_lines_app (a b : list op) :
  black_lines (a ++ b) = black_lines a ++ black_lines b.
Proof. unfold black_lines. apply flat_map_app. Qed.

Lemma black_lines_line_ops (E : Env) (size : Z) (f : font) (y : Z) (line : str) :
  black_lines (line_ops E size f y line) = [line].
Proof.
  unfold line_ops. rewrite black_lines_app. unfold black_lines. simpl.
  set (x := (size - text_width E f line) / 2).
  induction outline_offsets as [|d l IH]; [reflexivity|exact IH].
Qed.

Lemma black_lines_block_ops (E : Env) (size : Z) (f : font) (sp : Z)
  (ls : list (str * Z)) :
  forall y, black_lines (block_ops E size f sp y ls) = map fst ls.
Proof.
  induction ls as [|[line h] ls IH]; intros y; [reflexivity|].
  cbn [block_ops map fst]. rewrite black_lines_app, black_lines_line_ops, IH.
  reflexivity.
Qed.

Lemma black_texts_add_ops (ops : list op) (im : image) :
  black_texts (add_ops ops im) = black_texts im ++ black_lines ops.
Proof. unfold black_texts. rewrite im_ops_add_ops, black_lines_app. reflexivity. Qed.

Lemma black_lines_draws_of (E : Env) (size : Z) (m : PyFloat.float) (y : Z)
  (q : quote) (b : block) :
  quote_block E size m q = Ok b ->
  black_lines (draws_of E size y b) = lines b.
Proof.
  intros Hb. unfold draws_of. rewrite black_lines_block_ops.
  destruct (quote_block_inv E size m q b Hb) as (_ & _ & _ & Hh & _).
  rewrite Hh. apply map_fst_combine_map.
Qed.

(** ** The in-place sort *)

Lemma sort_insert_perm (q : quote) (l : list quote) :
  Permutation (sort_insert q l) (q :: l).
Proof.
  induction l as [|h t IH]; simpl; [reflexivity|].
  destruct (importance h <=? importance q); [reflexivity|].
  rewrite IH. apply perm_swap.
Qed.

Lemma sorted_by_importance_perm (l : list quote) :
  Permutation (sorted_by_importance l) l.
Proof.
  induction l as [|q l IH]; simpl; [reflexivity|].
  rewrite sort_insert_perm, IH. reflexivity.
Qed.

Lemma sort_insert_descending (q : quote) (l : list quote) :
  descending l -> descending (sort_insert q l).
Proof.
  unfold descending. induction 1 as [|h t Ht IH Hhd]; simpl.
  - repeat constructor.
  - destruct (Z.leb_spec (importance h) (importance q)) as [Hle|Hgt].
    + constructor; [constructor; assumption|constructor; assumption].
    + constructor; [assumption|].
      destruct t as [|h' t]; simpl.
      * constructor. lia.
      * destruct (importance h' <=? importance q); constructor; [lia|].
        inversion Hhd; assumption.
Qed.

Lemma sorted_by_importance_descending (l : list quote) :
  descending (sorted_by_importance l).
Proof.
  induction l as [|q l IH]; simpl; [constructor|].
  apply sort_insert_descending, IH.
Qed.

(** Stability: quotes of equal importance keep their order. *)
Lemma sort_insert_stable (k : Z) (q : quote) (l : list quote) :
  List.filter (fun x => importance x =? k) (sort_insert q l)
  = List.filter (fun x => importance x =? k) (q :: l).
Proof.
  induction l as [|h t IH]; [reflexivity|].
  cbn [sort_insert]. destruct (Z.leb_spec (importance h) (importance q)) as [Hle|Hgt];
    [reflexivity|].
  cbn [List.filter] in *. rewrite IH.
  destruct (Z.eqb_spec (importance h) k), (Z.eqb_spec (importance q) k);
    try reflexivity; lia.
Qed.

Lemma sorted_by_importance_stable (k : Z) (l : list quote) :
  List.filter (fun x => importance x =? k) (sorted_by_importance l)
  = List.filter (fun x => importance x =? k) l.
Proof.
  induction l as [|q l IH]; [reflexivity|].
  cbn [sorted_by_importance fold_right]. rewrite sort_insert_stable.
  cbn [List.filter]. fold (sorted_by_importance l). rewrite IH. reflexivity.
Qed.

Lemma sorted_by_importance_fixed (l : list quote) :
  descending l -> sorted_by_importance l = l.
Proof.
  unfold descending. induction 1 as [|q l Hl IH Hhd]; [reflexivity|].
  cbn [sorted_by_importance fold_right]. fold (sorted_by_importance l). rewrite IH.
  destruct Hhd as [|h t Hle]; [reflexivity|].
  simpl. destruct (Z.leb_spec (importance h) (importance q)); [reflexivity|lia].
Qed.

(** ** What the loop over the quotes leaves alone *)

Lemma for_fold_lists {A S} (body : S -> A -> M S) :
  (forall s a w, w_lists (snd (body s a w)) = w_lists w) ->
  forall l s w, w_lists (snd (for_fold l body s w)) = w_lists w.
Proof.
  intros Hb. induction l as [|a l IH]; intros s w; [reflexivity|].
  simpl. unfold bind. specialize (Hb s a w).
  destruct (body s a w) as [[s'|e] w']; simpl in *; [rewrite IH|]; assumption.
Qed.

Lemma overlay_quote_lists (E : Env) (img : ref) (size : Z) (m : PyFloat.float)
  (y : Z) (q : quote) (w : world) :
  w_lists (snd (overlay_quote E img size m y q w)) = w_lists w.
Proof.
  destruct (quote_block E size m q) as [b|e] eqn:Hb.
  - destruct (Z.lt_ge_cases (y + total_height b) (size - 100)).
    + rewrite (overlay_quote_draw E img size m y q w b) by assumption. reflexivity.
    + rewrite (overlay_quote_skip E img size m y q w b) by assumption. reflexivity.
  - rewrite (overlay_quote_raise E img size m y q w e) by assumption. reflexivity.
Qed.

Lemma add_text_overlay_lists (E : Env) (img : ref) (size : Z) (quotes : ref)
  (m : PyFloat.float) (w : world) :
  w_lists (snd (add_text_overlay E img size quotes m w))
  = <[quotes := sorted_by_importance (default [] (w_lists w !! quotes))]> (w_lists w).
Proof.
  unfold add_text_overlay, bind, list_sort.
  set (l := sorted_by_importance _). set (w1 := set_lists _ w).
  pose proof (for_fold_lists (overlay_quote E img size m)
                (overlay_quote_lists E img size m) l (size / 12) w1) as H.
  destruct (for_fold l _ _ w1) as [[y|e] w2]; simpl in *; exact H.
Qed.

(** The quotes drawn by the loop are some of the quotes, in their order. *)
Lemma for_fold_overlay_sublist (E : Env) (img : ref) (size : Z)
  (m : PyFloat.float) (l : list quote) :
  forall y w,
    exists drawn ops,
      sublist drawn l
      /\ w_images (snd (for_fold l (overlay_quote E img size m) y w))
         = alter (add_ops ops) img (w_images w)
      /\ black_lines ops = concat (map (quote_lines E size m) drawn).
Proof.
  induction l as [|q l IH]; intros y w.
  - exists [], []. simpl. rewrite alter_add_ops_nil. repeat split. constructor.
  - cbn [for_fold]. unfold bind.
    destruct (quote_block E size m q) as [b|e] eqn:Hb.
    + destruct (Z.lt_ge_cases (y + total_height b) (size - 100)) as [Hlt|Hge].
      * rewrite (overlay_quote_draw E img size m y q w b Hb Hlt).
        destruct (IH (y + total_height b + line_spacing b + 40)
                    (set_images (alter (add_ops (draws_of E size y b)) img (w_images w)) w))
          as (drawn & ops & Hsub & Himg & Hblack).
        exists (q :: drawn), (draws_of E size y b ++ ops).
        split; [constructor; assumption|]. split.
        -- rewrite Himg. cbn [w_images set_images]. apply alter_add_ops_app.
        -- rewrite black_lines_app, Hblack, (black_lines_draws_of E size m y q b Hb).
           cbn [map concat]. unfold quote_lines at 2. rewrite Hb. reflexivity.
      * rewrite (overlay_quote_skip E img size m y q w b Hb Hge).
        destruct (IH y w) as (drawn & ops & Hsub & Himg & Hblack).
        exists drawn, ops. split; [constructor; assumption|]. auto.
    + rewrite (overlay_quote_raise E img size m y q w e Hb).
      exists [], []. simpl. rewrite alter_add_ops_nil.
      split; [apply sublist_nil_l|]. auto.
Qed.

Lemma add_text_overlay_draws_sublist (E : Env) (img : ref) (size : Z)
  (quotes : ref) (m : PyFloat.float) (w : world) :
  exists drawn ops,
    sublist drawn (sorted_by_importance (default [] (w_lists w !! quotes)))
    /\ w_images (snd (add_text_overlay E img size quotes m w))
       = alter (add_ops ops) img (w_images w)
    /\ black_lines ops = concat (map (quote_lines E size m) drawn).
Proof.
  unfold add_text_overlay, bind at 1, list_sort.
  set (l := sorted_by_importance _). set (w1 := set_lists _ w).
  destruct (for_fold_overlay_sublist E img size m l (size / 12) w1)
    as (drawn & ops & Hsub & Himg & Hblack).
  exists drawn, ops. split; [assumption|]. split; [|assumption].
  unfold bind. destruct (for_fold l _ _ w1) as [[y|e] w2]; exact Himg.
Qed.

(** C9 (amended): [add_text_overlay] replaces the content of the caller's
    list by its stable sort, greatest importance first.  The sorted list
    has the same quotes, each unmodified, and it is the list itself exactly
    when the list was already in that order; no other list changes.  This
    holds whether or not the call raises. *)
Theorem add_text_overlay_sorts_in_place (E : Env) (img : ref) (size : Z)
  (quotes : ref) (m : PyFloat.float) (w : world) (l : list quote) :
  w_lists w !! quotes = Some l ->
  let w' := snd (add_text_overlay E img size quotes m w) in
  w_lists w' !! quotes = Some (sorted_by_importance l)
  /\ Permutation (sorted_by_importance l) l
  /\ descending (sorted_by_importance l)
  /\ (forall k, List.filter (fun q => importance q =? k) (sorted_by_importance l)
                = List.filter (fun q => importance q =? k) l)
  /\ (descending l -> w_lists w' !! quotes = Some l)
  /\ (forall r, r <> quotes -> w_lists w' !! r = w_lists w !! r).
Proof.
  intros Hl w'. subst w'. rewrite add_text_overlay_lists, Hl. simpl.
  assert (Hlt : (quotes < length (w_lists w))%nat) by (eapply lookup_lt_Some; eassumption).
  repeat split.
  - apply list_lookup_insert_eq. assumption.
  - apply sorted_by_importance_perm.
  - apply sorted_by_importance_descending.
  - intros k. apply sorted_by_importance_stable.
  - intros Hd. rewrite sorted_by_importance_fixed by assumption.
    apply list_lookup_insert_eq. assumption.
  - intros r Hr. apply list_lookup_insert_ne. congruence.
Qed.

Lemma add_text_overlay_sorts_in_place_witness :
  w_lists (Scenario.start [Scenario.short_quote; Scenario.long_quote]) !! Scenario.quotes0
  = Some [Scenario.short_quote; Scenario.long_quote]
  /\ w_lists (snd (add_text_overlay Scenario.env Scenario.img0 1024 Scenario.quotes0 PyFloat.one
                     (Scenario.start [Scenario.short_quote; Scenario.long_quote])))
       !! Scenario.quotes0
     = Some (sorted_by_importance [Scenario.short_quote; Scenario.long_quote]).
Proof.
  split; [reflexivity|].
  apply (add_text_overlay_sorts_in_place Scenario.env Scenario.img0 1024 Scenario.quotes0 PyFloat.one
           (Scenario.start [Scenario.short_quote; Scenario.long_quote])
           [Scenario.short_quote; Scenario.long_quote]).
  reflexivity.
Defined.

(** C9 as stated fails: a list given as (importance 1, importance 10) is
    (importance 10, importance 1) after the call. *)
Lemma quotes_list_is_reordered :
  ~ quotes_unchanged Scenario.env Scenario.img0 1024 Scenario.quotes0 PyFloat.one
      (Scenario.start [Scenario.short_quote; Scenario.long_quote]).
Proof. unfold quotes_unchanged. vm_compute. discriminate. Qed.

(** C1 (amended): a quote is drawn whole or not at all.  It is drawn exactly
    when the cursor plus the height of its block is strictly below
    [size - 100]; then every one of its lines is drawn, outline first, and
    nothing else.  Otherwise the state and the cursor stay as they are and
    the loop goes on with the next quote, as if the skipped quote were not
    in the list.  Altogether the quotes drawn by [add_text_overlay] are a
    sublist of the sorted quotes, every one with all its lines. *)
Theorem overlay_quote_all_or_nothing (E : Env) (img : ref) (size : Z)
  (m : PyFloat.float) (y : Z) (q : quote) (w : world) (b : block) :
  quote_block E size m q = Ok b ->
  (y + total_height b < size - 100 ->
   snd (overlay_quote E img size m y q w)
   = set_images (alter (add_ops (draws_of E size y b)) img (w_images w)) w
   /\ forall im, black_texts (add_ops (draws_of E size y b) im)
                 = black_texts im ++ lines b)
  /\ (size - 100 <= y + total_height b ->
      overlay_quote E img size m y q w = (Ok y, w)
      /\ forall rest,
          for_fold (q :: rest) (overlay_quote E img size m) y w
          = for_fold rest (overlay_quote E img size m) y w)
  /\ (forall quotes,
        exists drawn ops,
          sublist drawn (sorted_by_importance (default [] (w_lists w !! quotes)))
          /\ w_images (snd (add_text_overlay E img size quotes m w))
             = alter (add_ops ops) img (w_images w)
          /\ black_lines ops = concat (map (quote_lines E size m) drawn)).
Proof.
  intros Hb. split; [|split; [|intros quotes; apply add_text_overlay_draws_sublist]].
  - intros Hlt. rewrite (overlay_quote_draw E img size m y q w b) by assumption.
    split; [reflexivity|]. intros im.
    rewrite black_texts_add_ops, (black_lines_draws_of E size m y q b Hb).
    reflexivity.
  - intros Hge. pose proof (overlay_quote_skip E img size m y q w b Hb Hge) as Hs.
    split; [assumption|]. intros rest. cbn [for_fold]. unfold bind. rewrite Hs.
    reflexivity.
Qed.

Lemma overlay_quote_all_or_nothing_witness :
  exists b,
    quote_block Scenario.env 1024 PyFloat.one Scenario.long_quote = Ok b
    /\ (1024 - 100 <= 85 + total_height b ->
        overlay_quote Scenario.env Scenario.img0 1024 PyFloat.one 85 Scenario.long_quote
          (Scenario.start [])
        = (Ok 85, Scenario.start [])
        /\ forall rest,
            for_fold (Scenario.long_quote :: rest)
              (overlay_quote Scenario.env Scenario.img0 1024 PyFloat.one) 85 (Scenario.start [])
            = for_fold rest
                (overlay_quote Scenario.env Scenario.img0 1024 PyFloat.one) 85 (Scenario.start [])).
Proof.
  eexists. split; [vm_compute; reflexivity|].
  apply (overlay_quote_all_or_nothing Scenario.env Scenario.img0 1024 PyFloat.one 85
           Scenario.long_quote (Scenario.start [])).
  vm_compute. reflexivity.
Defined.

(** C1 as stated fails: the most important quote does not fit and is
    skipped, the least important one is drawn after it. *)
Lemma lower_quote_drawn_after_skip :
  ~ rendered_prefix Scenario.env Scenario.img0 1024 Scenario.quotes0 PyFloat.one
      (Scenario.start [Scenario.long_quote; Scenario.short_quote]).
Proof.
  unfold rendered_prefix. intros [k H].
  destruct k as [|[|k]]; vm_compute in H; discriminate.
Qed.

(** C8 (amended): the first quote of the sorted list is laid out with the
    cursor at [size // 12]; a drawn block moves the cursor by its height,
    by one more line spacing [font_size // 4] after its last line, and by
    the 40 pixel gap. *)
Theorem cursor_advance (E : Env) (img : ref) (size : Z) (m : PyFloat.float)
  (y : Z) (q : quote) (w : world) (b : block) :
  quote_block E size m q = Ok b ->
  y + total_height b < size - 100 ->
  fst (overlay_quote E img size m y q w)
  = Ok (y + total_height b + font_size b / 4 + 40)
  /\ forall quotes l rest,
      w_lists w !! quotes = Some l ->
      sorted_by_importance l = q :: rest ->
      y = size / 12 ->
      add_text_overlay E img size quotes m w
      = (let! _ := for_fold rest (overlay_quote E img size m)
                     (size / 12 + total_height b + font_size b / 4 + 40) in
         ret tt)%M
          (set_images
             (alter (add_ops (draws_of E size (size / 12) b)) img (w_images w))
             (set_lists (<[quotes := q :: rest]> (w_lists w)) w)).
Proof.
  intros Hb Hlt.
  destruct (quote_block_inv E size m q b Hb) as (_ & _ & _ & _ & Hsp & _).
  split.
  - rewrite (overlay_quote_draw E img size m y q w b) by assumption.
    simpl. rewrite Hsp. reflexivity.
  - intros quotes l rest Hl Hs ->.
    unfold add_text_overlay at 1. unfold bind at 1. unfold list_sort.
    rewrite Hl. simpl default. rewrite Hs. cbn [for_fold]. unfold bind at 1 2.
    rewrite (overlay_quote_draw E img size m _ q _ b) by assumption.
    rewrite Hsp. reflexivity.
Qed.

Lemma cursor_advance_witness :
  exists b,
    quote_block Scenario.env 1024 PyFloat.one Scenario.big_quote = Ok b
    /\ 85 + total_height b < 1024 - 100
    /\ fst (overlay_quote Scenario.env Scenario.img0 1024 PyFloat.one 85 Scenario.big_quote
              (Scenario.start []))
       = Ok (85 + total_height b + font_size b / 4 + 40).
Proof.
  eexists. split; [vm_compute; reflexivity|]. split; [vm_compute; reflexivity|].
  apply (cursor_advance Scenario.env Scenario.img0 1024 PyFloat.one 85 Scenario.big_quote
           (Scenario.start [])); vm_compute; reflexivity.
Defined.

(** C8 as stated fails: a one-line quote of height 256 drawn at 85 leaves
    the cursor at 445, not at 85 + 256 + 40. *)
Lemma cursor_has_trailing_spacing :
  ~ advance_without_trailing_gap Scenario.env Scenario.img0 1024 PyFloat.one 85
      Scenario.big_quote (Scenario.start []).
Proof.
  unfold advance_without_trailing_gap. intros H.
  specialize (H {| font_size := 256;
                   block_font := FreeTypeFont "/System/Library/Fonts/Arial Bold.ttc" 256;
                   lines := [[Scenario.b]];
                   line_heights := [256];
                   line_spacing := 64;
                   total_height := 256 |}).
  vm_compute in H. specialize (H eq_refl eq_refl). discriminate.
Qed.

(** ** Random draws *)

Section Random.

Context (E : Env).

Lemma randbelow_spec (n : Z) (w : world) :
  0 < n ->
  exists k,
    randbelow E n w = (Ok k, set_draws (S (w_draws w)) w) /\ 0 <= k < n.
Proof.
  intros Hn. eexists. split; [reflexivity|]. apply Z.mod_pos_bound. assumption.
Qed.

Lemma random_choice_spec {A} (seq : list A) (w : world) :
  seq <> [] ->
  exists a,
    random_choice E seq w = (Ok a, set_draws (S (w_draws w)) w) /\ In a seq.
Proof.
  intros Hne. destruct seq as [|a0 seq]; [congruence|].
  unfold random_choice. set (l := a0 :: seq) in *.
  destruct (randbelow_spec (Z.of_nat (length l)) w) as (k & Hk & Hr);
    [subst l; simpl; lia|].
  unfold bind. rewrite Hk.
  destruct (lookup_lt_is_Some_2 l (Z.to_nat k)) as [a Ha]; [lia|].
  rewrite Ha. exists a. split; [reflexivity|].
  apply list_elem_of_In. eapply list_elem_of_lookup_2. eassumption.
Qed.

Lemma random_randint_spec (a b : Z) (w : world) :
  a <= b ->
  exists k,
    random_randint E a b w = (Ok k, set_draws (S (w_draws w)) w) /\ a <= k <= b.
Proof.
  intros Hab. unfold random_randint.
  destruct (Z.ltb_spec 0 (b + 1 - a)); [|lia].
  destruct (randbelow_spec (b + 1 - a) w) as (k & Hk & Hr); [assumption|].
  unfold bind. rewrite Hk. exists (a + k). split; [reflexivity|lia].
Qed.

(** Exchanging two elements keeps the elements. *)
Lemma insert_head_perm {A} (t : list A) :
  forall (j : nat) (b h : A),
    t !! j = Some b -> Permutation (b :: <[j:=h]> t) (h :: t).
Proof.
  induction t as [|c t IH]; intros j b h Hj; [discriminate|].
  destruct j as [|j]; simpl in *.
  - injection Hj as ->. apply perm_swap.
  - rewrite perm_swap, (IH j b h Hj). apply perm_swap.
Qed.

Lemma swap_spec {A} (x : list A) :
  forall (i j : nat),
    (i < length x)%nat -> (j < length x)%nat ->
    exists x', swap x i j = Ok x' /\ Permutation x' x.
Proof.
  unfold swap. induction x as [|h t IH]; intros i j Hi Hj; [simpl in Hi; lia|].
  destruct i as [|i], j as [|j]; simpl in *.
  - eexists. split; reflexivity.
  - destruct (lookup_lt_is_Some_2 t j) as [b Hb]; [lia|]. rewrite Hb.
    eexists. split; [reflexivity|]. apply insert_head_perm. assumption.
  - destruct (lookup_lt_is_Some_2 t i) as [a Ha]; [lia|]. rewrite Ha.
    eexists. split; [reflexivity|]. apply insert_head_perm. assumption.
  - destruct (IH i j) as (x' & Hx' & Hp); [lia|lia|].
    destruct (t !! i) as [a|]; [|discriminate].
    destruct (t !! j) as [b|]; [|discriminate].
    injection Hx' as <-. eexists. split; [reflexivity|].
    constructor. assumption.
Qed.

(** [random.shuffle] returns a permutation of its argument and never
    raises. *)
Lemma shuffle_from_spec {A} (i : nat) :
  forall (x : list A) (w : world),
    (i < length x)%nat \/ i = 0%nat ->
    exists x',
      shuffle_from E i x w = (Ok x', set_draws (w_draws w + i)%nat w)
      /\ Permutation x' x.
Proof.
  induction i as [|i IH]; intros x w Hi.
  - exists x. simpl. unfold ret. rewrite Nat.add_0_r.
    split; [destruct w; reflexivity|reflexivity].
  - destruct Hi as [Hi|]; [|discriminate].
    cbn [shuffle_from].
    destruct (randbelow_spec (Z.of_nat (S i) + 1) w) as (j & Hj & Hr); [lia|].
    unfold bind at 1. rewrite Hj. unfold bind at 1, lift.
    destruct (swap_spec x (S i) (Z.to_nat j)) as (x1 & -> & Hp1); [lia|lia|].
    destruct (IH x1 (set_draws (S (w_draws w)) w)) as (x' & Hx' & Hp).
    { left. rewrite (Permutation_length Hp1). lia. }
    rewrite Hx'. exists x'. split.
    + simpl. f_equal. unfold set_draws. simpl. f_equal. lia.
    + rewrite Hp. assumption.
Qed.

Lemma random_shuffle_spec {A} (x : list A) (w : world) :
  exists x',
    random_shuffle E x w = (Ok x', set_draws (w_draws w + (length x - 1))%nat w)
    /\ Permutation x' x.
Proof.
  apply shuffle_from_spec. destruct x; simpl; [right; reflexivity|left; lia].
Qed.

End Random.

(** ** [get_emoji_image] *)

Lemma rmap_inv {A B} (f : A -> result B) (l : list A) :
  forall bs, rmap f l = Ok bs -> Forall2 (fun a b => f a = Ok b) l bs.
Proof.
  induction l as [|a l IH]; simpl; intros bs H.
  - injection H as <-. constructor.
  - destruct (f a) as [b|] eqn:Hb; [|discriminate].
    destruct (rmap f l) as [bs'|]; [|discriminate].
    injection H as <-. constructor; auto.
Qed.

Lemma placeholder_ring_shape (size : Z) (color : rgb) (i : Z) (o : op) :
  placeholder_ring size color i = Ok o -> is_ellipse o.
Proof.
  unfold placeholder_ring, rbind. destruct color as [[cr cg] cb].
  repeat (case_match; try discriminate). intros [= <-]. exact I.
Qed.

Lemma im_size_add_ellipses (ops : list op) :
  Forall is_ellipse ops -> forall im, im_size (add_ops ops im) = im_size im.
Proof.
  induction 1 as [|o ops Ho _ IH]; intros im; [reflexivity|].
  simpl. unfold add_ops in IH. rewrite IH.
  destruct o; try contradiction. destruct im; reflexivity.
Qed.

Lemma is_placeholder_size (size : Z) (im : image) :
  is_placeholder size im -> im_size im = (size, size).
Proof.
  intros (color & rings & _ & Hr & ->).
  rewrite im_size_add_ellipses; [reflexivity|].
  apply rmap_inv in Hr. induction Hr as [|i o idx os Ho _ IH]; constructor.
  - eapply placeholder_ring_shape. eassumption.
  - assumption.
Qed.

Section Glyph.

Context (E : Env).

Lemma placeholder_spec (size : Z) (w : world) :
  0 <= size ->
  exists im,
    placeholder E size w = (Ok im, set_draws (S (w_draws w)) w)
    /\ is_placeholder size im.
Proof.
  intros Hs. unfold placeholder, bind at 1, lift, Image_new.
  destruct (Z.ltb_spec size 0); [lia|]. simpl orb. cbn iota.
  destruct (random_choice_spec E placeholder_colors w) as (color & Hc & Hin);
    [discriminate|].
  unfold bind at 1. rewrite Hc. unfold bind, lift.
  destruct (rmap_ok (placeholder_ring size color) (range (size / 4))) as (rings & Hr & _).
  { intros i Hi. apply in_range in Hi.
    destruct (placeholder_ring_ok size color i Hin Hi) as (r & g & b & ->). eauto. }
  rewrite Hr. eexists. split; [reflexivity|].
  exists color, rings. auto.
Qed.

(** A glyph that is not a single code point: nothing is requested. *)
Lemma wrapped_no_codepoint (emoji : str) (size : Z) (w : world) (e : exn) :
  ord emoji = Raise e ->
  get_emoji_image_wrapped E emoji size w = placeholder E size w.
Proof.
  intros H. unfold get_emoji_image_wrapped, bind, try_except, lift, ret.
  rewrite H. reflexivity.
Qed.

(** A single code point: the SVG probe, then the PNG request decides. *)
Lemma wrapped_codepoint (emoji : str) (size : Z) (w : world) (c : N) :
  ord emoji = Ok c ->
  let w2 :=
    set_requests (twemoji_png (format_x c) :: twemoji_svg (format_x c)
                    :: w_requests w) w in
  get_emoji_image_wrapped E emoji size w
  = match http_get E (S (length (w_requests w))) (twemoji_png (format_x c)) with
    | Ok r =>
        if status_code r =? 200 then
          match image_open E (content r) with
          | Some (md, w0, h0) =>
              if 0 <? size then
                (Ok (Image md size size (Decoded (content r)) [Resize size size]), w2)
              else placeholder E size w2
          | None => placeholder E size w2
          end
        else placeholder E size w2
    | Raise _ => placeholder E size w2
    end.
Proof.
  intros H w2. unfold get_emoji_image_wrapped, bind, try_except, lift, ret.
  rewrite H. unfold requests_get.
  destruct (http_get E (length (w_requests w)) _) as [r0|e0];
    cbn [w_requests set_requests length].
  all: destruct (http_get E (S (length (w_requests w))) _) as [r|e1]; [|reflexivity].
  all: destruct (status_code r =? 200); [|reflexivity].
  all: unfold Image_open; destruct (image_open E (content r)) as [[[md w0] h0]|];
    [|reflexivity].
  all: unfold resize; destruct (Z.ltb_spec 0 size), (Z.leb_spec size 0); try lia;
    reflexivity.
Qed.

(** Whatever is returned has the requested size, and the cache is left
    alone. *)
Lemma wrapped_result (emoji : str) (size : Z) (w w' : world) (im : image) :
  get_emoji_image_wrapped E emoji size w = (Ok im, w') ->
  im_size im = (size, size) /\ w_cache w' = w_cache w.
Proof.
  assert (Hp : forall w0, w_cache w0 = w_cache w ->
                          placeholder E size w0 = (Ok im, w') ->
                          im_size im = (size, size) /\ w_cache w' = w_cache w).
  { intros w0 Hc H. destruct (Z.le_gt_cases 0 size) as [Hs|Hs].
    - destruct (placeholder_spec size w0 Hs) as (im' & Him & Hpl).
      rewrite Him in H. injection H as <- <-.
      split; [apply is_placeholder_size; assumption|assumption].
    - unfold placeholder, bind, lift, Image_new in H.
      destruct (Z.ltb_spec size 0); [|lia]. discriminate. }
  destruct (ord emoji) as [c|e] eqn:Ho.
  - rewrite (wrapped_codepoint emoji size w c Ho).
    destruct (http_get E _ _) as [r|e1]; [|apply Hp; reflexivity].
    destruct (status_code r =? 200); [|apply Hp; reflexivity].
    destruct (image_open E (content r)) as [[[md w0] h0]|]; [|apply Hp; reflexivity].
    destruct (0 <? size); [|apply Hp; reflexivity].
    intros [= <- <-]. split; reflexivity.
  - rewrite (wrapped_no_codepoint emoji size w e Ho). apply Hp. reflexivity.
Qed.

Lemma wrapped_total (emoji : str) (size : Z) (w : world) :
  0 <= size ->
  exists im w',
    get_emoji_image_wrapped E emoji size w = (Ok im, w')
    /\ w_images w' = w_images w /\ w_lists w' = w_lists w
    /\ ((forall im', ~ fetch_succeeds E emoji (length (w_requests w)) size im') ->
        is_placeholder size im)
    /\ ((1 < length emoji)%nat ->
        is_placeholder size im /\ w_requests w' = w_requests w).
Proof.
  intros Hs.
  assert (Hp : forall w0, w_images w0 = w_images w -> w_lists w0 = w_lists w ->
                 exists im w',
                   placeholder E size w0 = (Ok im, w')
                   /\ w_images w' = w_images w /\ w_lists w' = w_lists w
                   /\ is_placeholder size im /\ w_requests w' = w_requests w0).
  { intros w0 Hi Hl. destruct (placeholder_spec size w0 Hs) as (im & Him & Hpl).
    exists im, (set_draws (S (w_draws w0)) w0). auto. }
  destruct (ord emoji) as [c|e] eqn:Ho.
  - assert (Hlen : ~ (1 < length emoji)%nat).
    { destruct emoji as [|c0 [|c1 emoji]]; simpl in *; try discriminate; lia. }
    rewrite (wrapped_codepoint emoji size w c Ho).
    set (w2 := set_requests _ w).
    destruct (Hp w2 eq_refl eq_refl) as (imp & wp & Hpl & Hi & Hl & Hisp & _).
    destruct (http_get E _ _) as [r|e1] eqn:Hget;
      [|exists imp, wp; repeat split; auto; lia].
    destruct (Z.eqb_spec (status_code r) 200) as [Hst|Hst];
      [|exists imp, wp; repeat split; auto; lia].
    destruct (image_open E (content r)) as [[[md w0] h0]|] eqn:Hopen;
      [|exists imp, wp; repeat split; auto; lia].
    destruct (Z.ltb_spec 0 size) as [Hpos|Hpos];
      [|exists imp, wp; repeat split; auto; lia].
    eexists _, w2. split; [reflexivity|]. repeat split; try lia.
    intros Hno. exfalso. eapply Hno. exists c, r, md, w0, h0. auto 10.
  - rewrite (wrapped_no_codepoint emoji size w e Ho).
    destruct (Hp w eq_refl eq_refl) as (imp & wp & Hpl & Hi & Hl & Hisp & Hreq).
    exists imp, wp. auto 10.
Qed.

Lemma cache_sound_empty (w : world) : w_cache w = ∅ -> cache_sound E w.
Proof. intros H e s im Hl. rewrite H, lookup_empty in Hl. discriminate. Qed.

Lemma multi_scalar_no_codepoint (emoji : str) :
  (1 < length emoji)%nat -> ord emoji = Raise TypeError.
Proof. destruct emoji as [|c0 [|c1 emoji]]; simpl; intros; try lia; reflexivity. Qed.

End Glyph.

(** C6: for every glyph and every positive size, [get_emoji_image] returns
    an image of exactly [size] by [size] and raises nothing, whether the
    image comes from the cache, from the download or from the fallback; when
    the call is not answered by the cache and the download does not succeed
    (no single code point, a failed request, a status other than 200, an
    undecodable content), the result is the shaded-circle placeholder. *)
Theorem get_emoji_image_never_fails (E : Env) (emoji : str) (size : Z)
  (w : world) :
  0 < size ->
  cache_sound E w ->
  exists im w',
    get_emoji_image E emoji size w = (Ok im, w')
    /\ im_size im = (size, size)
    /\ cache_sound E w'
    /\ (w_cache w !! (emoji, size) = None ->
        (forall im', ~ fetch_succeeds E emoji (length (w_requests w)) size im') ->
        is_placeholder size im).
Proof.
  intros Hs Hc. unfold get_emoji_image, st_cache_data.
  destruct (w_cache w !! (emoji, size)) as [im|] eqn:Hl.
  - exists im, w. destruct (Hc _ _ _ Hl) as (w0 & w1 & Hrun).
    repeat split; [|assumption|discriminate].
    eapply wrapped_result. eassumption.
  - destruct (wrapped_total E emoji size w ltac:(lia))
      as (im & w' & Hrun & _ & _ & Hpl & _).
    rewrite Hrun. destruct (wrapped_result E emoji size w w' im Hrun) as [Hsz Hcache].
    eexists _, _. split; [reflexivity|]. repeat split; [assumption| |auto].
    intros e s im0. cbn [w_cache set_cache].
    destruct (decide ((emoji, size) = (e, s))) as [[= <- <-]|Hne].
    + rewrite lookup_insert_eq. intros [= <-]. eauto.
    + rewrite lookup_insert_ne by assumption. rewrite Hcache. apply Hc.
Qed.

Lemma get_emoji_image_never_fails_witness :
  0 < 64
  /\ cache_sound Scenario.env (Scenario.start [])
  /\ exists im w',
      get_emoji_image Scenario.env [Scenario.a] 64 (Scenario.start []) = (Ok im, w')
      /\ im_size im = (64, 64).
Proof.
  split; [lia|]. split; [apply cache_sound_empty; reflexivity|].
  destruct (get_emoji_image_never_fails Scenario.env [Scenario.a] 64 (Scenario.start []))
    as (im & w' & H1 & H2 & _); [lia|apply cache_sound_empty; reflexivity|].
  exists im, w'. split; assumption.
Defined.

(** C10: for every emoji string of more than one code point, no request is
    made at all (the conversion to a code point fails in both fetch
    branches, where it is caught) and the call returns the shaded-circle
    placeholder of the requested size. *)
Theorem multi_scalar_emoji_gets_placeholder (E : Env) (emoji : str) (size : Z)
  (w : world) :
  (1 < length emoji)%nat ->
  0 <= size ->
  cache_sound E w ->
  exists im w',
    get_emoji_image E emoji size w = (Ok im, w')
    /\ is_placeholder size im
    /\ im_size im = (size, size)
    /\ w_requests w' = w_requests w.
Proof.
  intros Hlen Hs Hc. unfold get_emoji_image, st_cache_data.
  pose proof (multi_scalar_no_codepoint emoji Hlen) as Hord.
  destruct (w_cache w !! (emoji, size)) as [im|] eqn:Hl.
  - exists im, w. destruct (Hc _ _ _ Hl) as (w0 & w1 & Hrun).
    assert (Hpl : is_placeholder size im).
    { rewrite (wrapped_no_codepoint E emoji size w0 TypeError Hord) in Hrun.
      destruct (placeholder_spec E size w0 Hs) as (im' & Him & Hpl).
      rewrite Him in Hrun. injection Hrun as <- _. assumption. }
    repeat split; [assumption|apply is_placeholder_size; assumption].
  - destruct (wrapped_total E emoji size w Hs) as (im & w' & Hrun & _ & _ & _ & Hm).
    rewrite Hrun. destruct (Hm Hlen) as [Hpl Hreq].
    eexists _, _. split; [reflexivity|].
    repeat split; [assumption|apply is_placeholder_size; assumption|assumption].
Qed.

Lemma multi_scalar_emoji_gets_placeholder_witness :
  (1 < length [Scenario.b; Scenario.a])%nat
  /\ 0 <= 64
  /\ cache_sound Scenario.env (Scenario.start [])
  /\ exists im w',
      get_emoji_image Scenario.env [Scenario.b; Scenario.a] 64 (Scenario.start [])
      = (Ok im, w')
      /\ is_placeholder 64 im.
Proof.
  split; [simpl; lia|]. split; [lia|]. split; [apply cache_sound_empty; reflexivity|].
  destruct (multi_scalar_emoji_gets_placeholder Scenario.env [Scenario.b; Scenario.a] 64
              (Scenario.start []))
    as (im & w' & H1 & H2 & _); [simpl; lia|lia|apply cache_sound_empty; reflexivity|].
  exists im, w'. split; assumption.
Defined.

(** ** [create_emoji_background] *)

Lemma length_emoji_instances (emojis : list emoji_data) :
  Z.of_nat (length (emoji_instances emojis)) = instance_count emojis.
Proof.
  unfold emoji_instances. induction emojis as [|d emojis IH]; [reflexivity|].
  cbn [flat_map instance_count fold_right]. fold (instance_count emojis).
  rewrite length_app, length_map, length_range, Nat2Z.inj_add, IH. lia.
Qed.

Section Collage.

Context (E : Env) (img : ref) (size : Z).

Lemma get_emoji_image_ok (emoji : str) (s : Z) (w : world) :
  0 <= s ->
  exists im w',
    get_emoji_image E emoji s w = (Ok im, w')
    /\ w_images w' = w_images w /\ w_lists w' = w_lists w.
Proof.
  intros Hs. unfold get_emoji_image, st_cache_data.
  destruct (w_cache w !! (emoji, s)) as [im|]; [eauto|].
  destruct (wrapped_total E emoji s w Hs) as (im & w' & -> & Hi & Hl & _).
  eexists _, _. split; [reflexivity|]. split; assumption.
Qed.

Lemma place_emoji_spec (e : str) (w : world) :
  64 <= size ->
  exists g x y w',
    place_emoji E img size e w = (Ok tt, w')
    /\ w_images w' = alter (add_ops [Paste g x y]) img (w_images w)
    /\ w_lists w' = w_lists w
    /\ 0 <= x <= size - 64 /\ 0 <= y <= size - 64.
Proof.
  intros Hsize. unfold place_emoji, emoji_size.
  destruct (random_randint_spec E 0 (size - 64) w) as (x & Hx & Hxr); [lia|].
  unfold bind at 1. rewrite Hx.
  destruct (random_randint_spec E 0 (size - 64) (set_draws (S (w_draws w)) w))
    as (y & Hy & Hyr); [lia|].
  unfold bind at 1. rewrite Hy.
  destruct (get_emoji_image_ok e 64
              (set_draws (S (w_draws (set_draws (S (w_draws w)) w)))
                 (set_draws (S (w_draws w)) w)))
    as (g & w1 & Hg & Hi & Hl); [lia|].
  unfold bind at 1. rewrite Hg.
  destruct alpha_table_ok as (table & Ht & _).
  unfold bind, lift. rewrite Ht. unfold draw.
  eexists _, x, y, _. split; [reflexivity|].
  cbn [w_images set_images w_lists]. rewrite Hi, Hl. auto.
Qed.

Lemma for_each_place_emoji (l : list str) :
  64 <= size ->
  forall w,
    exists (placed : list placement) w',
      for_each l (place_emoji E img size) w = (Ok tt, w')
      /\ w_images w' = alter (add_ops (map paste_of placed)) img (w_images w)
      /\ w_lists w' = w_lists w
      /\ map placed_emoji placed = l
      /\ Forall (fun p => 0 <= fst (snd p) <= size - 64
                          /\ 0 <= snd (snd p) <= size - 64) placed.
Proof.
  intros Hsize. induction l as [|e l IH]; intros w.
  - exists [], w. simpl. unfold ret. rewrite alter_add_ops_nil. auto.
  - destruct (place_emoji_spec e w Hsize) as (g & x & y & w1 & He & Hi & Hl & Hx & Hy).
    cbn [for_each]. unfold bind. rewrite He.
    destruct (IH w1) as (placed & w2 & Hrest & Hi2 & Hl2 & Hmap & Hall).
    rewrite Hrest. exists ((e, g, (x, y)) :: placed), w2.
    split; [reflexivity|]. split; [|split; [congruence|split]].
    + rewrite Hi2, Hi, alter_add_ops_app. reflexivity.
    + simpl. rewrite Hmap. reflexivity.
    + constructor; [simpl; auto|assumption].
Qed.

End Collage.

(** What [create_emoji_background] does on a canvas of at least 64 pixels a
    side. *)
Lemma create_emoji_background_spec (E : Env) (img : ref) (size : Z)
  (emojis : list emoji_data) (w : world) :
  64 <= size ->
  exists (placed : list placement) w',
    create_emoji_background E img size emojis w = (Ok tt, w')
    /\ w_images w' = alter (add_ops (map paste_of placed)) img (w_images w)
    /\ w_lists w' = w_lists w
    /\ Permutation (map placed_emoji placed) (emoji_instances emojis)
    /\ Z.of_nat (length placed) = instance_count emojis
    /\ Forall (fun p => 0 <= fst (snd p) <= size - 64
                        /\ 0 <= snd (snd p) <= size - 64) placed
    /\ forall im,
        w_images w !! img = Some im ->
        exists im',
          w_images w' !! img = Some im'
          /\ im_ops im' = im_ops im ++ map paste_of placed
          /\ length (pasted im') = (length (pasted im) + length placed)%nat.
Proof.
  intros Hsize. unfold create_emoji_background, try_except.
  destruct (random_shuffle_spec E (emoji_instances emojis) w) as (sh & Hsh & Hperm).
  unfold bind. rewrite Hsh.
  destruct (for_each_place_emoji E img size sh Hsize
              (set_draws (w_draws w + (length (emoji_instances emojis) - 1)) w))
    as (placed & w1 & Hrun & Hi & Hl & Hmap & Hall).
  rewrite Hrun. exists placed, w1.
  cbn [w_images set_images set_draws w_lists] in *.
  split; [reflexivity|]. split; [assumption|]. split; [assumption|].
  split; [rewrite Hmap; assumption|]. split.
  { rewrite <- length_emoji_instances, <- (Permutation_length Hperm), <- Hmap, length_map.
    reflexivity. }
  split; [assumption|].
  intros im Him. exists (add_ops (map paste_of placed) im).
  rewrite Hi, list_lookup_alter_eq. unfold ref in *. rewrite Him. split; [reflexivity|].
  rewrite im_ops_add_ops. split; [reflexivity|].
  unfold pasted. rewrite im_ops_add_ops, flat_map_app, length_app. f_equal.
  clear. induction placed as [|p placed IH]; [reflexivity|]. simpl. rewrite IH. reflexivity.
Qed.



(** ** [create_gradient_background] *)

Lemma rgb_eqb_eq (c d : rgb) : rgb_eqb c d = true -> c = d.
Proof.
  destruct c as [[r g] b], d as [[r' g'] b']. simpl.
  rewrite !andb_true_iff, !Z.eqb_eq. intros [[-> ->] ->]. reflexivity.
Qed.

Lemma lookup_repeat {A} (c : A) (n : nat) :
  forall x : nat, (x < n)%nat -> repeat c n !! x = Some c.
Proof.
  induction n as [|n IH]; intros x Hx; [lia|].
  destruct x as [|x]; [reflexivity|]. simpl. apply IH. lia.
Qed.

(** The pixel at column [x] of row [y]. *)
Lemma lookup_rows {A} (cs : list A) (n : nat) :
  forall (y x : nat),
    (x < n)%nat ->
    concat (map (fun c => repeat c n) cs) !! (y * n + x)%nat = cs !! y.
Proof.
  induction cs as [|c cs IH]; intros y x Hx.
  - simpl. rewrite !lookup_nil. reflexivity.
  - cbn [map concat]. destruct y as [|y].
    + rewrite lookup_app_l by (rewrite repeat_length; lia).
      simpl. apply lookup_repeat. assumption.
    + rewrite lookup_app_r by (rewrite repeat_length; lia).
      rewrite repeat_length. replace (S y * n + x - n)%nat with (y * n + x)%nat by lia.
      apply IH. assumption.
Qed.

Lemma lookup_range (n y : Z) : 0 <= y < n -> range n !! Z.to_nat y = Some y.
Proof.
  intros H. unfold range. rewrite list_lookup_fmap.
  rewrite lookup_seq_lt by lia. simpl. f_equal. lia.
Qed.

(** Row 0 is computed from the ratio [0.0] and has the start colour. *)
Lemma gradient_first_row (colors : rgb * rgb) (size : Z) :
  In colors palettes -> 0 < size ->
  gradient_color colors size 0 = Ok (fst colors).
Proof.
  intros Hc Hs.
  assert (Hr : PyFloat.truediv 0 size = Ok (S754_zero false)).
  { unfold PyFloat.truediv. destruct size as [|p|p]; try lia. reflexivity. }
  unfold palettes in Hc. simpl in Hc.
  destruct Hc as [<-|[<-|[<-|[<-|[<-|[]]]]]];
    unfold gradient_color; rewrite Hr; vm_compute; reflexivity.
Qed.

(** At the size of the pipeline every row has the colour of the exact
    interpolation rounded down. *)
Lemma gradient_1024_exact_checked :
  forallb
    (fun colors =>
       forallb
         (fun y =>
            match gradient_color colors 1024 y with
            | Ok c => rgb_eqb c (exact_color colors 1024 y)
            | Raise _ => false
            end)
         (range 1024))
    palettes = true.
Proof. vm_compute. reflexivity. Qed.

Lemma gradient_1024_exact (colors : rgb * rgb) (y : Z) :
  In colors palettes -> 0 <= y < 1024 ->
  gradient_color colors 1024 y = Ok (exact_color colors 1024 y).
Proof.
  intros Hc Hy. pose proof gradient_1024_exact_checked as H.
  rewrite forallb_forall in H. specialize (H colors Hc).
  rewrite forallb_forall in H. specialize (H y (proj2 (in_range 1024 y) Hy)).
  destruct (gradient_color colors 1024 y) as [c|]; [|discriminate].
  f_equal. apply rgb_eqb_eq. assumption.
Qed.

Lemma gradient_1024_last_row (colors : rgb * rgb) :
  In colors palettes -> gradient_color colors 1024 1023 = Ok (snd colors).
Proof.
  intros Hc. rewrite gradient_1024_exact by (assumption || lia).
  unfold palettes in Hc. simpl in Hc.
  destruct Hc as [<-|[<-|[<-|[<-|[<-|[]]]]]]; reflexivity.
Qed.

Lemma create_gradient_background_spec (E : Env) (size : Z) (w : world) :
  0 <= size ->
  exists colors cs,
    In colors palettes
    /\ Forall2 (fun y c => gradient_color colors size y = Ok c) (range size) cs
    /\ gradient_pixels colors size
       = Ok (concat (map (fun c => repeat c (Z.to_nat size)) cs))
    /\ create_gradient_background E size w
       = (Ok (length (w_images w)),
          set_images
            (w_images w
             ++ [Image RGB size size (Blank (0, 0, 0, 0))
                   [PutData (concat (map (fun c => repeat c (Z.to_nat size)) cs))]])
            (set_draws (S (w_draws w)) w)).
Proof.
  intros Hs. unfold create_gradient_background, bind at 1, lift, Image_new.
  destruct (Z.ltb_spec size 0); [lia|]. simpl orb. cbn iota.
  destruct (random_choice_spec E palettes w) as (colors & Hc & Hin); [discriminate|].
  unfold bind at 1. rewrite Hc.
  destruct (gradient_pixels_ok colors size Hin) as (cs & Hall & Hpx).
  exists colors, cs. unfold bind, lift. rewrite Hpx.
  repeat split; assumption.
Qed.




(** ** [create_thumbnail] *)

Lemma add_ops_keeps_shape (ops : list op) :
  Forall keeps_shape ops ->
  forall im, im_size (add_ops ops im) = im_size im
             /\ im_mode (add_ops ops im) = im_mode im.
Proof.
  induction 1 as [|o ops Ho _ IH]; intros im; [split; reflexivity|].
  change (add_ops (o :: ops) im) with (add_ops ops (apply_op o im)).
  destruct (IH (apply_op o im)) as [-> ->].
  destruct o, im; try contradiction; split; reflexivity.
Qed.

Lemma line_ops_keep_shape (E : Env) (size : Z) (f : font) (y : Z) (line : str) :
  Forall keeps_shape (line_ops E size f y line).
Proof.
  unfold line_ops. apply Forall_app. split; [|repeat constructor].
  apply Forall_map. apply Forall_forall. intros; exact I.
Qed.

Lemma block_ops_keep_shape (E : Env) (size : Z) (f : font) (sp : Z)
  (ls : list (str * Z)) :
  forall y, Forall keeps_shape (block_ops E size f sp y ls).
Proof.
  induction ls as [|[line h] ls IH]; intros y; [constructor|].
  cbn [block_ops]. apply Forall_app. split; [apply line_ops_keep_shape|apply IH].
Qed.

Section Pipeline.

Context (E : Env) (img : ref) (size : Z) (m : PyFloat.float).

(** The loop over the quotes raises nothing when every font size can be
    computed, and draws text only. *)
Lemma for_fold_overlay_ok (l : list quote) :
  (forall q, In q l -> exists b, quote_block E size m q = Ok b) ->
  forall y w,
    exists ops y',
      for_fold l (overlay_quote E img size m) y w
      = (Ok y', set_images (alter (add_ops ops) img (w_images w)) w)
      /\ Forall keeps_shape ops
      /\ (l = [] -> ops = []).
Proof.
  induction l as [|q l IH]; intros Hb y w.
  - exists [], y. simpl. unfold ret.
    rewrite alter_add_ops_nil, set_images_same. auto.
  - destruct (Hb q) as (b & Hq); [left; reflexivity|].
    assert (Hl : forall q', In q' l -> exists b', quote_block E size m q' = Ok b')
      by (intros; apply Hb; right; assumption).
    cbn [for_fold]. unfold bind.
    destruct (Z.lt_ge_cases (y + total_height b) (size - 100)) as [Hlt|Hge].
    + rewrite (overlay_quote_draw E img size m y q w b Hq Hlt).
      destruct (IH Hl (y + total_height b + line_spacing b + 40)
                  (set_images (alter (add_ops (draws_of E size y b)) img (w_images w)) w))
        as (ops & y' & -> & Hops & _).
      exists (draws_of E size y b ++ ops), y'.
      cbn [w_images set_images]. rewrite alter_add_ops_app.
      split; [reflexivity|]. split; [|discriminate].
      apply Forall_app. split; [apply block_ops_keep_shape|assumption].
    + rewrite (overlay_quote_skip E img size m y q w b Hq Hge).
      destruct (IH Hl y w) as (ops & y' & -> & Hops & _).
      exists ops, y'. split; [reflexivity|]. split; [assumption|discriminate].
Qed.

Lemma quote_block_ok (q : quote) :
  Zdigits2 size <= 60 -> Zdigits2 (importance q) <= 800 -> below 60 m ->
  exists b, quote_block E size m q = Ok b.
Proof.
  intros Hs Hi Hm. unfold quote_block.
  destruct (quote_font_size_ok size q m Hs Hi Hm) as (fs & ->). simpl. eauto.
Qed.

Lemma add_text_overlay_ok (quotes : ref) (w : world) :
  Zdigits2 size <= 60 ->
  (forall q, In q (default [] (w_lists w !! quotes)) ->
             Zdigits2 (importance q) <= 800 /\ below 60 m) ->
  exists ops w',
    add_text_overlay E img size quotes m w = (Ok tt, w')
    /\ w_images w' = alter (add_ops ops) img (w_images w)
    /\ Forall keeps_shape ops
    /\ (default [] (w_lists w !! quotes) = [] -> ops = []).
Proof.
  intros Hs Hq. unfold add_text_overlay, bind at 1, list_sort.
  set (l := default [] (w_lists w !! quotes)) in *.
  set (w1 := set_lists _ w).
  destruct (for_fold_overlay_ok (sorted_by_importance l)) with (y := size / 12) (w := w1)
    as (ops & y' & Hrun & Hops & Hnil).
  { intros q Hin. destruct (Hq q) as [Hi Hm].
    - eapply Permutation_in; [apply sorted_by_importance_perm|exact Hin].
    - apply quote_block_ok; assumption. }
  unfold bind. rewrite Hrun. exists ops, (set_images (alter (add_ops ops) img (w_images w1)) w1).
  split; [reflexivity|]. split; [reflexivity|]. split; [assumption|].
  intros Hl. apply Hnil. rewrite Hl. reflexivity.
Qed.

End Pipeline.



(** ** Weights and importances *)



(** * Further properties *)

(** ** The glyph cache and the download *)

(** X1: a call of [get_emoji_image] that has returned an image returns the
    same image when it is repeated with the same arguments, and the
    repeated call changes nothing: no request, no random draw. *)
Theorem get_emoji_image_repeatable (E : Env) (emoji : str) (size : Z)
  (w w' : world) (im : image) :
  get_emoji_image E emoji size w = (Ok im, w') ->
  get_emoji_image E emoji size w' = (Ok im, w').
Proof.
  unfold get_emoji_image, st_cache_data.
  destruct (w_cache w !! (emoji, size)) as [im0|] eqn:Hl.
  - intros [= <- <-]. rewrite Hl. reflexivity.
  - destruct (get_emoji_image_wrapped E emoji size w) as [[im1|e] w1]; [|discriminate].
    intros [= <- <-]. cbn [w_cache set_cache]. rewrite lookup_insert_eq. reflexivity.
Qed.

Lemma get_emoji_image_repeatable_witness :
  exists im w',
    get_emoji_image Scenario.env [Scenario.a] 64 (Scenario.start []) = (Ok im, w')
    /\ get_emoji_image Scenario.env [Scenario.a] 64 w' = (Ok im, w').
Proof.
  destruct (get_emoji_image_ok Scenario.env [Scenario.a] 64 (Scenario.start []))
    as (im & w' & H & _); [lia|].
  exists im, w'. split; [exact H|].
  apply (get_emoji_image_repeatable Scenario.env [Scenario.a] 64 (Scenario.start [])).
  exact H.
Defined.

(** X2: when the glyph is a single code point that is not cached and the
    PNG request is answered with status 200 and a decodable content, the
    result is the decoded picture resized to [size] by [size]; exactly two
    requests are made, the SVG address first and the PNG address second,
    both built from the hexadecimal code point; no random draw is used and
    the result is stored in the cache. *)
Theorem get_emoji_image_download (E : Env) (emoji : str) (c : N) (size : Z)
  (w : world) (r : response) (md : mode) (w0 h0 : Z) :
  ord emoji = Ok c ->
  w_cache w !! (emoji, size) = None ->
  0 < size ->
  http_get E (S (length (w_requests w))) (twemoji_png (format_x c)) = Ok r ->
  status_code r = 200 ->
  image_open E (content r) = Some (md, w0, h0) ->
  let im := Image md size size (Decoded (content r)) [Resize size size] in
  get_emoji_image E emoji size w
  = (Ok im,
     set_cache (<[(emoji, size) := im]> (w_cache w))
       (set_requests
          (twemoji_png (format_x c) :: twemoji_svg (format_x c) :: w_requests w) w)).
Proof.
  intros Ho Hl Hs Hget Hst Hopen im. unfold get_emoji_image, st_cache_data. rewrite Hl.
  rewrite (wrapped_codepoint E emoji size w c Ho), Hget, Hst, Hopen. simpl Z.eqb.
  cbn iota. destruct (Z.ltb_spec 0 size); [|lia]. reflexivity.
Qed.

Lemma get_emoji_image_download_witness :
  ord [Scenario.a] = Ok Scenario.a
  /\ 0 < 64
  /\ fst (get_emoji_image Online.env [Scenario.a] 64 (Scenario.start []))
     = Ok (Image OtherMode 64 64 (Decoded (content Online.png)) [Resize 64 64]).
Proof.
  split; [reflexivity|]. split; [lia|].
  rewrite (get_emoji_image_download Online.env [Scenario.a] Scenario.a 64
             (Scenario.start []) Online.png OtherMode 72 72);
    [reflexivity|reflexivity|reflexivity|lia|reflexivity|reflexivity|reflexivity].
Defined.

Lemma placeholder_with_http (E : Env) (h : nat -> string -> result response)
  (size : Z) (w : world) :
  placeholder (with_http h E) size w = placeholder E size w.
Proof. reflexivity. Qed.

(** X3: the answer to the SVG probe has no influence: two environments
    that differ only in the answer to the first request of an uncached call
    give the same result and the same state. *)
Theorem svg_probe_is_ignored (E : Env) (h : nat -> string -> result response)
  (emoji : str) (size : Z) (w : world) :
  (forall k url, k <> length (w_requests w) -> h k url = http_get E k url) ->
  get_emoji_image (with_http h E) emoji size w = get_emoji_image E emoji size w.
Proof.
  intros Hh. unfold get_emoji_image, st_cache_data.
  destruct (w_cache w !! (emoji, size)) as [im0|]; [reflexivity|].
  assert (Hw : get_emoji_image_wrapped (with_http h E) emoji size w
               = get_emoji_image_wrapped E emoji size w).
  { destruct (ord emoji) as [c|e] eqn:Ho.
    - rewrite (wrapped_codepoint (with_http h E) emoji size w c Ho).
      rewrite (wrapped_codepoint E emoji size w c Ho).
      cbn [http_get with_http image_open]. rewrite Hh by lia.
      rewrite !placeholder_with_http. reflexivity.
    - rewrite (wrapped_no_codepoint (with_http h E) emoji size w e Ho).
      rewrite (wrapped_no_codepoint E emoji size w e Ho).
      apply placeholder_with_http. }
  rewrite Hw. reflexivity.
Qed.

Lemma svg_probe_is_ignored_witness :
  (forall k url,
      k <> length (w_requests (Scenario.start [])) ->
      (fun k' url' => if Nat.eqb k' 0 then Raise RequestException
                      else http_get Online.env k' url') k url
      = http_get Online.env k url)
  /\ get_emoji_image
       (with_http (fun k' url' => if Nat.eqb k' 0 then Raise RequestException
                                  else http_get Online.env k' url') Online.env)
       [Scenario.a] 64 (Scenario.start [])
     = get_emoji_image Online.env [Scenario.a] 64 (Scenario.start []).
Proof.
  assert (H : forall k url,
             k <> length (w_requests (Scenario.start [])) ->
             (fun k' url' => if Nat.eqb k' 0 then Raise RequestException
                             else http_get Online.env k' url') k url
             = http_get Online.env k url).
  { intros k url Hk. simpl in Hk. destruct k; [congruence|reflexivity]. }
  split; [exact H|].
  apply (svg_probe_is_ignored Online.env _ [Scenario.a] 64 (Scenario.start []) H).
Defined.

Lemma placeholder_negative (E : Env) (size : Z) (w : world) :
  size < 0 -> placeholder E size w = (Raise ValueError, w).
Proof.
  intros Hs. unfold placeholder, bind, lift, Image_new.
  destruct (Z.ltb_spec size 0); [reflexivity|lia].
Qed.

Lemma wrapped_negative (E : Env) (emoji : str) (size : Z) (w : world) :
  size < 0 ->
  exists w',
    get_emoji_image_wrapped E emoji size w = (Raise ValueError, w')
    /\ w_cache w' = w_cache w.
Proof.
  intros Hs. destruct (ord emoji) as [c|e] eqn:Ho.
  - rewrite (wrapped_codepoint E emoji size w c Ho).
    destruct (Z.ltb_spec 0 size); [lia|].
    repeat case_match; rewrite placeholder_negative by assumption; eauto.
  - rewrite (wrapped_no_codepoint E emoji size w e Ho), placeholder_negative by assumption.
    eauto.
Qed.

(** X4: for a negative size [get_emoji_image] raises [ValueError], whatever
    the network answers, and stores nothing in the cache: the fallback that
    follows the two guarded fetch branches is not guarded itself. *)
Theorem get_emoji_image_negative_size (E : Env) (emoji : str) (size : Z)
  (w : world) :
  size < 0 ->
  cache_sound E w ->
  exists w',
    get_emoji_image E emoji size w = (Raise ValueError, w')
    /\ w_cache w' = w_cache w.
Proof.
  intros Hs Hc. unfold get_emoji_image, st_cache_data.
  destruct (w_cache w !! (emoji, size)) as [im0|] eqn:Hl.
  - destruct (Hc _ _ _ Hl) as (w0 & w1 & Hrun).
    destruct (wrapped_negative E emoji size w0 Hs) as (w2 & Hneg & _).
    rewrite Hneg in Hrun. discriminate.
  - destruct (wrapped_negative E emoji size w Hs) as (w' & -> & Hcache). eauto.
Qed.

Lemma get_emoji_image_negative_size_witness :
  -1 < 0
  /\ cache_sound Scenario.env (Scenario.start [])
  /\ exists w',
      get_emoji_image Scenario.env [Scenario.a] (-1) (Scenario.start [])
      = (Raise ValueError, w').
Proof.
  split; [lia|]. split; [apply cache_sound_empty; reflexivity|].
  destruct (get_emoji_image_negative_size Scenario.env [Scenario.a] (-1)
              (Scenario.start [])) as (w' & H & _);
    [lia|apply cache_sound_empty; reflexivity|].
  exists w'. exact H.
Defined.

(** ** The collage on small canvases and the pasted glyphs *)

Lemma emoji_instances_nonempty (emojis : list emoji_data) :
  emojis <> [] -> emoji_instances emojis <> [].
Proof.
  destruct emojis as [|d emojis]; [congruence|]. intros _ H.
  apply (f_equal (@length str)) in H.
  pose proof (length_emoji_instances (d :: emojis)) as Hlen.
  rewrite H in Hlen. simpl in Hlen.
  fold (instance_count emojis) in Hlen.
  assert (0 <= instance_count emojis).
  { clear. induction emojis as [|d emojis IH]; simpl; [lia|].
    fold (instance_count emojis). lia. }
  lia.
Qed.

Lemma random_randint_empty (E : Env) (a b : Z) (w : world) :
  b < a -> random_randint E a b w = (Raise ValueError, w).
Proof.
  intros H. unfold random_randint. destruct (Z.ltb_spec 0 (b + 1 - a)); [lia|].
  reflexivity.
Qed.

(** The guarded part of [create_emoji_background] on a canvas that cannot
    hold a glyph: the first placement raises, nothing has been drawn. *)
Lemma collage_body_raises (E : Env) (img : ref) (size : Z)
  (emojis : list emoji_data) (w : world) :
  size < 64 -> emojis <> [] ->
  exists w1,
    (let! emoji_positions := random_shuffle E (emoji_instances emojis) in
     for_each emoji_positions (place_emoji E img size))%M w
    = (Raise ValueError, w1)
    /\ w_images w1 = w_images w /\ w_lists w1 = w_lists w.
Proof.
  intros Hs Hne.
  destruct (random_shuffle_spec E (emoji_instances emojis) w) as (sh & Hsh & Hperm).
  unfold bind at 1. rewrite Hsh.
  destruct sh as [|e sh].
  { apply Permutation_nil in Hperm. apply emoji_instances_nonempty in Hne. congruence. }
  cbn [for_each]. unfold bind at 1, place_emoji, bind at 1, emoji_size.
  rewrite random_randint_empty by lia. eauto.
Qed.

(** X5: on a canvas of side below 60, [create_emoji_background] does
    nothing and raises nothing for an empty emoji list, and for every
    non-empty list it raises [ValueError] to its caller with the canvas as
    it was: the placement fails, and so does the first fallback shape, in
    the handler that nothing guards. *)
Theorem collage_tiny_canvas (E : Env) (img : ref) (size : Z)
  (emojis : list emoji_data) (w : world) :
  size < 60 ->
  (emojis = [] -> create_emoji_background E img size emojis w = (Ok tt, w))
  /\ (emojis <> [] ->
      exists w',
        create_emoji_background E img size emojis w = (Raise ValueError, w')
        /\ w_images w' = w_images w).
Proof.
  intros Hs. split.
  - intros ->. unfold create_emoji_background, try_except, bind, random_shuffle.
    simpl. unfold ret. destruct w; reflexivity.
  - intros Hne. unfold create_emoji_background, try_except.
    destruct (collage_body_raises E img size emojis w ltac:(lia) Hne)
      as (w1 & -> & Hi & _).
    unfold range. simpl seq. cbn [map for_each]. unfold bind at 1, fallback_shape, bind at 1.
    rewrite random_randint_empty by lia. eauto.
Qed.

Lemma collage_tiny_canvas_witness :
  59 < 60
  /\ exists w',
      create_emoji_background Scenario.env Scenario.img0 59
        [{| emoji := [Scenario.a]; weight := 5 |}] (Scenario.start [])
      = (Raise ValueError, w').
Proof.
  split; [lia|].
  destruct (collage_tiny_canvas Scenario.env Scenario.img0 59
              [{| emoji := [Scenario.a]; weight := 5 |}] (Scenario.start []))
    as [_ H]; [lia|].
  destruct H as (w' & H & _); [discriminate|].
  exists w'. exact H.
Defined.

Lemma fallback_shape_spec (E : Env) (img : ref) (size : Z) (w : world) :
  60 <= size ->
  exists o w',
    fallback_shape E img size w = (Ok tt, w')
    /\ w_images w' = alter (add_ops [o]) img (w_images w)
    /\ w_lists w' = w_lists w
    /\ is_fallback_shape size o.
Proof.
  intros Hs. unfold fallback_shape. unfold bind at 1.
  destruct (random_randint_spec E 0 (size - 60) w) as (x & -> & Hx); [lia|].
  unfold bind at 1.
  destruct (random_randint_spec E 0 (size - 60) (set_draws (S (w_draws w)) w))
    as (y & -> & Hy); [lia|].
  unfold bind at 1.
  match goal with |- context [random_choice E fallback_colors ?w0] =>
    destruct (random_choice_spec E fallback_colors w0) as (c & -> & Hc); [discriminate|]
  end.
  unfold bind at 1.
  match goal with |- context [random_randint E 30 80 ?w0] =>
    destruct (random_randint_spec E 30 80 w0) as (d & -> & Hd); [lia|]
  end.
  unfold draw. eexists _, _. split; [reflexivity|].
  cbn [w_images set_images set_draws w_lists].
  split; [reflexivity|]. split; [reflexivity|].
  exists x, y, d, c. auto.
Qed.

Lemma for_each_fallback_shape (E : Env) (img : ref) (size : Z) {A} (l : list A) :
  60 <= size ->
  forall w,
    exists shapes w',
      for_each l (fun _ => fallback_shape E img size) w = (Ok tt, w')
      /\ w_images w' = alter (add_ops shapes) img (w_images w)
      /\ w_lists w' = w_lists w
      /\ length shapes = length l
      /\ Forall (is_fallback_shape size) shapes.
Proof.
  intros Hs. induction l as [|a l IH]; intros w.
  - exists [], w. simpl. unfold ret. rewrite alter_add_ops_nil. auto.
  - destruct (fallback_shape_spec E img size w Hs) as (o & w1 & Ho & Hi & Hl & Hshape).
    cbn [for_each]. unfold bind. rewrite Ho.
    destruct (IH w1) as (shapes & w2 & -> & Hi2 & Hl2 & Hlen & Hall).
    exists (o :: shapes), w2. split; [reflexivity|].
    split; [rewrite Hi2, Hi, alter_add_ops_app; reflexivity|].
    split; [congruence|]. split; [simpl; congruence|constructor; assumption].
Qed.

(** X6: on a canvas of side 60 to 63 and for a non-empty emoji list no
    glyph is pasted: the placement fails, the handler draws exactly 80
    ellipses instead, each with its corner in [[0, size - 60]], a diameter
    from 30 to 80 and a colour of the fallback palette, and the call returns
    normally. *)
Theorem collage_fallback_shapes (E : Env) (img : ref) (size : Z)
  (emojis : list emoji_data) (w : world) :
  60 <= size < 64 ->
  emojis <> [] ->
  exists shapes w',
    create_emoji_background E img size emojis w = (Ok tt, w')
    /\ w_images w' = alter (add_ops shapes) img (w_images w)
    /\ length shapes = 80%nat
    /\ Forall (is_fallback_shape size) shapes.
Proof.
  intros Hs Hne. unfold create_emoji_background, try_except.
  destruct (collage_body_raises E img size emojis w ltac:(lia) Hne)
    as (w1 & -> & Hi & _).
  destruct (for_each_fallback_shape E img size (range 80) ltac:(lia) w1)
    as (shapes & w' & -> & Hi' & _ & Hlen & Hall).
  exists shapes, w'. split; [reflexivity|]. split; [congruence|].
  split; [rewrite Hlen; reflexivity|assumption].
Qed.

Lemma collage_fallback_shapes_witness :
  60 <= 62 < 64
  /\ exists (shapes : list op) w',
      create_emoji_background Scenario.env Scenario.img0 62
        [{| emoji := [Scenario.a]; weight := 5 |}] (Scenario.start [])
      = (Ok tt, w')
      /\ length shapes = 80%nat.
Proof.
  split; [lia|].
  destruct (collage_fallback_shapes Scenario.env Scenario.img0 62
              [{| emoji := [Scenario.a]; weight := 5 |}] (Scenario.start []))
    as (shapes & w' & H1 & _ & H2 & _); [lia|discriminate|].
  exists shapes, w'. split; assumption.
Defined.

(** The cache stays sound through a call. *)
Lemma cache_sound_same_cache (E : Env) (w1 w2 : world) :
  w_cache w2 = w_cache w1 -> cache_sound E w1 -> cache_sound E w2.
Proof. intros H Hc e s im Hl. rewrite H in Hl. eapply Hc. eassumption. Qed.

Lemma get_emoji_image_sized (E : Env) (emoji : str) (s : Z) (w : world) :
  0 <= s ->
  cache_sound E w ->
  exists im w',
    get_emoji_image E emoji s w = (Ok im, w')
    /\ im_size im = (s, s)
    /\ cache_sound E w'
    /\ w_images w' = w_images w /\ w_lists w' = w_lists w.
Proof.
  intros Hs Hc. unfold get_emoji_image, st_cache_data.
  destruct (w_cache w !! (emoji, s)) as [im|] eqn:Hl.
  - exists im, w. destruct (Hc _ _ _ Hl) as (w0 & w1 & Hrun).
    split; [reflexivity|]. split; [eapply wrapped_result; eassumption|]. auto.
  - destruct (wrapped_total E emoji s w Hs) as (im & w' & Hrun & Hi & Hls & _).
    rewrite Hrun. destruct (wrapped_result E emoji s w w' im Hrun) as [Hsz Hcache].
    eexists _, _. split; [reflexivity|]. split; [assumption|].
    split; [|split; assumption].
    intros e s0 im0. cbn [w_cache set_cache].
    destruct (decide ((emoji, s) = (e, s0))) as [[= <- <-]|Hne].
    + rewrite lookup_insert_eq. intros [= <-]. eauto.
    + rewrite lookup_insert_ne by assumption. rewrite Hcache. apply Hc.
Qed.

Lemma alpha_table_exact :
  alpha_table = Ok (map (fun p => 3 * p / 5) (range 256)).
Proof. vm_compute. reflexivity. Qed.

Lemma place_emoji_glyph (E : Env) (img : ref) (size : Z) (e : str) (w : world) :
  64 <= size ->
  cache_sound E w ->
  exists g0 x y w',
    place_emoji E img size e w = (Ok tt, w')
    /\ w_images w'
       = alter (add_ops [Paste (apply_op (PutAlpha (map (fun p => 3 * p / 5) (range 256))) g0) x y])
           img (w_images w)
    /\ cache_sound E w'
    /\ im_mode g0 = RGBA /\ im_size g0 = (64, 64).
Proof.
  intros Hsize Hc. unfold place_emoji, emoji_size. unfold bind at 1.
  destruct (random_randint_spec E 0 (size - 64) w) as (x & -> & Hxr); [lia|].
  unfold bind at 1.
  destruct (random_randint_spec E 0 (size - 64) (set_draws (S (w_draws w)) w))
    as (y & -> & Hyr); [lia|].
  unfold bind at 1.
  match goal with |- context [get_emoji_image E e 64 ?w0] =>
    destruct (get_emoji_image_sized E e 64 w0) as (g & w1 & -> & Hsz & Hc1 & Hi & Hl);
      [lia|eapply cache_sound_same_cache; [|exact Hc]; reflexivity|]
  end.
  unfold bind, lift. rewrite alpha_table_exact. unfold draw.
  eexists _, x, y, _. split; [reflexivity|].
  cbn [w_images set_images] in *. rewrite Hi.
  split; [reflexivity|].
  split; [eapply cache_sound_same_cache; [|exact Hc1]; reflexivity|].
  destruct g as [md gw gh og ops]. simpl in Hsz. injection Hsz as -> ->.
  destruct md; split; reflexivity.
Qed.

(** X7: every glyph image pasted by [create_emoji_background] is in mode
    RGBA and 64 by 64 pixels, and its alpha channel has been replaced by the
    table that sends each alpha [p] of 0..255 to [3*p // 5], the 60 percent
    of the source rounded down; this holds for downloaded pictures of any
    mode, for placeholders and for cached images alike. *)
Theorem pasted_glyphs_are_rgba (E : Env) (img : ref) (size : Z)
  (emojis : list emoji_data) (w : world) :
  64 <= size ->
  cache_sound E w ->
  exists glyphs w',
    create_emoji_background E img size emojis w = (Ok tt, w')
    /\ (forall im,
          w_images w !! img = Some im ->
          exists im', w_images w' !! img = Some im'
                      /\ pasted im' = pasted im ++ glyphs)
    /\ Forall (fun g =>
                 exists g0,
                   g = apply_op (PutAlpha (map (fun p => 3 * p / 5) (range 256))) g0
                   /\ im_mode g = RGBA /\ im_size g = (64, 64))
              glyphs
    /\ cache_sound E w'.
Proof.
  intros Hsize Hc. unfold create_emoji_background, try_except.
  destruct (random_shuffle_spec E (emoji_instances emojis) w) as (sh & Hsh & _).
  unfold bind. rewrite Hsh.
  set (w0 := set_draws _ w).
  assert (Hc0 : cache_sound E w0) by (eapply cache_sound_same_cache; [|exact Hc]; reflexivity).
  assert (Hi0 : w_images w0 = w_images w) by reflexivity.
  clearbody w0. clear Hsh Hc. revert w0 Hc0 Hi0.
  assert (Hloop : forall w0, cache_sound E w0 ->
            exists glyphs xs w',
              for_each sh (place_emoji E img size) w0 = (Ok tt, w')
              /\ w_images w' = alter (add_ops (map (fun gx => Paste (fst gx) (fst (snd gx)) (snd (snd gx)))
                                                  (combine glyphs xs))) img (w_images w0)
              /\ length xs = length glyphs
              /\ Forall (fun g =>
                           exists g0,
                             g = apply_op (PutAlpha (map (fun p => 3 * p / 5) (range 256))) g0
                             /\ im_mode g = RGBA /\ im_size g = (64, 64)) glyphs
              /\ cache_sound E w').
  { induction sh as [|e sh IH]; intros w0 Hc0.
    - exists [], [], w0. simpl. unfold ret. rewrite alter_add_ops_nil. auto.
    - destruct (place_emoji_glyph E img size e w0 Hsize Hc0)
        as (g0 & x & y & w1 & He & Hi & Hc1 & Hmode & Hsz).
      cbn [for_each]. unfold bind. rewrite He.
      destruct (IH w1 Hc1) as (glyphs & xs & w2 & -> & Hi2 & Hlen & Hall & Hc2).
      eexists (_ :: glyphs), ((x, y) :: xs), w2. split; [reflexivity|].
      split; [rewrite Hi2, Hi, alter_add_ops_app; reflexivity|].
      split; [simpl; congruence|]. split; [|assumption].
      constructor; [|assumption]. exists g0. split; [reflexivity|].
      destruct g0; simpl in *. auto. }
  intros w0 Hc0 Hi0.
  destruct (Hloop w0 Hc0) as (glyphs & xs & w' & -> & Hi & Hlen & Hall & Hc').
  exists glyphs, w'. split; [reflexivity|]. split; [|split; assumption].
  intros im Him. eexists. rewrite Hi, Hi0, list_lookup_alter_eq.
  unfold ref in *. rewrite Him. split; [reflexivity|].
  unfold pasted. rewrite im_ops_add_ops, flat_map_app. f_equal.
  clear - Hlen. revert xs Hlen.
  induction glyphs as [|g glyphs IH]; intros [|x xs] Hlen; simpl in *; try lia;
    [reflexivity|]. f_equal. apply IH. lia.
Qed.

Lemma pasted_glyphs_are_rgba_witness :
  64 <= 1024
  /\ cache_sound Online.env (Scenario.start [])
  /\ exists glyphs w',
      create_emoji_background Online.env Scenario.img0 1024
        [{| emoji := [Scenario.a]; weight := 3 |}] (Scenario.start [])
      = (Ok tt, w')
      /\ Forall (fun g => im_mode g = RGBA /\ im_size g = (64, 64)) glyphs.
Proof.
  split; [lia|]. split; [apply cache_sound_empty; reflexivity|].
  destruct (pasted_glyphs_are_rgba Online.env Scenario.img0 1024
              [{| emoji := [Scenario.a]; weight := 3 |}] (Scenario.start []))
    as (glyphs & w' & H1 & _ & H2 & _); [lia|apply cache_sound_empty; reflexivity|].
  exists glyphs, w'. split; [exact H1|].
  eapply Forall_impl; [exact H2|]. intros g (g0 & _ & Hm & Hs). auto.
Defined.

(** ** Where the text goes *)

Lemma binary_round_aux_sign (s : bool) (mx ex : Z) (lx : location) :
  match binary_round_aux PyFloat.prec PyFloat.emax s mx ex lx with
  | S754_zero s' | S754_infinity s' | S754_finite s' _ _ => s' = s
  | S754_nan => True
  end.
Proof.
  unfold binary_round_aux.
  destruct (shr_fexp _ _ mx ex lx) as [r1 e1].
  destruct (shr_fexp _ _ _ e1 loc_Exact) as [r2 e2].
  destruct (shr_m r2); [reflexivity| |exact I].
  destruct (e2 <=? _); reflexivity.
Qed.

Lemma to_int_nonneg (x : PyFloat.float) (z : Z) :
  match x with S754_finite true _ _ => False | _ => True end ->
  PyFloat.to_int x = Ok z -> 0 <= z.
Proof.
  destruct x as [s|s| |[|] m e]; try contradiction; intros _; simpl;
    try discriminate; intros [= <-]; [lia|].
  destruct e as [|p|p].
  - apply Z.shiftl_nonneg. lia.
  - apply Z.shiftl_nonneg. lia.
  - apply Z.shiftr_nonneg. lia.
Qed.

Lemma int_mul_nonneg (n : Z) (m f : PyFloat.float) (z : Z) :
  0 < n -> nonneg_float m ->
  PyFloat.int_mul n m = Ok f -> PyFloat.to_int f = Ok z -> 0 <= z.
Proof.
  intros Hn Hm. unfold PyFloat.int_mul, PyFloat.of_int.
  destruct n as [|p|p]; try lia. simpl binary_normalize. unfold binary_round.
  destruct (shl_align p 0 _) as [mz ez].
  pose proof (binary_round_aux_sign false (Zpos mz) ez loc_Exact) as Hs.
  destruct (binary_round_aux _ _ false (Zpos mz) ez loc_Exact) as [s|s| |s a e];
    simpl; try discriminate; subst; intros [= <-]; apply to_int_nonneg.
  - destruct m as [sm|sm| |[|] mm em]; try contradiction; exact I.
  - destruct m as [sm|sm| |[|] mm em]; try contradiction; exact I.
  - destruct m as [sm|sm| |[|] mm em]; try contradiction; [exact I|].
    unfold PyFloat.mul, SFmul.
    pose proof (binary_round_aux_sign (xorb false false) (Zpos (a * mm)) (e + em) loc_Exact) as Hs.
    destruct (binary_round_aux _ _ _ _ _ _) as [s|s| |s a' e']; simpl in *; subst; exact I.
Qed.

(** With a multiplier that is not negative the font size is not negative. *)
Lemma quote_font_size_nonneg (size : Z) (q : quote) (m : PyFloat.float) (fs : Z) :
  nonneg_float m -> quote_font_size size q m = Ok fs -> 0 <= fs.
Proof.
  intros Hm. unfold quote_font_size, rbind.
  repeat (case_match; try discriminate). intros [= <-].
  match goal with
  | H1 : PyFloat.int_mul 150 m = Ok ?f, H2 : PyFloat.to_int ?f = Ok ?z |- _ =>
      pose proof (int_mul_nonneg 150 m f z ltac:(lia) Hm H1 H2)
  end.
  lia.
Qed.

Lemma black_boxes_app (E : Env) (a b : list op) :
  black_boxes E (a ++ b) = black_boxes E a ++ black_boxes E b.
Proof. unfold black_boxes. apply flat_map_app. Qed.

Lemma black_boxes_line_ops (E : Env) (size : Z) (f : font) (y : Z) (line : str) :
  black_boxes E (line_ops E size f y line) = [(y, y + text_height E f line)].
Proof.
  unfold line_ops. rewrite black_boxes_app. unfold black_boxes. simpl.
  set (x := (size - text_width E f line) / 2).
  induction outline_offsets as [|d l IH]; [reflexivity|exact IH].
Qed.

Lemma stacked_lower (boxes : list (Z * Z)) (lo lo' hi : Z) :
  lo' <= lo -> stacked lo boxes hi -> stacked lo' boxes hi.
Proof. destruct boxes as [|box rest]; simpl; intros; lia || (intuition lia). Qed.

Lemma stacked_app (a b : list (Z * Z)) :
  forall lo mid hi,
    stacked lo a mid -> stacked mid b hi -> stacked lo (a ++ b) hi.
Proof.
  induction a as [|box a IH]; simpl; intros lo mid hi Ha Hb.
  - eapply stacked_lower; eassumption.
  - destruct Ha as (H1 & H2 & H3). repeat split; try assumption.
    eapply IH; eassumption.
Qed.

Lemma fold_left_add_nonneg (l : list Z) :
  Forall (fun h => 0 <= h) l -> 0 <= fold_left Z.add l 0.
Proof.
  induction 1 as [|h l Hh _ IH]; simpl; [lia|].
  rewrite fold_left_add_from. lia.
Qed.

(** The lines of one block: one below the other, the last one ending a line
    spacing above the cursor that the block leaves. *)
Lemma block_boxes (E : Env) (size : Z) (f : font) (s : Z) (ls : list str) :
  (forall line, 0 <= text_height E f line) -> 0 <= s ->
  forall y,
    let hs := map (text_height E f) ls in
    let boxes := black_boxes E (block_ops E size f s y (combine ls hs)) in
    let after := y + fold_left Z.add hs 0 + s * Z.of_nat (length ls) in
    stacked y boxes after
    /\ Forall (fun box => snd box + s <= after) boxes.
Proof.
  intros Hh Hs. induction ls as [|line ls IH]; intros y.
  - simpl. split; [lia|constructor].
  - cbn [map combine block_ops]. cbn zeta.
    rewrite black_boxes_app, black_boxes_line_ops.
    specialize (IH (y + text_height E f line + s)). cbn zeta in IH.
    destruct IH as [Hst Hall].
    set (hs := map (text_height E f) ls) in *.
    assert (Hsum : 0 <= fold_left Z.add hs 0).
    { apply fold_left_add_nonneg. subst hs. apply Forall_map. apply Forall_forall. intros; apply Hh. }
    pose proof (Hh line) as Hl.
    cbn [fold_left length]. rewrite (fold_left_add_from hs (0 + text_height E f line)).
    replace (y + (0 + text_height E f line + fold_left Z.add hs 0)
             + s * Z.of_nat (S (length ls)))
      with (y + text_height E f line + s + fold_left Z.add hs 0
            + s * Z.of_nat (length ls)) by lia.
    split.
    + simpl. split; [lia|]. split; [lia|].
      eapply stacked_lower; [|exact Hst]. lia.
    + constructor; [|exact Hall]. simpl. nia.
Qed.

Section Bounds.

Context (E : Env) (img : ref) (size : Z) (m : PyFloat.float).

Hypothesis heights_nonneg : forall fs line, 0 <= text_height E (load_font E fs) line.
Hypothesis multiplier_nonneg : nonneg_float m.

Lemma draws_of_boxes (y : Z) (q : quote) (b : block) :
  quote_block E size m q = Ok b ->
  let boxes := black_boxes E (draws_of E size y b) in
  stacked y boxes (y + total_height b + line_spacing b)
  /\ Forall (fun box => snd box <= y + total_height b) boxes.
Proof.
  intros Hb. destruct (quote_block_inv E size m q b Hb) as (Hfs & Hf & _ & Hh & Hsp & Ht).
  assert (Hs : 0 <= line_spacing b).
  { rewrite Hsp. apply Z.div_pos; [|lia].
    eapply quote_font_size_nonneg; eassumption. }
  assert (Hhn : forall line, 0 <= text_height E (block_font b) line).
  { intros line. rewrite Hf. apply heights_nonneg. }
  pose proof (block_boxes E size (block_font b) (line_spacing b) (lines b) Hhn Hs y) as H.
  cbn zeta in H. unfold draws_of. rewrite Hh.
  assert (Hafter : y + fold_left Z.add (map (text_height E (block_font b)) (lines b)) 0
                   + line_spacing b * Z.of_nat (length (lines b))
                   = y + total_height b + line_spacing b).
  { rewrite Ht, Hh. unfold block_height. rewrite length_map. lia. }
  rewrite Hafter in H. destruct H as [Hst Hall]. split; [exact Hst|].
  eapply Forall_impl; [exact Hall|]. simpl. intros; lia.
Qed.

Lemma for_fold_overlay_boxes (l : list quote) :
  forall y w,
    exists ops hi,
      w_images (snd (for_fold l (overlay_quote E img size m) y w))
      = alter (add_ops ops) img (w_images w)
      /\ stacked y (black_boxes E ops) hi
      /\ Forall (fun box => snd box < size - 100) (black_boxes E ops).
Proof.
  induction l as [|q l IH]; intros y w.
  - exists [], y. simpl. rewrite alter_add_ops_nil. split; [reflexivity|].
    split; [lia|constructor].
  - cbn [for_fold]. unfold bind.
    destruct (quote_block E size m q) as [b|e] eqn:Hb.
    + destruct (Z.lt_ge_cases (y + total_height b) (size - 100)) as [Hlt|Hge].
      * rewrite (overlay_quote_draw E img size m y q w b Hb Hlt).
        destruct (IH (y + total_height b + line_spacing b + 40)
                    (set_images (alter (add_ops (draws_of E size y b)) img (w_images w)) w))
          as (ops & hi & Himg & Hst & Hall).
        destruct (draws_of_boxes y q b Hb) as [Hst0 Hall0].
        exists (draws_of E size y b ++ ops), hi.
        split; [rewrite Himg; cbn [w_images set_images]; apply alter_add_ops_app|].
        rewrite black_boxes_app. split.
        -- eapply stacked_app; [exact Hst0|].
           eapply stacked_lower; [|exact Hst]. lia.
        -- apply Forall_app. split; [|exact Hall].
           eapply Forall_impl; [exact Hall0|]. simpl. intros; lia.
      * rewrite (overlay_quote_skip E img size m y q w b Hb Hge). apply IH.
    + rewrite (overlay_quote_raise E img size m y q w e Hb).
      exists [], y. simpl. rewrite alter_add_ops_nil. split; [reflexivity|].
      split; [lia|constructor].
Qed.

End Bounds.


Lemma scenario_heights_nonneg :
  forall fs line, 0 <= text_height Scenario.env (load_font Scenario.env fs) line.
Proof.
  intros fs line. unfold load_font, base_font. cbn.
  destruct (Z.ltb_spec 0 fs); cbn; unfold text_height; cbn; lia.
Qed.


(** X9: once [add_text_overlay] has run on a list of quotes, running it
    again, with any canvas, size, multiplier or environment, leaves the list
    as the first run left it: only the first render reorders the caller's
    quotes. *)
Theorem quotes_list_settles (E E' : Env) (img img' : ref) (size size' : Z)
  (quotes : ref) (m m' : PyFloat.float) (w : world) :
  let w1 := snd (add_text_overlay E img size quotes m w) in
  w_lists (snd (add_text_overlay E' img' size' quotes m' w1)) = w_lists w1.
Proof.
  intros w1. subst w1. rewrite !add_text_overlay_lists.
  destruct (w_lists w !! quotes) as [l|] eqn:Hl.
  - assert (Hlt : (quotes < length (w_lists w))%nat) by (eapply lookup_lt_Some; eassumption).
    rewrite list_lookup_insert_eq by assumption. simpl.
    rewrite (sorted_by_importance_fixed (sorted_by_importance l))
      by apply sorted_by_importance_descending.
    apply list_insert_id. apply list_lookup_insert_eq. assumption.
  - assert (Hge : (length (w_lists w) <= quotes)%nat) by (apply lookup_ge_None; assumption).
    rewrite !list_insert_ge; try assumption; try reflexivity.
    rewrite list_insert_ge by assumption. assumption.
Qed.


(** ** Where the lines break *)

Section Breaks.

Context (E : Env) (f : font) (max_width : Z).

Lemma head_first_group (G : list (list str)) (cur : list str) :
  Forall (fun g => g <> []) G ->
  head (List.hd [] (G ++ [cur])) = head (concat G ++ cur).
Proof.
  intros HG. destruct G as [|g G]; [reflexivity|].
  apply Forall_cons in HG as [Hg _]. destruct g; [congruence|reflexivity].
Qed.

Lemma forced_chain_cons (g : list str) (L : list (list str)) :
  L <> [] ->
  forced E f max_width g (head (List.hd [] L)) ->
  forced_chain E f max_width L ->
  forced_chain E f max_width (g :: L).
Proof. destruct L as [|g' L]; [congruence|]. intros _ H1 H2. split; assumption. Qed.

Lemma forced_chain_init (G : list (list str)) (x : list str) :
  forced_chain E f max_width (G ++ [x]) -> forced_chain E f max_width G.
Proof.
  induction G as [|g G IH]; [intros; exact I|].
  cbn [app forced_chain]. intros [H1 H2]. split; [|apply IH; exact H2].
  destruct G as [|g' G]; [exact I|exact H1].
Qed.

Lemma forced_chain_lookup (G : list (list str)) :
  forced_chain E f max_width G ->
  forall i g g', G !! i = Some g -> G !! S i = Some g' ->
                 forced E f max_width g (head g').
Proof.
  induction G as [|g0 G IH]; intros Hc i g g' Hi Hsi; [discriminate|].
  destruct Hc as [H1 H2]. destruct i as [|i].
  - injection Hi as <-. destruct G as [|g1 G]; [discriminate|].
    injection Hsi as <-. exact H1.
  - exact (IH H2 i g g' Hi Hsi).
Qed.

Lemma wrap_loop_forced (words : list str) :
  forall lines cur,
    exists G cur',
      wrap_loop E f max_width words lines cur = (lines ++ map join G, cur')
      /\ Forall (fun g => g <> []) G
      /\ concat G ++ cur' = cur ++ words
      /\ forced_chain E f max_width (G ++ [cur']).
Proof.
  induction words as [|word words IH]; intros lines cur.
  - exists [], cur. simpl. rewrite !app_nil_r. repeat split. constructor.
  - cbn [wrap_loop].
    destruct (Z.leb_spec (text_width E f (join (cur ++ [word]))) max_width) as [Hle|Hgt].
    + destruct (IH lines (cur ++ [word])) as (G & cur' & -> & Hne & Hcat & Hch).
      exists G, cur'. rewrite <- app_assoc in Hcat. auto.
    + destruct cur as [|c cur].
      * destruct (IH (lines ++ [word]) []) as (G & cur' & -> & Hne & Hcat & Hch).
        exists ([word] :: G), cur'. rewrite <- app_assoc.
        split; [reflexivity|]. split; [constructor; [discriminate|assumption]|].
        split; [simpl in *; rewrite Hcat; reflexivity|].
        apply forced_chain_cons; [destruct G; discriminate| |assumption].
        left. exists word. split; [reflexivity|exact Hgt].
      * destruct (IH (lines ++ [join (c :: cur)]) [word])
          as (G & cur' & -> & Hne & Hcat & Hch).
        exists ((c :: cur) :: G), cur'. rewrite <- app_assoc.
        split; [reflexivity|]. split; [constructor; [discriminate|assumption]|].
        split; [cbn [concat]; rewrite <- app_assoc, Hcat; reflexivity|].
        apply forced_chain_cons; [destruct G; discriminate| |assumption].
        right. exists word. split; [|exact Hgt].
        rewrite head_first_group by assumption. rewrite Hcat. reflexivity.
Qed.

Lemma wrap_text_forced (txt : str) :
  exists G,
    wrap_text E txt f max_width = map join G
    /\ Forall (fun g => g <> []) G
    /\ concat G = split txt
    /\ forced_chain E f max_width G.
Proof.
  unfold wrap_text.
  destruct (wrap_loop_forced (split txt) [] []) as (G & cur' & -> & Hne & Hcat & Hch).
  simpl in Hcat. destruct cur' as [|c cur'].
  - exists G. rewrite app_nil_r in Hcat. simpl.
    repeat split; try assumption. eapply forced_chain_init; eassumption.
  - exists (G ++ [c :: cur']). rewrite map_app. simpl.
    split; [reflexivity|]. split; [|split; [|assumption]].
    + apply Forall_app. split; [assumption|]. constructor; [discriminate|constructor].
    + rewrite concat_app. simpl. rewrite app_nil_r. assumption.
Qed.

End Breaks.

Lemma words_of_groups (G : list (list str)) (txt : str) (i : nat) (g : list str) :
  concat G = split txt -> G !! i = Some g -> Forall word_ok g.
Proof.
  intros Hcat Hi. pose proof (split_words txt) as Hw. rewrite <- Hcat in Hw.
  apply Forall_forall. intros w Hin. rewrite Forall_forall in Hw. apply Hw.
  apply list_elem_of_In, in_concat. exists g.
  split; apply list_elem_of_In; [eapply list_elem_of_lookup_2; eassumption|assumption].
Qed.

(** X11: [wrap_text] breaks a line only when it has to.  Of two consecutive
    lines it returns, the first is one word that is itself wider than
    [max_width], or the first with the first word of the second appended
    after a space is wider than [max_width]. *)
Theorem wrap_text_breaks_are_forced (E : Env) (txt : str) (f : font)
  (max_width : Z) (i : nat) (line next : str) :
  wrap_text E txt f max_width !! i = Some line ->
  wrap_text E txt f max_width !! S i = Some next ->
  (split line = [line] /\ max_width < text_width E f line)
  \/ exists w',
       head (split next) = Some w'
       /\ max_width < text_width E f (line ++ SPACE :: w').
Proof.
  destruct (wrap_text_forced E f max_width txt) as (G & -> & Hne & Hcat & Hch).
  rewrite !list_lookup_fmap. intros Hi Hsi.
  destruct (G !! i) as [g|] eqn:Hg; [|discriminate].
  destruct (G !! S i) as [g'|] eqn:Hg'; [|discriminate].
  injection Hi as <-. injection Hsi as <-.
  pose proof (words_of_groups G txt i g Hcat Hg) as Hw.
  pose proof (words_of_groups G txt (S i) g' Hcat Hg') as Hw'.
  destruct (forced_chain_lookup E f max_width G Hch i g g' Hg Hg')
    as [(w & -> & Hwide)|(w' & Hhead & Hwide)].
  - left. split; [|exact Hwide]. change (join [w]) with w.
    change w with (join [w]) at 1. apply split_join. assumption.
  - right. exists w'. rewrite split_join by assumption. split; [assumption|].
    rewrite join_app in Hwide; [exact Hwide| |discriminate].
    rewrite Forall_forall in Hne. apply Hne.
    eapply list_elem_of_lookup_2; eassumption.
Qed.

Lemma wrap_text_breaks_are_forced_witness :
  wrap_text Scenario.env (text Scenario.long_quote) DefaultFont 35 !! 0%nat
  = Some [Scenario.a; SPACE; Scenario.a]
  /\ wrap_text Scenario.env (text Scenario.long_quote) DefaultFont 35 !! 1%nat
     = Some [Scenario.a; SPACE; Scenario.a]
  /\ ((split [Scenario.a; SPACE; Scenario.a] = [[Scenario.a; SPACE; Scenario.a]]
       /\ 35 < text_width Scenario.env DefaultFont [Scenario.a; SPACE; Scenario.a])
      \/ exists w',
           head (split [Scenario.a; SPACE; Scenario.a]) = Some w'
           /\ 35 < text_width Scenario.env DefaultFont
                     ([Scenario.a; SPACE; Scenario.a] ++ SPACE :: w')).
Proof.
  split; [reflexivity|]. split; [reflexivity|].
  apply (wrap_text_breaks_are_forced Scenario.env (text Scenario.long_quote)
           DefaultFont 35 0); reflexivity.
Defined.

(** X12: [wrap_text] returns no empty line and no line with leading,
    trailing or repeated white space: splitting a line into words and
    joining them with single spaces gives the line back.  There are never
    more lines than words, and there is no line at all exactly when the
    text has no word. *)
Theorem wrap_text_lines_are_clean (E : Env) (txt : str) (f : font) (max_width : Z) :
  let lines := wrap_text E txt f max_width in
  Forall (fun line => line <> [] /\ join (split line) = line) lines
  /\ (length lines <= length (split txt))%nat
  /\ (lines = [] <-> split txt = []).
Proof.
  intros lines. subst lines.
  destruct (wrap_text_groups E f max_width txt) as (G & -> & Hne & _ & Hcat).
  split; [|split].
  - apply Forall_forall. intros line Hin.
    apply list_elem_of_fmap in Hin as (g & -> & Hg).
    apply list_elem_of_lookup_1 in Hg as [i Hi].
    pose proof (words_of_groups G txt i g Hcat Hi) as Hw.
    rewrite split_join by assumption. split; [|reflexivity].
    rewrite Forall_forall in Hne.
    assert (Hg : g <> []).
    { apply Hne. eapply list_elem_of_lookup_2; eassumption. }
    destruct g as [|w g]; [congruence|].
    apply Forall_cons in Hw as [[Hw _] _].
    destruct w; [congruence|]. destruct g; discriminate.
  - rewrite length_map, <- Hcat. clear Hcat.
    induction Hne as [|g G Hg _ IH]; [simpl; lia|].
    cbn [concat]. rewrite length_app. destruct g; [congruence|]. simpl in *. lia.
  - rewrite <- Hcat. split.
    + intros H. apply map_eq_nil in H. subst G. reflexivity.
    + intros H. destruct G as [|g G]; [reflexivity|].
      apply Forall_cons in Hne as [Hg _]. destruct g; [congruence|discriminate].
Qed.

(** ** The thumbnail as a whole *)

Lemma block_ops_are_text (E : Env) (size : Z) (f : font) (sp : Z)
  (ls : list (str * Z)) :
  forall y, Forall is_text (block_ops E size f sp y ls).
Proof.
  induction ls as [|[line h] ls IH]; intros y; [constructor|].
  cbn [block_ops]. apply Forall_app. split; [|apply IH].
  unfold line_ops. apply Forall_app. split; [|repeat constructor].
  apply Forall_map. apply Forall_forall. intros; exact I.
Qed.

Lemma quote_block_raise (E : Env) (size : Z) (m : PyFloat.float) (q : quote) (e : exn) :
  quote_block E size m q = Raise e -> quote_font_size size q m = Raise e.
Proof.
  unfold quote_block. destruct (quote_font_size size q m); simpl; congruence.
Qed.

(** The loop over the quotes draws text only, and stops early only at a
    quote whose font size cannot be computed. *)
Lemma for_fold_overlay_outcome (E : Env) (img : ref) (size : Z)
  (m : PyFloat.float) (l : list quote) :
  forall y w,
    exists ops,
      w_images (snd (for_fold l (overlay_quote E img size m) y w))
      = alter (add_ops ops) img (w_images w)
      /\ Forall is_text ops
      /\ ((exists y', fst (for_fold l (overlay_quote E img size m) y w) = Ok y')
          \/ exists q e,
               In q l /\ quote_font_size size q m = Raise e
               /\ fst (for_fold l (overlay_quote E img size m) y w) = Raise e).
Proof.
  induction l as [|q l IH]; intros y w.
  - exists []. simpl. rewrite alter_add_ops_nil. split; [reflexivity|].
    split; [constructor|]. left. eauto.
  - cbn [for_fold]. unfold bind.
    destruct (quote_block E size m q) as [b|e] eqn:Hb.
    + destruct (Z.lt_ge_cases (y + total_height b) (size - 100)) as [Hlt|Hge].
      * rewrite (overlay_quote_draw E img size m y q w b Hb Hlt).
        destruct (IH (y + total_height b + line_spacing b + 40)
                    (set_images (alter (add_ops (draws_of E size y b)) img (w_images w)) w))
          as (ops & Himg & Hops & Hout).
        exists (draws_of E size y b ++ ops).
        split; [rewrite Himg; cbn [w_images set_images]; apply alter_add_ops_app|].
        split; [apply Forall_app; split; [apply block_ops_are_text|assumption]|].
        destruct Hout as [Hok|(q' & e & Hin & Hq & Hr)]; [left; assumption|].
        right. exists q', e. split; [right; assumption|]. split; assumption.
      * rewrite (overlay_quote_skip E img size m y q w b Hb Hge).
        destruct (IH y w) as (ops & Himg & Hops & Hout).
        exists ops. split; [assumption|]. split; [assumption|].
        destruct Hout as [Hok|(q' & e & Hin & Hq & Hr)]; [left; assumption|].
        right. exists q', e. split; [right; assumption|]. split; assumption.
    + rewrite (overlay_quote_raise E img size m y q w e Hb).
      exists []. simpl. rewrite alter_add_ops_nil. split; [reflexivity|].
      split; [constructor|]. right. exists q, e.
      split; [left; reflexivity|]. split; [eapply quote_block_raise; eassumption|reflexivity].
Qed.

Lemma add_text_overlay_outcome (E : Env) (img : ref) (size : Z) (quotes : ref)
  (m : PyFloat.float) (w : world) :
  exists ops,
    w_images (snd (add_text_overlay E img size quotes m w))
    = alter (add_ops ops) img (w_images w)
    /\ Forall is_text ops
    /\ (fst (add_text_overlay E img size quotes m w) = Ok tt
        \/ exists q e,
             In q (default [] (w_lists w !! quotes))
             /\ quote_font_size size q m = Raise e
             /\ fst (add_text_overlay E img size quotes m w) = Raise e).
Proof.
  unfold add_text_overlay, bind at 1 3 5, list_sort.
  set (l := sorted_by_importance _). set (w1 := set_lists _ w).
  destruct (for_fold_overlay_outcome E img size m l (size / 12) w1)
    as (ops & Himg & Hops & Hout).
  exists ops. unfold bind.
  destruct (for_fold l _ _ w1) as [[y|e] w2]; cbn [fst snd] in *.
  - split; [exact Himg|]. split; [assumption|]. left. reflexivity.
  - split; [exact Himg|]. split; [assumption|]. right.
    destruct Hout as [[y' Hy]|(q & e' & Hin & Hq & Hr)]; [discriminate|].
    injection Hr as ->. exists q, e'. split; [|split; [assumption|reflexivity]].
    eapply Permutation_in; [|exact Hin].
    subst l. apply sorted_by_importance_perm.
Qed.

Lemma add_ops_same_shape (ops : list op) :
  Forall keeps_shape ops ->
  forall md wd ht og ops0,
    add_ops ops (Image md wd ht og ops0) = Image md wd ht og (ops0 ++ ops).
Proof.
  induction 1 as [|o ops Ho _ IH]; intros md wd ht og ops0.
  - rewrite app_nil_r. reflexivity.
  - change (add_ops (o :: ops) (Image md wd ht og ops0))
      with (add_ops ops (apply_op o (Image md wd ht og ops0))).
    destruct o; try contradiction; cbn [apply_op]; rewrite IH, <- app_assoc; reflexivity.
Qed.

(** X13: [create_thumbnail] builds the picture in three layers on one new
    canvas: the gradient first, then one paste for every emoji instance,
    then text, so that no glyph ever covers a quote.  It changes no image
    that existed before, leaves the caller's list of quotes sorted by
    importance, and returns the new canvas unless the font size of some
    quote cannot be computed, which is the only way it can raise; the
    layers drawn up to that point are on the canvas all the same. *)
Theorem create_thumbnail_layers (E : Env) (d : data) (m : PyFloat.float) (w : world) :
  exists pixels placed texts,
    w_images (snd (create_thumbnail E d m w))
    = w_images w
      ++ [Image RGB 1024 1024 (Blank (0, 0, 0, 0))
            (PutData pixels :: map paste_of placed ++ texts)]
    /\ Z.of_nat (length placed) = instance_count (emojis d)
    /\ Forall is_text texts
    /\ w_lists (snd (create_thumbnail E d m w))
       = <[quotes d := sorted_by_importance (default [] (w_lists w !! quotes d))]>
           (w_lists w)
    /\ (fst (create_thumbnail E d m w) = Ok (length (w_images w))
        \/ exists q e,
             In q (default [] (w_lists w !! quotes d))
             /\ quote_font_size 1024 q m = Raise e
             /\ fst (create_thumbnail E d m w) = Raise e).
Proof.
  destruct (create_gradient_background_spec E 1024 w ltac:(lia))
    as (colors & cs & Hin & _ & Hpx & Hg).
  set (img := length (w_images w)) in *.
  set (pixels := concat _) in *.
  set (w1 := set_images _ _) in Hg.
  destruct (create_emoji_background_spec E img 1024 (emojis d) w1 ltac:(lia))
    as (placed & w2 & Hc & Hi2 & Hl2 & _ & Hcount & _).
  destruct (add_text_overlay_outcome E img 1024 (quotes d) m w2)
    as (texts & Hi3 & Htexts & Hout).
  pose proof (add_text_overlay_lists E img 1024 (quotes d) m w2) as Hl3.
  assert (Hrun : create_thumbnail E d m w
                 = (match fst (add_text_overlay E img 1024 (quotes d) m w2) with
                    | Ok _ => Ok img
                    | Raise e => Raise e
                    end,
                    snd (add_text_overlay E img 1024 (quotes d) m w2))).
  { unfold create_thumbnail, bind at 1. rewrite Hg.
    unfold bind at 1. rewrite Hc. unfold bind, ret.
    destruct (add_text_overlay E img 1024 (quotes d) m w2) as [[[]|e] w3]; reflexivity. }
  rewrite Hrun. cbn [fst snd]. rewrite Hl2 in Hl3, Hout.
  exists pixels, placed, texts.
  split; [|split; [assumption|split; [assumption|split; [assumption|]]]].
  - rewrite Hi3, Hi2. subst w1. cbn [w_images set_images].
    rewrite alter_add_ops_app. unfold img.
    rewrite alter_app_r_alt, Nat.sub_diag by lia. cbn [alter list_alter].
    rewrite add_ops_same_shape; [reflexivity|].
    apply Forall_app. split.
    + apply Forall_map, Forall_forall. intros; exact I.
    + eapply Forall_impl; [exact Htexts|]. intros [] Ho; try contradiction; exact I.
  - destruct Hout as [->|(q & e & Hq & Hfs & ->)]; [left; reflexivity|].
    right. exists q, e. auto.
Qed.

(** ** The code fence around the reply *)

Lemma starts_with_app (sep s : str) :
  starts_with sep s = true -> exists rest, s = sep ++ rest.
Proof.
  revert s. induction sep as [|a sep IH]; intros s H; [exists s; reflexivity|].
  destruct s as [|c s]; [discriminate|]. simpl in H.
  apply andb_true_iff in H as [Hac Hs]. apply N.eqb_eq in Hac as ->.
  destruct (IH s Hs) as [rest ->]. exists rest. reflexivity.
Qed.

Lemma starts_with_self (sep rest : str) : starts_with sep (sep ++ rest) = true.
Proof.
  induction sep as [|a sep IH]; [reflexivity|]. simpl. rewrite N.eqb_refl. exact IH.
Qed.

Lemma starts_with_longer (sep s t : str) :
  starts_with sep s = true -> starts_with sep (s ++ t) = true.
Proof.
  intros H. destruct (starts_with_app sep s H) as [rest ->].
  rewrite <- app_assoc. apply starts_with_self.
Qed.

Lemma starts_with_shorter (a b s : str) :
  starts_with (a ++ b) s = true -> starts_with a s = true.
Proof.
  intros H. destruct (starts_with_app _ s H) as [rest ->].
  rewrite <- app_assoc. apply starts_with_self.
Qed.

Lemma contains_shorter (a b s : str) :
  contains (a ++ b) s = true -> contains a s = true.
Proof.
  induction s as [|c s IH]; simpl; intros H.
  - rewrite orb_false_r in *. eapply starts_with_shorter; eassumption.
  - apply orb_true_iff in H as [H|H].
    + rewrite (starts_with_shorter a b _ H). reflexivity.
    + rewrite IH by assumption. apply orb_true_r.
Qed.

Lemma contains_app_r (sep pre s : str) :
  contains sep s = true -> contains sep (pre ++ s) = true.
Proof.
  intros H. induction pre as [|c pre IH]; [exact H|].
  simpl. rewrite IH. apply orb_true_r.
Qed.

Lemma contains_self (sep post : str) : contains sep (sep ++ post) = true.
Proof.
  destruct (sep ++ post) eqn:Hs; simpl.
  - destruct sep; [reflexivity|discriminate].
  - rewrite <- Hs, starts_with_self. reflexivity.
Qed.

Lemma split_skip (sep x : str) :
  forall cur s,
    split_sep_from sep (length x) cur (x ++ s) = split_sep_from sep 0 cur s.
Proof.
  induction x as [|c x IH]; intros cur s; [reflexivity|]. simpl. apply IH.
Qed.

Lemma split_at_match (sep : str) (cur : list char) (rest : str) :
  sep <> [] ->
  split_sep_from sep 0 cur (sep ++ rest)
  = rev cur :: split_sep_from sep 0 [] rest.
Proof.
  intros Hsep. destruct sep as [|a sep]; [congruence|].
  pose proof (starts_with_self (a :: sep) rest) as Hm.
  change ((a :: sep) ++ rest) with (a :: (sep ++ rest)) in *.
  cbn [split_sep_from]. rewrite Hm. f_equal.
  replace (length (a :: sep) - 1)%nat with (length sep) by (simpl; lia).
  apply split_skip.
Qed.

Lemma split_none (sep : str) (s : str) :
  forall cur,
    contains sep s = false ->
    split_sep_from sep 0 cur s = [rev cur ++ s].
Proof.
  induction s as [|c s IH]; intros cur H.
  - simpl. rewrite app_nil_r. reflexivity.
  - simpl in H. apply orb_false_iff in H as [Hm Hs].
    cbn [split_sep_from]. change (starts_with sep (c :: s)) with
      (starts_with sep (c :: s)). rewrite Hm, IH by assumption.
    simpl. rewrite <- app_assoc. reflexivity.
Qed.

(** The first piece of a split ends where the separator first occurs. *)
Lemma split_first (sep : str) (s : str) :
  sep <> [] -> contains sep s = true ->
  exists pre post,
    s = pre ++ sep ++ post
    /\ contains sep pre = false
    /\ forall cur,
        split_sep_from sep 0 cur s
        = (rev cur ++ pre) :: split_sep_from sep 0 [] post.
Proof.
  intros Hsep. induction s as [|c s IH]; intros H.
  - simpl in H. rewrite orb_false_r in H.
    destruct (starts_with_app sep [] H) as [rest Hs].
    destruct sep; [congruence|discriminate].
  - destruct (starts_with sep (c :: s)) eqn:Hm.
    + destruct (starts_with_app sep _ Hm) as [post Hs].
      exists [], post. split; [exact Hs|]. split.
      * destruct sep; [congruence|reflexivity].
      * intros cur. rewrite Hs, app_nil_r. apply split_at_match. assumption.
    + simpl in H. rewrite Hm in H. simpl in H.
      destruct (IH H) as (pre & post & -> & Hpre & Hsplit).
      exists (c :: pre), post. split; [reflexivity|]. split.
      * simpl. rewrite Hpre, orb_false_r.
        destruct (starts_with sep (c :: pre)) eqn:Hp; [|reflexivity].
        apply (starts_with_longer _ _ (sep ++ post)) in Hp.
        simpl in Hp. simpl in Hm. congruence.
      * intros cur. cbn [split_sep_from]. rewrite Hm, Hsplit.
        simpl. rewrite <- app_assoc. reflexivity.
Qed.

(** The first piece of a split, whether or not the separator occurs. *)
Lemma split_head (sep : str) (s : str) (cur : list char) :
  sep <> [] ->
  exists piece rest after,
    split_sep_from sep 0 cur s = (rev cur ++ piece) :: rest
    /\ s = piece ++ after
    /\ contains sep piece = false.
Proof.
  intros Hsep. destruct (contains sep s) eqn:Hc.
  - destruct (split_first sep s Hsep Hc) as (pre & post & -> & Hpre & Hsplit).
    exists pre, (split_sep_from sep 0 [] post), (sep ++ post). auto.
  - exists s, [], []. rewrite app_nil_r. split; [apply split_none; assumption|auto].
Qed.

Lemma fence_nonempty : fence <> [] /\ fence_json <> [].
Proof. split; discriminate. Qed.

(** What the two branches of [fenced_json_text] do once the opening fence
    is known to occur. *)
Lemma between_fences (opening : str) (s : str) :
  opening <> [] -> contains opening s = true ->
  exists pre t after,
    (let? rest := index (split_sep opening s) 1 in
     index (split_sep fence rest) 0)%res = Ok t
    /\ s = (pre ++ opening) ++ t ++ after
    /\ contains opening pre = false
    /\ contains fence t = false.
Proof.
  intros Hop Hc. unfold split_sep.
  destruct (split_first opening s Hop Hc) as (pre & post & -> & Hpre & Hsplit).
  rewrite Hsplit.
  destruct (split_head opening post [] Hop) as (rest & more & after & -> & -> & _).
  cbn [index lookup list_lookup rbind app rev].
  destruct (split_head fence rest [] (proj1 fence_nonempty))
    as (t & more' & after' & -> & -> & Ht).
  cbn [index lookup list_lookup app rev].
  exists pre, t, (after' ++ after). rewrite <- !app_assoc. auto.
Qed.

(** X14: taking the reply out of its code fence never raises: the indexing
    of lines 258 and 260 cannot go out of range.  What is taken is a
    stretch of the reply; it is the whole reply when there is no fence in
    it, and it contains no fence otherwise. *)
Theorem fenced_json_text_never_fails (s : str) :
  exists before t after,
    fenced_json_text s = Ok t
    /\ s = before ++ t ++ after
    /\ (contains fence s = false -> t = s)
    /\ (contains fence s = true -> contains fence t = false).
Proof.
  unfold fenced_json_text.
  destruct (contains fence_json s) eqn:Hj.
  - destruct (between_fences fence_json s (proj2 fence_nonempty) Hj)
      as (pre & t & after & -> & Hs & _ & Ht).
    exists (pre ++ fence_json), t, after. split; [reflexivity|]. split; [exact Hs|].
    split; [|intros _; exact Ht].
    intros Hf. apply (contains_shorter fence (lit "json")) in Hj. congruence.
  - destruct (contains fence s) eqn:Hf.
    + destruct (between_fences fence s (proj1 fence_nonempty) Hf)
        as (pre & t & after & -> & Hs & _ & Ht).
      exists (pre ++ fence), t, after. split; [reflexivity|]. split; [exact Hs|].
      split; [discriminate|intros _; exact Ht].
    + exists [], s, []. rewrite app_nil_r. split; [reflexivity|]. split; [reflexivity|].
      split; [reflexivity|discriminate].
Qed.

(** *** Replies without stray backticks *)

Lemma starts_with_no_backtick (sep : str) (c : char) (s : str) :
  c <> backtick -> starts_with (backtick :: sep) (c :: s) = false.
Proof.
  intros Hc. cbn [starts_with]. destruct (N.eqb_spec backtick c); [congruence|reflexivity].
Qed.

Lemma contains_no_backtick (sep : str) (s : str) :
  no_backtick s -> contains (backtick :: sep) s = false.
Proof.
  induction 1 as [|c s Hc _ IH]; [reflexivity|].
  cbn [contains]. rewrite starts_with_no_backtick by assumption. exact IH.
Qed.

Lemma split_clean_prefix (sep : str) (pre post : str) :
  no_backtick pre ->
  forall cur,
    split_sep_from (backtick :: sep) 0 cur (pre ++ (backtick :: sep) ++ post)
    = (rev cur ++ pre) :: split_sep_from (backtick :: sep) 0 [] post.
Proof.
  induction 1 as [|c pre Hc _ IH]; intros cur.
  - rewrite app_nil_l, app_nil_r. apply split_at_match. discriminate.
  - change ((c :: pre) ++ (backtick :: sep) ++ post)
      with (c :: (pre ++ (backtick :: sep) ++ post)).
    cbn [split_sep_from]. rewrite starts_with_no_backtick by assumption.
    rewrite IH. simpl. rewrite <- app_assoc. reflexivity.
Qed.

Lemma contains_clean_prefix (sep : str) (pre post : str) :
  contains sep (pre ++ sep ++ post) = true.
Proof. apply contains_app_r, contains_self. Qed.

Lemma split_pass_clean (sep body rest : str) :
  no_backtick body ->
  forall cur,
    split_sep_from (backtick :: sep) 0 cur (body ++ rest)
    = split_sep_from (backtick :: sep) 0 (rev body ++ cur) rest.
Proof.
  induction 1 as [|c body Hc _ IH]; intros cur; [reflexivity|].
  change ((c :: body) ++ rest) with (c :: (body ++ rest)).
  cbn [split_sep_from]. rewrite starts_with_no_backtick by assumption.
  rewrite IH. simpl. rewrite <- app_assoc. reflexivity.
Qed.

Lemma fence_json_eq : fence_json = backtick :: backtick :: backtick :: lit "json".
Proof. reflexivity. Qed.

Lemma fence_eq : fence = backtick :: [backtick; backtick].
Proof. reflexivity. Qed.

(** The piece before the next opening fence in a clean body followed by a
    closing fence. *)
Lemma closing_fence_piece (tag body post : str) :
  no_backtick body -> head post <> Some backtick ->
  exists piece rest,
    split_sep (backtick :: backtick :: backtick :: tag) (body ++ fence ++ post)
    = (body ++ piece) :: rest
    /\ (piece = [] \/ exists more, piece = fence ++ more).
Proof.
  intros Hbody Hpost. unfold split_sep.
  set (opening := backtick :: backtick :: backtick :: tag).
  assert (Hop : opening <> []) by discriminate.
  unfold opening at 1. rewrite split_pass_clean by assumption. fold opening.
  rewrite app_nil_r.
  destruct (starts_with opening (fence ++ post)) eqn:Hm.
  - destruct (starts_with_app _ _ Hm) as [rest Hrest].
    rewrite Hrest, split_at_match by assumption.
    rewrite rev_involutive. exists [], (split_sep_from opening 0 [] rest).
    rewrite app_nil_r. auto.
  - assert (Hshort : forall few, (few = [backtick; backtick] \/ few = [backtick]) ->
                                 starts_with opening (few ++ post) = false).
    { intros few Hfew.
      destruct (starts_with opening (few ++ post)) eqn:Hs; [|reflexivity].
      apply starts_with_app in Hs as [rest Hr]. exfalso. apply Hpost.
      destruct Hfew as [->| ->]; injection Hr as ->; reflexivity. }
    pose proof (Hshort [backtick; backtick] (or_introl eq_refl)) as H1.
    pose proof (Hshort [backtick] (or_intror eq_refl)) as H2.
    unfold fence in *. cbn [app] in *. cbn [split_sep_from].
    rewrite Hm, H1, H2.
    destruct (split_head opening post
                (backtick :: backtick :: backtick :: rev body) Hop)
      as (piece & rest & after & -> & _ & _).
    exists ([backtick; backtick; backtick] ++ piece), rest. split; [|right; eauto].
    f_equal. simpl. rewrite rev_involutive, <- !app_assoc. reflexivity.
Qed.

Lemma index_head_clean (sep : str) (body : str) :
  no_backtick body ->
  index (split_sep (backtick :: sep) body) 0 = Ok body.
Proof.
  intros H. unfold split_sep. rewrite split_none by (apply contains_no_backtick; assumption).
  reflexivity.
Qed.

(** X15: a reply of the form asked for comes out whole.  When neither the
    text before the fence nor the JSON text has a backtick in it, and what
    follows the closing fence does not begin with one, then from
    [before```json BODY```after] exactly [BODY] is taken, and so it is when
    the closing fence is missing. *)
Theorem json_fence_round_trip (pre body post : str) :
  no_backtick pre -> no_backtick body -> head post <> Some backtick ->
  fenced_json_text (pre ++ fence_json ++ body ++ fence ++ post) = Ok body
  /\ fenced_json_text (pre ++ fence_json ++ body) = Ok body.
Proof.
  intros Hpre Hbody Hpost. unfold fenced_json_text.
  rewrite !contains_clean_prefix. cbv iota. unfold split_sep.
  rewrite fence_json_eq, !split_clean_prefix by assumption.
  cbn [index lookup list_lookup app rev rbind].
  split.
  - destruct (closing_fence_piece (lit "json") body post Hbody Hpost)
      as (piece & rest & Hsplit & Hpiece).
    unfold split_sep in Hsplit. rewrite Hsplit.
    cbn [index lookup list_lookup rbind].
    destruct Hpiece as [->|[more ->]].
    + rewrite app_nil_r, fence_eq. apply index_head_clean. assumption.
    + rewrite fence_eq, split_clean_prefix by assumption. reflexivity.
  - rewrite split_none by (apply contains_no_backtick; assumption).
    cbn [index lookup list_lookup rbind app rev]. rewrite fence_eq.
    apply index_head_clean. assumption.
Qed.

Lemma json_fence_round_trip_witness :
  no_backtick (lit "Here: ") /\ no_backtick (lit "{}")
  /\ head (lit " Done.") <> Some backtick
  /\ fenced_json_text (lit "Here: " ++ fence_json ++ lit "{}" ++ fence ++ lit " Done.")
     = Ok (lit "{}").
Proof.
  assert (H1 : no_backtick (lit "Here: ")) by (repeat constructor; discriminate).
  assert (H2 : no_backtick (lit "{}")) by (repeat constructor; discriminate).
  assert (H3 : head (lit " Done.") <> Some backtick) by discriminate.
  split; [exact H1|]. split; [exact H2|]. split; [exact H3|].
  exact (proj1 (json_fence_round_trip (lit "Here: ") (lit "{}") (lit " Done.") H1 H2 H3)).
Defined.

(** X16: a fence without the word json works as well, as long as
    [```json] occurs nowhere in the reply: when neither the text before
    the fence nor the JSON text has a backtick in it, exactly the text
    between the first two fences is taken, a language tag after the opening
    fence included. *)
Theorem plain_fence_round_trip (pre body post : str) :
  no_backtick pre -> no_backtick body ->
  contains fence_json (pre ++ fence ++ body ++ fence ++ post) = false ->
  fenced_json_text (pre ++ fence ++ body ++ fence ++ post) = Ok body.
Proof.
  intros Hpre Hbody Hno. unfold fenced_json_text. rewrite Hno.
  rewrite contains_clean_prefix. unfold split_sep.
  rewrite fence_eq, !split_clean_prefix by assumption.
  cbn [index lookup list_lookup app rev rbind].
  apply (index_head_clean [backtick; backtick]). assumption.
Qed.

Lemma plain_fence_round_trip_witness :
  no_backtick (lit "Here: ") /\ no_backtick (lit "JSON {}")
  /\ contains fence_json
       (lit "Here: " ++ fence ++ lit "JSON {}" ++ fence ++ lit " Done.") = false
  /\ fenced_json_text (lit "Here: " ++ fence ++ lit "JSON {}" ++ fence ++ lit " Done.")
     = Ok (lit "JSON {}").
Proof.
  assert (H1 : no_backtick (lit "Here: ")) by (repeat constructor; discriminate).
  assert (H2 : no_backtick (lit "JSON {}")) by (repeat constructor; discriminate).
  split; [exact H1|]. split; [exact H2|]. split; [reflexivity|].
  exact (plain_fence_round_trip (lit "Here: ") (lit "JSON {}") (lit " Done.")
           H1 H2 eq_refl).
Defined.

(** ** The data taken from the reply *)

Lemma getitem_ok (k : json) (key : str) :
  (exists x, getitem k key = inr x) <-> has_key key k = true.
Proof.
  unfold getitem, has_key.
  destruct k as [| | | | | |members];
    try (split; [intros [? ?]|intros ?]; discriminate).
  destruct (assoc key members) as [x|] eqn:Ha.
  - split; [intros _|eauto]. apply bool_decide_eq_true. eauto.
  - split; [intros [x H]; discriminate|].
    intros H. apply bool_decide_eq_true in H as [x H]. discriminate.
Qed.

Lemma tmap_ok {A B} (f : A -> attempt B) (l : list A) :
  (exists bs, tmap f l = inr bs) <-> Forall (fun a => exists b, f a = inr b) l.
Proof.
  induction l as [|a l IH]; simpl.
  - split; [constructor|eauto].
  - unfold tbind. split.
    + intros [bs H]. destruct (f a) as [e|b] eqn:Hf; [discriminate|].
      destruct (tmap f l) as [e|bs'] eqn:Ht; [discriminate|].
      constructor; [eauto|]. apply IH. eauto.
    + intros H. apply Forall_cons in H as [[b ->] Hl].
      apply IH in Hl as [bs ->]. eauto.
Qed.

Lemma pair_ok (k : json) (first second : str) :
  (exists p,
     (try! a := getitem k first in
      try! b := getitem k second in
      inr (a, b))%try = inr p)
  <-> has_key first k && has_key second k = true.
Proof.
  rewrite andb_true_iff, <- !getitem_ok. unfold tbind. split.
  - intros [p H]. destruct (getitem k first); [discriminate|].
    destruct (getitem k second); [discriminate|]. eauto.
  - intros [[a ->] [b ->]]. eauto.
Qed.

Lemma shown_ok (v : json) (first second : str) :
  (exists l, shown v first second = inr l) <-> records_with first second v = true.
Proof.
  unfold shown, records_with.
  destruct v as [| | | |s|items|members]; cbn [iterate tbind];
    try (split; [intros [? ?]|intros ?]; discriminate).
  - destruct s as [|c s]; [split; simpl; eauto|].
    split; [intros [l H]; discriminate|discriminate].
  - rewrite tmap_ok, forallb_forall, Forall_forall.
    split; intros H k Hk.
    + apply pair_ok, H. apply list_elem_of_In. assumption.
    + apply pair_ok, H. apply list_elem_of_In. assumption.
  - destruct members as [|[key x] members]; [split; simpl; eauto|].
    split; [intros [l H]; discriminate|discriminate].
Qed.

Lemma checked_data_ok (data : json) :
  (exists shown_quotes shown_emojis,
     (try! quotes := getitem data (lit "quotes") in
      try! _ := shown quotes (lit "text") (lit "importance") in
      try! emojis := getitem data (lit "emojis") in
      try! _ := shown emojis (lit "emoji") (lit "weight") in
      inr data)%try = inr data
     /\ (try! quotes := getitem data (lit "quotes") in
         shown quotes (lit "text") (lit "importance"))%try = inr shown_quotes
     /\ (try! emojis := getitem data (lit "emojis") in
         shown emojis (lit "emoji") (lit "weight"))%try = inr shown_emojis)
  <-> well_keyed data = true.
Proof.
  unfold well_keyed, getitem, tbind.
  destruct data as [| | | | | |members];
    try (split; [intros (? & ? & ? & ? & ?)|intros ?]; discriminate).
  destruct (assoc (lit "quotes") members) as [quotes|];
    [|split; [intros (? & ? & ? & ? & ?)|intros ?]; discriminate].
  destruct (assoc (lit "emojis") members) as [emojis|].
  - rewrite andb_true_iff, <- !shown_ok. split.
    + intros (sq & se & _ & Hq & He). eauto.
    + intros [[sq Hq] [se He]]. exists sq, se. rewrite Hq, He. auto.
  - split; [|discriminate]. intros (sq & se & _ & _ & ?). discriminate.
Qed.

(** What [checked_reply] accepts. *)
Lemma checked_reply_accepts (S : Services) (prompt : str) (data : json) :
  checked_reply S prompt = inr data
  <-> exists content json_text,
        completion S prompt = inr content
        /\ fenced_json_text content = Ok json_text
        /\ json_loads S (strip json_text) = inr data
        /\ well_keyed data = true.
Proof.
  unfold checked_reply. unfold tbind at 1 2 3.
  destruct (completion S prompt) as [e|content];
    [split; [discriminate|intros (? & ? & ? & _); discriminate]|].
  destruct (fenced_json_text_never_fails content) as (_ & json_text & _ & Hf & _).
  rewrite Hf. cbn [of_result].
  assert (Hsame : forall c t, @inr exc str content = inr c ->
                              fenced_json_text c = Ok t -> t = json_text).
  { intros c t [= <-] Ht. rewrite Hf in Ht. congruence. }
  destruct (json_loads S (strip json_text)) as [e|d] eqn:Hl.
  - split; [discriminate|]. intros (c & t & Hc & Ht & Hd & _).
    rewrite (Hsame c t Hc Ht), Hl in Hd. discriminate.
  - split.
    + intros H. exists content, json_text.
      assert (d = data) as ->.
      { unfold tbind in H. repeat (case_match; try discriminate). congruence. }
      repeat split; try assumption. apply checked_data_ok.
      unfold tbind in *. repeat (case_match; try discriminate). eauto.
    + intros (c & t & Hc & Ht & Hd & Hk).
      rewrite (Hsame c t Hc Ht), Hl in Hd. injection Hd as ->.
      apply checked_data_ok in Hk as (? & ? & Hk & _). exact Hk.
Qed.

Lemma fallback_data_well_keyed : well_keyed fallback_data = true.
Proof. reflexivity. Qed.

(** X17: what [extract_quotes_and_emojis] returns always has the two keys
    [quotes] and [emojis], and every quote has the keys [text] and
    [importance], every emoji the keys [emoji] and [weight]; the one
    exception is that an empty object or an empty string in the place of a
    list is let through.  It returns the decoded reply exactly when that
    has this form, and the fallback data in every other case; the values
    behind the keys are not looked at. *)
Theorem extracted_data_is_well_keyed (S : Services) (transcript : str) :
  well_keyed (extract_quotes_and_emojis S transcript) = true
  /\ (forall content json_text data,
        completion S (prompt transcript) = inr content ->
        fenced_json_text content = Ok json_text ->
        json_loads S (strip json_text) = inr data ->
        extract_quotes_and_emojis S transcript
        = if well_keyed data then data else fallback_data)
  /\ ((forall content json_text,
         completion S (prompt transcript) = inr content ->
         fenced_json_text content = Ok json_text ->
         exists e, json_loads S (strip json_text) = inl e) ->
      extract_quotes_and_emojis S transcript = fallback_data).
Proof.
  unfold extract_quotes_and_emojis.
  pose proof (checked_reply_accepts S (prompt transcript)) as Hacc.
  destruct (checked_reply S (prompt transcript)) as [e|d] eqn:Hr.
  - split; [apply fallback_data_well_keyed|]. split; [|reflexivity].
    intros content json_text data Hc Hf Hl.
    destruct (well_keyed data) eqn:Hk; [|reflexivity].
    assert (H : inl e = inr data) by (apply Hacc; eauto 6). discriminate.
  - destruct (proj1 (Hacc d) eq_refl) as (content & json_text & Hc & Hf & Hl & Hk).
    split; [exact Hk|]. split.
    + intros content' json_text' data Hc' Hf' Hl'.
      rewrite Hc in Hc'. injection Hc' as <-.
      rewrite Hf in Hf'. injection Hf' as <-.
      rewrite Hl in Hl'. injection Hl' as <-. rewrite Hk. reflexivity.
    + intros Hno. destruct (Hno content json_text Hc Hf) as [e He]. congruence.
Qed.

(** X18: [extract_quotes_with_custom_prompt] raises only when formatting
    the prompt template raises, since that is done before the [try].  When
    it returns, the data has the keys as above, provided the data kept in
    the session has: a reply that cannot be used leaves the session's data
    in place, or gives the fallback data when the session has none. *)
Theorem custom_prompt_keeps_data_well_keyed (S : Services)
  (session_quotes_data : option json) (transcript custom_prompt : str) :
  (forall d, session_quotes_data = Some d -> well_keyed d = true) ->
  match extract_quotes_with_custom_prompt S session_quotes_data transcript
          custom_prompt with
  | inr data =>
      well_keyed data = true
      /\ exists formatted_prompt,
           str_format S custom_prompt transcript = inr formatted_prompt
           /\ (checked_reply S formatted_prompt = inr data
               \/ ((exists e, checked_reply S formatted_prompt = inl e)
                   /\ data = default fallback_data session_quotes_data))
  | inl e => str_format S custom_prompt transcript = inl e
  end.
Proof.
  intros Hsession. unfold extract_quotes_with_custom_prompt, tbind.
  destruct (str_format S custom_prompt transcript) as [e|formatted_prompt];
    [reflexivity|].
  destruct (checked_reply S formatted_prompt) as [e|data] eqn:Hr.
  - split; [|eauto 6].
    destruct session_quotes_data as [d|]; simpl;
      [apply Hsession; reflexivity|apply fallback_data_well_keyed].
  - split; [|eauto]. apply checked_reply_accepts in Hr as (? & ? & _ & _ & _ & Hk).
    exact Hk.
Qed.

Lemma custom_prompt_keeps_data_well_keyed_witness :
  (forall d, Some fallback_data = Some d -> well_keyed d = true)
  /\ match extract_quotes_with_custom_prompt (answering (lit "no"))
            (Some fallback_data) (lit "hello") (lit "{transcript}") with
     | inr data => well_keyed data = true
     | inl e => False
     end.
Proof.
  assert (H : forall d, Some fallback_data = Some d -> well_keyed d = true)
    by (intros d [= <-]; reflexivity).
  split; [exact H|].
  exact (proj1 (custom_prompt_keeps_data_well_keyed (answering (lit "no"))
                  (Some fallback_data) (lit "hello") (lit "{transcript}") H)).
Defined.
